(** * SenaBot music player (player.js): guild queue, playback engine, registry

    A shallow embedding of [GuildQueue] and [PlayerManager].  JavaScript
    objects become records, [Date.now()] becomes an explicit argument in
    milliseconds, awaited library calls become outcomes supplied by the
    caller, and the effects that leave the queue object (text-channel
    messages, [setImmediate] callbacks, suspended async calls, library
    calls) are kept in an explicit [Runtime] record.  The text helpers of
    the embeds, the queue display of the command layer (index.js), the
    now-playing panel and the voice connection have parts of their own. *)

From Stdlib Require Import ZArith QArith Qround Qminmax Lia Permutation Ascii String.
From stdpp Require Import base option list strings gmap.

Local Open Scope Z_scope.

(** ** Tracks and JavaScript values *)

Record Track := mkTrack {
  title : string;
  url : option string;
  requestedBy : string;
  duration : option Z;
  thumbnail : option string;
  artist : option string;
}.

(** An element of the [songs] array: [None] is JavaScript's [undefined]. *)
Definition Slot : Type := option Track.

(** Truthiness of a number-or-null and of a string-or-null. *)
Definition truthyZ (o : option Z) : bool :=
  match o with Some t => negb (t =? 0) | None => false end.

Definition truthyS (o : option string) : bool :=
  match o with Some s => negb (String.eqb s "") | None => false end.

(** [a || b] on string-or-null values. *)
Definition orS (a b : option string) : option string :=
  if truthyS a then a else b.

Definition orZ (a b : option Z) : option Z :=
  if truthyZ a then a else b.

(** [hay.includes(needle)] *)
Fixpoint includes (needle hay : string) : bool :=
  String.prefix needle hay ||
  match hay with
  | EmptyString => false
  | String _ hay' => includes needle hay'
  end.

Definition ends_with (suffix s : string) : bool :=
  let n := String.length s in
  let k := String.length suffix in
  (k <=? n)%nat && String.eqb (String.substring (n - k)%nat k s) suffix.

(** ** The playback transport *)

(** Modelled from the spec: the playback transport (the audio player of the
    voice library) is an external collaborator of the queue.  Section 4.3
    gives it the states Idle, Playing and Paused. *)
Inductive AudioPlayerStatus := Idle | Playing | Paused.

(** Modelled from the spec: the transport holds at most one audio resource,
    here named by the track it was made from. *)
Record AudioPlayer := mkPlayer {
  status : AudioPlayerStatus;
  resource : option Track;
}.

Definition createAudioPlayer : AudioPlayer :=
  {| status := Idle; resource := None |}.

(** Modelled from the spec: [player.pause()] is refused unless the transport
    is playing. *)
Definition player_pause (p : AudioPlayer) : bool * AudioPlayer :=
  match status p with
  | Playing => (true, {| status := Paused; resource := resource p |})
  | _ => (false, p)
  end.

(** Modelled from the spec: [player.unpause()] is refused unless the
    transport is paused. *)
Definition player_unpause (p : AudioPlayer) : bool * AudioPlayer :=
  match status p with
  | Paused => (true, {| status := Playing; resource := resource p |})
  | _ => (false, p)
  end.

(** Modelled from the spec: [player.play(r)] replaces the resource held. *)
Definition player_play (r : Track) (p : AudioPlayer) : AudioPlayer :=
  {| status := Playing; resource := Some r |}.

(** Modelled from the spec: the transport reaching its Idle status, at the
    end of the stream or when a stop has taken effect. *)
Definition player_to_idle (p : AudioPlayer) : AudioPlayer :=
  {| status := Idle; resource := None |}.

Definition is_idle (p : AudioPlayer) : bool :=
  match status p with Idle => true | _ => false end.

(** ** The guild queue

    The fields of the class that serve the voice connection and the
    now-playing embed ([connection], [nowPlayingMessage],
    [nowPlayingInterval]) are left out of this record, with the methods
    that only touch them; they are modelled apart, as [Voice] and [Panel]. *)

Record GuildQueue := mkQueue {
  guildId : string;
  textChannel : string;
  songs : list Slot;
  player : AudioPlayer;
  paused : bool;
  currentStartMs : Z;
  pausedAtMs : option Z;
  accumulatedPauseMs : Z;
  currentResource : option Track;
  isTransitioning : bool;
}.

(** [new GuildQueue(guildId, textChannel)] *)
Definition newGuildQueue (g ch : string) : GuildQueue :=
  {| guildId := g; textChannel := ch; songs := []; player := createAudioPlayer;
     paused := false; currentStartMs := 0; pausedAtMs := None;
     accumulatedPauseMs := 0; currentResource := None;
     isTransitioning := false |}.

Definition set_songs (l : list Slot) (q : GuildQueue) : GuildQueue :=
  {| guildId := guildId q; textChannel := textChannel q; songs := l;
     player := player q; paused := paused q;
     currentStartMs := currentStartMs q; pausedAtMs := pausedAtMs q;
     accumulatedPauseMs := accumulatedPauseMs q;
     currentResource := currentResource q;
     isTransitioning := isTransitioning q |}.

Definition set_player (p : AudioPlayer) (q : GuildQueue) : GuildQueue :=
  {| guildId := guildId q; textChannel := textChannel q; songs := songs q;
     player := p; paused := paused q;
     currentStartMs := currentStartMs q; pausedAtMs := pausedAtMs q;
     accumulatedPauseMs := accumulatedPauseMs q;
     currentResource := currentResource q;
     isTransitioning := isTransitioning q |}.

Definition set_paused (b : bool) (q : GuildQueue) : GuildQueue :=
  {| guildId := guildId q; textChannel := textChannel q; songs := songs q;
     player := player q; paused := b;
     currentStartMs := currentStartMs q; pausedAtMs := pausedAtMs q;
     accumulatedPauseMs := accumulatedPauseMs q;
     currentResource := currentResource q;
     isTransitioning := isTransitioning q |}.

Definition set_currentStartMs (t : Z) (q : GuildQueue) : GuildQueue :=
  {| guildId := guildId q; textChannel := textChannel q; songs := songs q;
     player := player q; paused := paused q;
     currentStartMs := t; pausedAtMs := pausedAtMs q;
     accumulatedPauseMs := accumulatedPauseMs q;
     currentResource := currentResource q;
     isTransitioning := isTransitioning q |}.

Definition set_pausedAtMs (t : option Z) (q : GuildQueue) : GuildQueue :=
  {| guildId := guildId q; textChannel := textChannel q; songs := songs q;
     player := player q; paused := paused q;
     currentStartMs := currentStartMs q; pausedAtMs := t;
     accumulatedPauseMs := accumulatedPauseMs q;
     currentResource := currentResource q;
     isTransitioning := isTransitioning q |}.

Definition set_accumulatedPauseMs (t : Z) (q : GuildQueue) : GuildQueue :=
  {| guildId := guildId q; textChannel := textChannel q; songs := songs q;
     player := player q; paused := paused q;
     currentStartMs := currentStartMs q; pausedAtMs := pausedAtMs q;
     accumulatedPauseMs := t;
     currentResource := currentResource q;
     isTransitioning := isTransitioning q |}.

Definition set_currentResource (r : option Track) (q : GuildQueue) : GuildQueue :=
  {| guildId := guildId q; textChannel := textChannel q; songs := songs q;
     player := player q; paused := paused q;
     currentStartMs := currentStartMs q; pausedAtMs := pausedAtMs q;
     accumulatedPauseMs := accumulatedPauseMs q;
     currentResource := r;
     isTransitioning := isTransitioning q |}.

Definition set_isTransitioning (b : bool) (q : GuildQueue) : GuildQueue :=
  {| guildId := guildId q; textChannel := textChannel q; songs := songs q;
     player := player q; paused := paused q;
     currentStartMs := currentStartMs q; pausedAtMs := pausedAtMs q;
     accumulatedPauseMs := accumulatedPauseMs q;
     currentResource := currentResource q;
     isTransitioning := b |}.

(** [this.songs.shift()] *)
Definition shift (q : GuildQueue) : GuildQueue := set_songs (tail (songs q)) q.

(** *** Timing: pause, resume, elapsed seconds *)

(** [pause()] at wall-clock time [now], against a transport whose answer is
    given: [ok] is what [this.player.pause()] returned and [p] the transport
    after the call.  The boolean of the result is the return value. *)
Definition pause_with (ok : bool) (p : AudioPlayer) (now : Z) (q : GuildQueue)
  : bool * GuildQueue :=
  if ok then
    let q1 := set_player p q in
    (true, if negb (paused q1)
           then set_paused true (set_pausedAtMs (Some now) q1) else q1)
  else (false, q).

(** [resume()], likewise, for the answer of [this.player.unpause()]. *)
Definition resume_with (ok : bool) (p : AudioPlayer) (now : Z) (q : GuildQueue)
  : bool * GuildQueue :=
  if ok then
    let q1 := set_player p q in
    (true, set_paused false
             (if truthyZ (pausedAtMs q1)
              then set_pausedAtMs None
                     (set_accumulatedPauseMs
                        (accumulatedPauseMs q1 + (now - default 0 (pausedAtMs q1))) q1)
              else q1))
  else (false, q).

(** [pause()] and [resume()] on the queue's own transport. *)
Definition pause (now : Z) (q : GuildQueue) : bool * GuildQueue :=
  let '(ok, p) := player_pause (player q) in pause_with ok p now q.

Definition resume (now : Z) (q : GuildQueue) : bool * GuildQueue :=
  let '(ok, p) := player_unpause (player q) in resume_with ok p now q.

(** [getElapsedSeconds()] at wall-clock time [now_ms]; the quotient by 1000
    is kept exact as a rational, where the code has the binary64 number
    nearest to it.  The statements about readings are kept to what that
    rounding preserves: the order of two readings, a reading being zero,
    and a reading being the quotient of a given integer by 1000. *)
Definition getElapsedSeconds (now_ms : Z) (q : GuildQueue) : Q :=
  if currentStartMs q =? 0 then 0%Q
  else
    let now := if paused q && truthyZ (pausedAtMs q)
               then default 0 (pausedAtMs q) else now_ms in
    let elapsed := Qmake (now - currentStartMs q - accumulatedPauseMs q) 1000 in
    if Qlt_le_dec elapsed 0 then 0%Q else elapsed.

(** [buildProgressBar]'s ratio [Math.min(1, Math.max(0, elapsed / total))],
    the only place where elapsed time is capped by the duration. *)
Definition progressRatio (elapsed : Q) (total : Z) : option Q :=
  if total <=? 0 then None
  else Some (Qmin 1 (Qmax 0 (elapsed / inject_Z total))).

(** *** remove and shuffle *)

(** [remove(index)]: [None] is the [null] result, otherwise the removed
    array element. *)
Definition remove (index : Z) (q : GuildQueue) : option Slot * GuildQueue :=
  if (index <=? 0) || (index >=? Z.of_nat (length (songs q))) then (None, q)
  else
    match songs q !! Z.to_nat index with
    | Some r => (Some r, set_songs (delete (Z.to_nat index) (songs q)) q)
    | None => (None, q)
    end.

(** [[rest[i], rest[j]] = [rest[j], rest[i]]].  The loop only swaps inside
    the array; for an index outside it the list is left as it is, where
    JavaScript would grow the array. *)
Definition swap {A} (i j : nat) (l : list A) : list A :=
  match l !! i, l !! j with
  | Some x, Some y => <[j := x]> (<[i := y]> l)
  | _, _ => l
  end.

(** [Math.floor(r * (i + 1))] for a draw [r] of [Math.random()]. *)
Definition draw_index (r : Q) (i : nat) : nat :=
  Z.to_nat (Qfloor (r * inject_Z (Z.of_nat i + 1))).

(** The loop [for (let i = rest.length - 1; i > 0; i--)]: [i] counts down
    and [k] numbers the calls to [Math.random()], whose results are [random k]. *)
Fixpoint shuffle_loop {A} (random : nat -> Q) (k i : nat) (rest : list A) : list A :=
  match i with
  | O => rest
  | S i' => shuffle_loop random (S k) i' (swap i (draw_index (random k) i) rest)
  end.

(** [shuffle()]: [const [first, ...rest] = this.songs] binds [undefined] to
    [first] when the array is empty. *)
Definition shuffle (random : nat -> Q) (q : GuildQueue) : GuildQueue :=
  let first : Slot := match songs q with [] => None | s :: _ => s end in
  let rest := tail (songs q) in
  set_songs (first :: shuffle_loop random 0%nat (length rest - 1)%nat rest) q.

(** The indices that the loop draws for [i], [i - 1], ..., 1. *)
Fixpoint draws (random : nat -> Q) (k i : nat) : list nat :=
  match i with
  | O => []
  | S i' => draw_index (random k) i :: draws random (S k) i'
  end.

(** The loop of [shuffle] run on given indices. *)
Fixpoint swaps {A} (i : nat) (js : list nat) (rest : list A) : list A :=
  match i, js with
  | S i', j :: js' => swaps i' js' (swap i j rest)
  | _, _ => rest
  end.

(** One index per position [i], [i - 1], ..., 1, each at most its position. *)
Fixpoint in_range (i : nat) (js : list nat) : Prop :=
  match i, js with
  | O, [] => True
  | S i', j :: js' => (j <= i)%nat /\ in_range i' js'
  | _, _ => False
  end.

(** ** Effects outside the queue object *)

(** A callback handed to [setImmediate]: [CbAdvance] is
    [() => { this.isTransitioning = false; this._playCurrent(); }] and
    [CbPlay] is [() => this._playCurrent()]. *)
Inductive Callback := CbAdvance | CbPlay.

(** Calls into the streaming libraries and the transcoder, in the order in
    which they are made. *)
Inductive Call :=
| CallPlaydlStream (u : string)
| CallVideoBasicInfo (u : string)
| CallStreamFromInfo (u : string)
| CallYtdlp (u : string)
| CallSpawnFfmpeg (direct : string)
| CallPlaylistInfo (query : string)
| CallYtdlpPlaylist (query : string).

Record Runtime := mkRuntime {
  queue : GuildQueue;
  sent : list string;          (* the text notices of the playback code:
                                  textChannel.send of a string, oldest
                                  first; the now-playing embeds go through
                                  the panel *)
  immediates : list Callback;  (* setImmediate queue, oldest first *)
  awaiting : list Track;       (* _playCurrent calls suspended at an await,
                                  each with its captured [current] *)
  calls : list Call;           (* calls made by playback and by playlist
                                  listing, oldest first *)
  started : list Track;        (* tracks given to player.play, latest first *)
}.

Definition newRuntime (g ch : string) : Runtime :=
  {| queue := newGuildQueue g ch; sent := []; immediates := [];
     awaiting := []; calls := []; started := [] |}.

Definition on_queue (f : GuildQueue -> GuildQueue) (rt : Runtime) : Runtime :=
  {| queue := f (queue rt); sent := sent rt; immediates := immediates rt;
     awaiting := awaiting rt; calls := calls rt; started := started rt |}.

Definition send (msg : string) (rt : Runtime) : Runtime :=
  {| queue := queue rt; sent := sent rt ++ [msg]; immediates := immediates rt;
     awaiting := awaiting rt; calls := calls rt; started := started rt |}.

Definition setImmediate (cb : Callback) (rt : Runtime) : Runtime :=
  {| queue := queue rt; sent := sent rt; immediates := immediates rt ++ [cb];
     awaiting := awaiting rt; calls := calls rt; started := started rt |}.

Definition set_immediates (l : list Callback) (rt : Runtime) : Runtime :=
  {| queue := queue rt; sent := sent rt; immediates := l;
     awaiting := awaiting rt; calls := calls rt; started := started rt |}.

Definition set_awaiting (l : list Track) (rt : Runtime) : Runtime :=
  {| queue := queue rt; sent := sent rt; immediates := immediates rt;
     awaiting := l; calls := calls rt; started := started rt |}.

Definition call (c : Call) (rt : Runtime) : Runtime :=
  {| queue := queue rt; sent := sent rt; immediates := immediates rt;
     awaiting := awaiting rt; calls := calls rt ++ [c]; started := started rt |}.

(** [this.currentResource = r; this.player.play(r)] for the resource made
    from [current]'s stream.  The [announce()] that follows acts on the
    now-playing panel only; it is [_sendNowPlayingEmbed_begin] of the part
    on the panel. *)
Definition play (current : Track) (rt : Runtime) : Runtime :=
  {| queue := set_player (player_play current (player (queue rt)))
                (set_currentResource (Some current) (queue rt));
     sent := sent rt; immediates := immediates rt;
     awaiting := awaiting rt; calls := calls rt;
     started := current :: started rt |}.

(** Outcome of an awaited library call. *)
Inductive Outcome (A : Type) :=
| Resolves (a : A)
| Rejects (message : string).
Arguments Resolves {A} a.
Arguments Rejects {A} message.

(** What the libraries answer during one run of [_playCurrent]:
    [playdl_stream] covers [playdl.stream] and the resource made from it,
    [ytdlp_direct] is the value of [direct] after the extraction block
    ([None] when the call threw or no url was found). *)
Record PlayOutcome := mkPlayOutcome {
  playdl_stream : bool;
  video_basic_info_ok : bool;
  stream_from_info : bool;
  ytdlp_direct : option string;
  ffmpeg_encode : bool;
}.

(** Notices sent to the text channel (decorative ellipses and emoji are
    left out of the texts). *)
Definition msg_invalid_url : string := "Invalid URL, skipping".
Definition msg_all_failed : string := "All playback methods failed, skipping".
Definition msg_queue_ended : string := "Queue ended.".
Definition msg_stopped : string := "Stopped and cleared queue.".

(** ** Library records used by [add] *)

Record Member := mkMember {
  displayName : option string;
  nickname : option string;
  username : option string;
}.

(** A video object of the streaming library.  [v_id] is
    [obj.id || obj.videoId || obj.video_id], [v_artist] the channel or
    author name and [v_thumbnail] what [extractThumbnail] finds. *)
Record Video := mkVideo {
  v_url : option string;
  v_id : option string;
  v_title : option string;
  v_durationInSec : option Z;
  v_duration : option Z;
  v_thumbnail : option string;
  v_artist : option string;
}.

Record SpotifyTrack := mkSpotifyTrack {
  sp_name : string;
  sp_artists : list string;
}.

Inductive SpotifyInfo :=
| SpTrack (t : SpotifyTrack)
| SpPlaylist (tracks : list SpotifyTrack)
| SpOther.

Record VideoDetails := mkVideoDetails {
  vd_title : option string;
  vd_durationInSec : option Z;
  vd_artist : option string;
  vd_thumbnail : option string;
}.

(** The fields of yt-dlp's JSON that [add] reads: [yj_duration] is
    [json.duration || duration_string...], [yj_artist] is
    [json.uploader || json.channel], and [yj_thumbnail] the thumbnail
    expression, which rejects when it throws. *)
Record YtJson := mkYtJson {
  yj_duration : option Z;
  yj_artist : option string;
  yj_thumbnail : Outcome (option string);
}.

Record Playlist := mkPlaylist {
  fetched_videos : option (list (list Video));   (* pages, when a Map *)
  videos : option (list Video);                  (* when an array *)
  pl_title : option string;
}.

Record Entry := mkEntry {
  e_id : option string;
  e_title : option string;
  e_duration : option Z;
  e_thumbnail : option string;
  e_uploader : option string;
}.

Record YtPlaylist := mkYtPlaylist {
  yp_title : option string;
  entries : option (list (option Entry));
}.

(** The libraries' answers to [add]'s awaited calls. *)
Record Resolver := mkResolver {
  spotify : string -> Outcome SpotifyInfo;
  search : string -> Outcome (list Video);
  video_basic_info : string -> Outcome VideoDetails;
  ytdlp_json : string -> Outcome YtJson;
  playlist_info : string -> Outcome Playlist;
  ytdlp_playlist : string -> Outcome YtPlaylist;
}.

Inductive AddResult :=
| AddThrows (message : string)
| AddedTrack (title : string) (url : option string) (duration : option Z)
             (thumbnail artist : option string)
| AddedPlaylist (title : string) (trackCount : nat) (firstTrack : option Track).

Record Meta := mkMeta {
  m_duration : option Z;
  m_thumbnail : option string;
  m_artist : option string;
}.

Definition to_lower_ascii (c : ascii) : ascii :=
  let n := nat_of_ascii c in
  if (65 <=? n)%nat && (n <=? 90)%nat then ascii_of_nat (n + 32) else c.

Fixpoint to_lower (s : string) : string :=
  match s with
  | EmptyString => EmptyString
  | String c s' => String (to_lower_ascii c) (to_lower s')
  end.

(** [/^https?:\/\//i.test(query)] *)
Definition is_http_link (query : string) : bool :=
  let q := to_lower query in
  String.prefix "http://" q || String.prefix "https://" q.

(** [/spotify\.com|spoti\.fi/.test(query)] *)
Definition is_spotify_link (query : string) : bool :=
  includes "spotify.com" query || includes "spoti.fi" query.

(** [/list=/.test(query)] *)
Definition has_list_marker (query : string) : bool := includes "list=" query.

(** [`${name} ${artists.join(' ')}`] *)
Fixpoint join_space (l : list string) : string :=
  match l with
  | [] => ""
  | [a] => a
  | a :: l' => a +:+ " " +:+ join_space l'
  end.

Definition search_terms (t : SpotifyTrack) : string :=
  sp_name t +:+ " " +:+ join_space (sp_artists t).

Definition ensureVideoUrl (obj : Video) : option string :=
  if truthyS (v_url obj) then v_url obj
  else if truthyS (v_id obj)
       then Some ("https://www.youtube.com/watch?v=" +:+ default "" (v_id obj))
       else None.

Definition requester (member : Member) : string :=
  default "Unknown"
    (orS (displayName member) (orS (nickname member) (orS (username member) (Some "Unknown")))).

(** ** The engine

    [hostname u] is [new URL(u).hostname], [None] when the constructor
    throws; [disablePlaydl] is the environment flag DISABLE_PLAYDL /
    NO_PLAYDL; [env_MAX_PLAYLIST_LENGTH] is the integer that the
    environment variable MAX_PLAYLIST_LENGTH holds (a number of songs),
    [None] when it is unset, empty or not a number. *)
Section Engine.

Variable hostname : string -> option string.
Variable disablePlaydl : bool.
Variable env_MAX_PLAYLIST_LENGTH : option Z.

(** [Math.max(1, Number(process.env.MAX_PLAYLIST_LENGTH || '400') || 400)] *)
Definition MAX_PLAYLIST_LENGTH : Z :=
  Z.max 1 (match env_MAX_PLAYLIST_LENGTH with
           | Some n => if n =? 0 then 400 else n
           | None => 400
           end).

(** [/(^|\.)d$/.test(h)] for a literal domain [d]. *)
Definition host_matches (d h : string) : bool :=
  String.eqb h d || ends_with ("." +:+ d) h.

Definition isYouTubeUrl (u : option string) : bool :=
  match u with
  | None => false
  | Some s =>
      if String.eqb s "" then false
      else match hostname s with
           | None => false
           | Some h => host_matches "youtube.com" h
                       || String.eqb h "youtu.be"
                       || host_matches "music.youtube.com" h
           end
  end.

(** *** _playCurrent *)

(** The synchronous head of [_playCurrent], up to its first [await]: the
    second component is the captured [current] when the call goes on to
    acquire a stream, [None] when it has returned. *)
Definition _playCurrent_begin (now : Z) (rt : Runtime) : Runtime * option Track :=
  match songs (queue rt) with
  | [] => (rt, None)
  | None :: _ => (rt, None)
  | Some current :: _ =>
      if negb (truthyS (url current)) || negb (isYouTubeUrl (url current)) then
        let rt1 := on_queue shift (send msg_invalid_url rt) in
        (match songs (queue rt1) with
         | [] => rt1
         | _ :: _ => setImmediate CbPlay rt1
         end, None)
      else
        (on_queue (fun q =>
           set_isTransitioning false
             (set_paused false
                (set_accumulatedPauseMs 0
                   (set_pausedAtMs None (set_currentStartMs now q))))) rt,
         Some current)
  end.

(** The two play-dl strategies, tried only when play-dl is enabled. *)
Definition try_playdl (out : PlayOutcome) (u : string) (rt : Runtime)
  : bool * Runtime :=
  let rt1 := call (CallPlaydlStream u) rt in
  if playdl_stream out then (true, rt1)
  else
    let rt2 := call (CallVideoBasicInfo u) rt1 in
    if video_basic_info_ok out then
      (stream_from_info out, call (CallStreamFromInfo u) rt2)
    else (false, rt2).

(** yt-dlp extraction, then the ffmpeg transcode when a direct url came out. *)
Definition try_ytdlp (out : PlayOutcome) (u : string) (rt : Runtime)
  : bool * Runtime :=
  let rt1 := call (CallYtdlp u) rt in
  if truthyS (ytdlp_direct out) then
    (ffmpeg_encode out, call (CallSpawnFfmpeg (default "" (ytdlp_direct out))) rt1)
  else (false, rt1).

(** The tail of [_playCurrent] after its awaits: [shift], notice and
    rescheduling when every strategy has failed. *)
Definition abandon_head (rt : Runtime) : Runtime :=
  let rt1 := on_queue shift (send msg_all_failed rt) in
  match songs (queue rt1) with
  | [] => rt1
  | _ :: _ => setImmediate CbPlay rt1
  end.

(** The rest of [_playCurrent] for the captured [current], given what the
    libraries answer.  [calls] keeps the order of the library calls, not
    their times: the first call, which the code makes before it suspends,
    is entered here, when its answer is dealt with. *)
Definition _playCurrent_settle (out : PlayOutcome) (current : Track) (rt : Runtime)
  : Runtime :=
  let u := default "" (url current) in
  let '(ok1, rt1) := if negb disablePlaydl then try_playdl out u rt else (false, rt) in
  if ok1 then play current rt1
  else
    let '(ok2, rt2) := try_ytdlp out u rt1 in
    if ok2 then play current rt2 else abandon_head rt2.

(** One run of [_playCurrent] with nothing else running in between. *)
Definition _playCurrent (now : Z) (out : PlayOutcome) (rt : Runtime) : Runtime :=
  let '(rt1, c) := _playCurrent_begin now rt in
  match c with
  | Some current => _playCurrent_settle out current rt1
  | None => rt1
  end.

(** A call to [_playCurrent] that is left suspended at its await. *)
Definition _playCurrent_async (now : Z) (rt : Runtime) : Runtime :=
  let '(rt1, c) := _playCurrent_begin now rt in
  match c with
  | Some current => set_awaiting (awaiting rt1 ++ [current]) rt1
  | None => rt1
  end.

(** *** Transport events *)

(** Handler of the transport's Idle event. *)
Definition onIdle (rt : Runtime) : Runtime :=
  if isTransitioning (queue rt) then rt
  else
    match songs (queue rt) with
    | [] => rt
    | _ :: _ =>
        let rt1 :=
          on_queue (fun q =>
            set_currentResource None
              (set_accumulatedPauseMs 0
                 (set_pausedAtMs None
                    (set_currentStartMs 0
                       (shift (set_isTransitioning true q)))))) rt in
        match songs (queue rt1) with
        | _ :: _ => setImmediate CbAdvance rt1
        | [] => send msg_queue_ended (on_queue (set_isTransitioning false) rt1)
        end
    end.

Definition isStreamError (message : string) : bool :=
  String.eqb message "aborted"
  || includes "aborted" message
  || includes "premature close" message
  || includes "socket hang up" message.

(** Handler of the transport's error event. *)
Definition onError (message : string) (rt : Runtime) : Runtime :=
  if isStreamError message then rt
  else
    let rt1 := on_queue (fun q => shift (set_isTransitioning true q))
                 (send ("Playback error: " +:+ message) rt) in
    match songs (queue rt1) with
    | _ :: _ => setImmediate CbAdvance rt1
    | [] => on_queue (set_isTransitioning false) rt1
    end.

(** *** skip and stop

    [this.player.stop()] only asks the transport to stop; the transport's
    move to Idle is the later Idle event.  [stop] is [stop()] on the
    fields of [Runtime]; its [_clearNowPlayingMessage()] is in
    [stop_with_panel], with the part on the panel. *)
Definition skip (rt : Runtime) : bool * Runtime :=
  match songs (queue rt) with
  | [] => (false, rt)
  | _ :: _ => (true, rt)
  end.

Definition stop (rt : Runtime) : Runtime :=
  send msg_stopped (on_queue (set_songs []) rt).

(** *** Playlist expansion *)

Definition _createTrackFromPlaylistVideo
    (video : Video) (requestedBy fallbackTitle : string) : option Track :=
  let videoUrl := ensureVideoUrl video in
  if negb (truthyS videoUrl) || negb (isYouTubeUrl videoUrl) then None
  else Some {| title := default "Untitled"
                          (orS (v_title video) (orS (Some fallbackTitle) (Some "Untitled")));
               url := videoUrl;
               requestedBy := requestedBy;
               duration := match v_durationInSec video with
                           | Some d => Some d
                           | None => v_duration video
                           end;
               thumbnail := v_thumbnail video;
               artist := orS (v_artist video) None |}.

(** The inner loop over one page: push, then leave the loop once
    [collected.length >= MAX_PLAYLIST_LENGTH]. *)
Fixpoint collect_page (page : list Video) (collected : list Video) : list Video :=
  match page with
  | [] => collected
  | video :: page' =>
      let collected' := collected ++ [video] in
      if Z.of_nat (length collected') >=? MAX_PLAYLIST_LENGTH then collected'
      else collect_page page' collected'
  end.

(** The outer loop over the pages of [fetched_videos]. *)
Fixpoint collect_pages (pages : list (list Video)) (collected : list Video)
  : list Video :=
  match pages with
  | [] => collected
  | page :: pages' =>
      let collected' := collect_page page collected in
      if Z.of_nat (length collected') >=? MAX_PLAYLIST_LENGTH then collected'
      else collect_pages pages' collected'
  end.

(** What the play-dl listing collects from a fetched playlist. *)
Definition collect_playdl (pl : Playlist) : list Video :=
  let collected := match fetched_videos pl with
                   | Some pages => collect_pages pages []
                   | None => []
                   end in
  match collected, videos pl with
  | [], Some vs => take (Z.to_nat MAX_PLAYLIST_LENGTH) vs
  | _, _ => collected
  end.

Definition video_of_entry (e : Entry) : Video :=
  {| v_url := None; v_id := e_id e;
     v_title := orS (e_title e) (Some "Unknown");
     v_durationInSec := orZ (e_duration e) None;
     v_duration := None;
     v_thumbnail := e_thumbnail e;
     v_artist := orS (e_uploader e) None |}.

(** What the yt-dlp listing collects: the entries with an id among the
    first [MAX_PLAYLIST_LENGTH]. *)
Definition collect_ytdlp (data : YtPlaylist) : list Video :=
  omap (fun entry : option Entry =>
          match entry with
          | Some e => if truthyS (e_id e) then Some (video_of_entry e) else None
          | None => None
          end)
       (take (Z.to_nat MAX_PLAYLIST_LENGTH) (default [] (entries data))).

Definition default_playlist_title : string := "YouTube Playlist".

(** The listing phase of [_queueYouTubePlaylist]: play-dl first, yt-dlp in
    the handler of play-dl's failure. *)
Definition list_playlist (res : Resolver) (query : string) (rt : Runtime)
  : Outcome (list Video * string) * Runtime :=
  let rt1 := call (CallPlaylistInfo query) rt in
  match playlist_info res query with
  | Resolves pl =>
      (Resolves (collect_playdl pl,
                 default default_playlist_title
                   (orS (pl_title pl) (Some default_playlist_title))), rt1)
  | Rejects playdlErr =>
      let rt2 := call (CallYtdlpPlaylist query) rt1 in
      match ytdlp_playlist res query with
      | Resolves data =>
          (Resolves (collect_ytdlp data,
                     default default_playlist_title
                       (orS (yp_title data) (Some default_playlist_title))), rt2)
      | Rejects _ => (Rejects ("Playlist loading failed: " +:+ playdlErr), rt2)
      end
  end.

(** [this.songs.push(...tracks)] *)
Definition push (tracks : list Track) (q : GuildQueue) : GuildQueue :=
  set_songs (songs q ++ map Some tracks) q.

(** [if (this.player.state.status === AudioPlayerStatus.Idle) await this._playCurrent()] *)
Definition play_if_idle (now : Z) (rt : Runtime) : Runtime :=
  if is_idle (player (queue rt)) then _playCurrent_async now rt else rt.

Definition _queueYouTubePlaylist
    (res : Resolver) (query requestedBy : string) (now : Z) (rt : Runtime)
  : AddResult * Runtime :=
  let '(listing, rt1) := list_playlist res query rt in
  match listing with
  | Rejects message => (AddThrows message, rt1)
  | Resolves (collected, playlistTitle) =>
      match collected with
      | [] => (AddThrows "Playlist has no videos", rt1)
      | _ :: _ =>
          let tracks :=
            omap (fun video => _createTrackFromPlaylistVideo video requestedBy playlistTitle)
                 collected in
          match tracks with
          | [] => (AddThrows "Playlist has no playable videos", rt1)
          | firstTrack :: _ =>
              (AddedPlaylist playlistTitle (length tracks) (Some firstTrack),
               play_if_idle now (on_queue (push tracks) rt1))
          end
      end
  end.

(** *** add *)

(** Outcome of the resolution block of [add]. *)
Inductive Resolution :=
| Single (url : option string) (title : string) (artist : option string)
| Delegated (r : AddResult) (rt : Runtime)   (* the playlist branch returned *)
| Failed (message : string) (rt : Runtime).

Definition first_match (res : Resolver) (terms fallbackTitle no_match : string)
    (artist : option string) (rt : Runtime) : Resolution :=
  match search res terms with
  | Rejects message => Failed message rt
  | Resolves [] => Failed no_match rt
  | Resolves (r0 :: _) =>
      Single (ensureVideoUrl r0)
             (default fallbackTitle (orS (v_title r0) (Some fallbackTitle)))
             artist
  end.

Definition resolve (res : Resolver) (query requestedBy : string) (now : Z) (rt : Runtime)
  : Resolution :=
  if is_spotify_link query then
    match spotify res query with
    | Rejects message => Failed message rt
    | Resolves (SpTrack info) =>
        first_match res (search_terms info) (sp_name info)
          "No YouTube match for Spotify track"
          (orS (head (sp_artists info)) None) rt
    | Resolves (SpPlaylist tracks) =>
        match tracks with
        | [] => Failed "Empty Spotify playlist" rt
        | first :: _ =>
            first_match res (search_terms first) (sp_name first)
              "No YouTube match for first playlist track"
              (orS (head (sp_artists first)) None) rt
        end
    | Resolves SpOther => Failed "Unsupported Spotify resource" rt
    end
  else if is_http_link query then
    if negb (isYouTubeUrl (Some query)) then Failed "Only YouTube URLs supported" rt
    else if has_list_marker query then
      let '(r, rt') := _queueYouTubePlaylist res query requestedBy now rt in
      match r with
      | AddThrows message => Failed message rt'
      | _ => Delegated r rt'
      end
    else
      match video_basic_info res query with
      | Resolves info =>
          Single (Some query)
                 (default query (orS (vd_title info) (Some query)))
                 (orS (vd_artist info) None)
      | Rejects _ => Single (Some query) query None
      end
  else
    match search res query with
    | Rejects message => Failed message rt
    | Resolves [] => Failed "No search results" rt
    | Resolves (r0 :: _) =>
        Single (ensureVideoUrl r0)
               (default query (orS (v_title r0) (Some query)))
               (orS (v_artist r0) None)
    end.

(** The best-effort metadata block; a rejection anywhere inside leaves the
    fields as they are at that point. *)
Definition enrich (res : Resolver) (u : string) (artist0 : option string) : Meta :=
  let m0 := {| m_duration := None; m_thumbnail := None; m_artist := artist0 |} in
  let step1 :=
    if negb disablePlaydl then
      match video_basic_info res u with
      | Resolves vd =>
          Resolves {| m_duration := orZ (vd_durationInSec vd) None;
                      m_thumbnail := vd_thumbnail vd;
                      m_artist := orS (m_artist m0) (orS (vd_artist vd) None) |}
      | Rejects message => Rejects message
      end
    else Resolves m0 in
  match step1 with
  | Rejects _ => m0
  | Resolves m1 =>
      if negb (truthyZ (m_duration m1)) || negb (truthyS (m_thumbnail m1))
         || negb (truthyS (m_artist m1)) then
        match ytdlp_json res u with
        | Rejects _ => m1
        | Resolves json =>
            let m2 := {| m_duration := orZ (m_duration m1) (orZ (yj_duration json) None);
                         m_thumbnail := m_thumbnail m1;
                         m_artist := orS (m_artist m1) (orS (yj_artist json) None) |} in
            if negb (truthyS (m_thumbnail m2)) then
              match yj_thumbnail json with
              | Resolves t => {| m_duration := m_duration m2; m_thumbnail := t;
                                 m_artist := m_artist m2 |}
              | Rejects _ => m2
              end
            else m2
        end
      else m1
  end.

(** [add(query, member)], run when its awaited resolution calls have been
    answered: the push and the check of the transport are one synchronous
    stretch at its end.  The second component is the state where that
    stretch ends, which on an idle transport is where the awaited
    [_playCurrent] suspends; the first component is the value that the
    caller receives once that call has run to its end ([add_returns]
    below), a throw being received at once. *)
Definition add (res : Resolver) (query : string) (member : Member) (now : Z)
    (rt : Runtime) : AddResult * Runtime :=
  if String.eqb query "" then (AddThrows "Empty query", rt)
  else
    let requestedBy := requester member in
    match resolve res query requestedBy now rt with
    | Failed message rt' => (AddThrows ("Search failed: " +:+ message), rt')
    | Delegated r rt' => (r, rt')
    | Single url title artist0 =>
        if negb (truthyS url) || negb (isYouTubeUrl url) then
          (AddThrows "Unplayable URL", rt)
        else
          let meta := enrich res (default "" url) artist0 in
          let track := {| title := title; url := url; requestedBy := requestedBy;
                          duration := m_duration meta;
                          thumbnail := m_thumbnail meta;
                          artist := m_artist meta |} in
          (AddedTrack title url (m_duration meta) (m_thumbnail meta) (m_artist meta),
           play_if_idle now (on_queue (push [track]) rt))
    end.

(** [add(query, member)] up to its return.  The code's [add] awaits the
    [_playCurrent] that it calls on an idle transport, so its value reaches
    the caller only when that call has run to its end.  Here the call that
    this [add] has suspended, the one it has put at the end of [awaiting],
    goes on at once with the libraries' answers [out], nothing else
    happening to the queue in between. *)
Definition add_returns (res : Resolver) (query : string) (member : Member) (now : Z)
    (out : PlayOutcome) (rt : Runtime) : AddResult * Runtime :=
  let '(r, rt1) := add res query member now rt in
  let own := length (awaiting rt) in
  (r, match awaiting rt1 !! own with
      | Some current =>
          _playCurrent_settle out current
            (set_awaiting (delete own (awaiting rt1)) rt1)
      | None => rt1
      end).

(** *** The queue as a transition system

    One event is one stretch of code that runs without suspending: the tail
    of an [add], the completion of a suspended [_playCurrent], a
    [setImmediate] callback, a transport event, or a command. *)
Inductive Event :=
| EvAdd (res : Resolver) (query : string) (member : Member) (now : Z)
| EvSettle (i : nat) (out : PlayOutcome)
| EvImmediate (now : Z)
| EvIdle
| EvError (message : string)
| EvSkip
| EvStop
| EvPause (now : Z)
| EvResume (now : Z)
| EvRemove (index : Z)
| EvShuffle (random : nat -> Q).

(** [None] when the event cannot happen in the state: no such suspended
    call, no pending callback, or a transport event of an idle transport. *)
Definition step (e : Event) (rt : Runtime) : option Runtime :=
  match e with
  | EvAdd res query member now => Some (snd (add res query member now rt))
  | EvSettle i out =>
      match awaiting rt !! i with
      | Some current =>
          Some (_playCurrent_settle out current
                  (set_awaiting (delete i (awaiting rt)) rt))
      | None => None
      end
  | EvImmediate now =>
      match immediates rt with
      | CbAdvance :: cbs =>
          Some (_playCurrent_async now
                  (on_queue (set_isTransitioning false) (set_immediates cbs rt)))
      | CbPlay :: cbs => Some (_playCurrent_async now (set_immediates cbs rt))
      | [] => None
      end
  | EvIdle =>
      if is_idle (player (queue rt)) then None
      else Some (onIdle (on_queue (fun q => set_player (player_to_idle (player q)) q) rt))
  | EvError message =>
      if is_idle (player (queue rt)) then None else Some (onError message rt)
  | EvSkip => Some (snd (skip rt))
  | EvStop => Some (stop rt)
  | EvPause now => Some (on_queue (fun q => snd (pause now q)) rt)
  | EvResume now => Some (on_queue (fun q => snd (resume now q)) rt)
  | EvRemove index => Some (on_queue (fun q => snd (remove index q)) rt)
  | EvShuffle random => Some (on_queue (shuffle random) rt)
  end.

Fixpoint run (events : list Event) (rt : Runtime) : option Runtime :=
  match events with
  | [] => Some rt
  | e :: events' =>
      match step e rt with
      | Some rt' => run events' rt'
      | None => None
      end
  end.

Definition reachable (rt : Runtime) : Prop :=
  exists g ch events, run events (newRuntime g ch) = Some rt.

(** ** The registry

    [queues] maps a guild id to a reference into the object store, so that
    two results of [get] are the same instance exactly when they are the
    same reference. *)
Record World := mkWorld {
  queues : gmap string nat;
  heap : gmap nat Runtime;
}.

(** [new PlayerManager()] *)
Definition newPlayerManager : World := {| queues := ∅; heap := ∅ |}.

(** [get(guildId, textChannel)] *)
Definition get (g ch : string) (w : World) : nat * World :=
  match queues w !! g with
  | Some q => (q, w)
  | None =>
      let q := fresh (dom (heap w)) in
      (q, {| queues := <[g := q]> (queues w);
             heap := <[q := newRuntime g ch]> (heap w) |})
  end.

(** What can happen to a registry: a [get], or an event of one of its queues. *)
Inductive WorldEvent :=
| WGet (g ch : string)
| WQueue (q : nat) (e : Event).

Definition world_step (e : WorldEvent) (w : World) : option World :=
  match e with
  | WGet g ch => Some (snd (get g ch w))
  | WQueue q ev =>
      match heap w !! q with
      | Some rt =>
          match step ev rt with
          | Some rt' => Some {| queues := queues w; heap := <[q := rt']> (heap w) |}
          | None => None
          end
      | None => None
      end
  end.

Fixpoint world_run (events : list WorldEvent) (w : World) : option World :=
  match events with
  | [] => Some w
  | e :: events' =>
      match world_step e w with
      | Some w' => world_run events' w'
      | None => None
      end
  end.

(** ** Notions used in the statements *)

(** [rt1] differs from [rt] at most in the log of library calls. *)
Definition same_but_calls (rt rt1 : Runtime) : Prop :=
  queue rt1 = queue rt /\ sent rt1 = sent rt /\ immediates rt1 = immediates rt
  /\ awaiting rt1 = awaiting rt /\ started rt1 = started rt.

(** The wall clock of an event is after the epoch. *)
Definition clock_ok (e : Event) : Prop :=
  match e with
  | EvAdd _ _ _ now | EvImmediate now | EvPause now | EvResume now => 0 < now
  | _ => True
  end.

(** A track whose link [_playCurrent] accepts. *)
Definition playable (t : Track) : Prop := isYouTubeUrl (url t) = true.

(** The timing bookkeeping is coherent with the [paused] flag. *)
Definition timing_inv (q : GuildQueue) : Prop :=
  paused q = true -> truthyZ (pausedAtMs q) = true \/ currentStartMs q = 0.

(** The fields of a queue that are set by its constructor only. *)
Definition same_identity (q q' : GuildQueue) : Prop :=
  guildId q' = guildId q /\ textChannel q' = textChannel q.

(** The queue of guild [g] is the object [q], made for channel [ch]. *)
Definition registered (g ch : string) (q : nat) (w : World) : Prop :=
  queues w !! g = Some q /\
  exists rt, heap w !! q = Some rt /\ guildId (queue rt) = g /\ textChannel (queue rt) = ch.

(** An array element that [_playCurrent] does not reject as an invalid link. *)
Definition slot_ok (s : Slot) : Prop :=
  match s with
  | Some t => playable t
  | None => True
  end.

Definition throws (r : AddResult) : bool :=
  match r with AddThrows _ => true | _ => false end.

Definition rejects {A} (o : Outcome A) : bool :=
  match o with Rejects _ => true | Resolves _ => false end.

(** A query that [add] hands to [_queueYouTubePlaylist]. *)
Definition youtube_playlist_link (query : string) : Prop :=
  query <> "" /\ is_spotify_link query = false /\ is_http_link query = true
  /\ isYouTubeUrl (Some query) = true /\ has_list_marker query = true.

(** The videos that the listing phase hands on, none when it fails. *)
Definition listed (res : Resolver) (query : string) (rt : Runtime) : list Video :=
  match fst (list_playlist res query rt) with
  | Resolves (collected, _) => collected
  | Rejects _ => []
  end.

Definition listed_title (res : Resolver) (query : string) (rt : Runtime) : string :=
  match fst (list_playlist res query rt) with
  | Resolves (_, t) => t
  | Rejects _ => default_playlist_title
  end.

(** C6, amended, in words that do not go through the loops of
    [_queueYouTubePlaylist]: the listing that decides a playlist add.  When
    play-dl's [playlist_info] resolves, it is the first
    [MAX_PLAYLIST_LENGTH] videos of its pages laid end to end, or of
    [videos] when the pages hold none, and yt-dlp has no say; when it
    rejects, it is the yt-dlp entries that have an id, among the first
    [MAX_PLAYLIST_LENGTH] entries; when both reject there is none. *)
Definition decisive_listing (res : Resolver) (query : string) : list Video :=
  match playlist_info res query with
  | Resolves pl =>
      take (Z.to_nat MAX_PLAYLIST_LENGTH)
        (match concat (default [] (fetched_videos pl)) with
         | [] => default [] (videos pl)
         | fetched => fetched
         end)
  | Rejects _ =>
      match ytdlp_playlist res query with
      | Resolves data =>
          video_of_entry <$>
            filter (fun e => truthyS (e_id e) = true)
              (omap id (take (Z.to_nat MAX_PLAYLIST_LENGTH) (default [] (entries data))))
      | Rejects _ => []
      end
  end.

(** The title that goes with it. *)
Definition decisive_title (res : Resolver) (query : string) : string :=
  match playlist_info res query with
  | Resolves pl => default default_playlist_title
                     (orS (pl_title pl) (Some default_playlist_title))
  | Rejects _ =>
      match ytdlp_playlist res query with
      | Resolves data => default default_playlist_title
                           (orS (yp_title data) (Some default_playlist_title))
      | Rejects _ => default_playlist_title
      end
  end.

(** The link that [ensureVideoUrl] builds for a yt-dlp entry. *)
Definition watch_link (e : Entry) : option string :=
  Some ("https://www.youtube.com/watch?v=" +:+ default "" (e_id e)).

(** C6 as it is claimed: a playlist add fails only after both listing
    strategies have been tried. *)
Definition fails_only_after_both
    (res : Resolver) (query : string) (member : Member) (now : Z) (rt : Runtime) : Prop :=
  throws (fst (add res query member now rt)) = true ->
  In (CallPlaylistInfo query) (calls (snd (add res query member now rt)))
  /\ In (CallYtdlpPlaylist query) (calls (snd (add res query member now rt))).

(** Two resolvers that agree on everything but the metadata lookups. *)
Definition same_but_metadata (res res' : Resolver) : Prop :=
  spotify res = spotify res' /\ search res = search res'
  /\ playlist_info res = playlist_info res'
  /\ ytdlp_playlist res = ytdlp_playlist res'.

(** Success of each playback strategy, read off the libraries' answers. *)
Definition primary_ok (out : PlayOutcome) : bool := playdl_stream out.
Definition info_ok (out : PlayOutcome) : bool :=
  video_basic_info_ok out && stream_from_info out.
Definition extractor_ok (out : PlayOutcome) : bool :=
  truthyS (ytdlp_direct out) && ffmpeg_encode out.

(** Every strategy that the flag lets [_playCurrent] try has failed. *)
Definition all_tried_failed (out : PlayOutcome) : bool :=
  (disablePlaydl || (negb (primary_ok out) && negb (info_ok out)))
  && negb (extractor_ok out).

(** The library calls of the three strategies, in their order. *)
Definition strategy_calls (u direct : string) : list Call :=
  [CallPlaydlStream u; CallVideoBasicInfo u; CallStreamFromInfo u;
   CallYtdlp u; CallSpawnFfmpeg direct].

(** C2 in the claim's words, for comparison with [_playCurrent]: the
    strategies that the flag leaves, in their fixed order, each with the
    library calls it makes (within a strategy a call is made only when the
    call before it has answered) and with whether it ends in a stream. *)
Definition strategies (out : PlayOutcome) (u : string) : list (list Call * bool) :=
  (if disablePlaydl then []
   else [([CallPlaydlStream u], primary_ok out);
         (CallVideoBasicInfo u ::
            (if video_basic_info_ok out then [CallStreamFromInfo u] else []),
          info_ok out)])
  ++ [(CallYtdlp u ::
         (if truthyS (ytdlp_direct out)
          then [CallSpawnFfmpeg (default "" (ytdlp_direct out))] else []),
       extractor_ok out)].

(** The calls of a list of strategies tried in order, none retried, up to
    and including the first strategy that succeeds. *)
Fixpoint until_first_success (l : list (list Call * bool)) : list Call :=
  match l with
  | [] => []
  | (made, ok) :: rest => made ++ (if ok then [] else until_first_success rest)
  end.

(** A track advance is under way: the guard flag is up, a [_playCurrent]
    is scheduled, or one is suspended in stream acquisition. *)
Definition advancing (rt : Runtime) : Prop :=
  isTransitioning (queue rt) = true \/ immediates rt <> [] \/ awaiting rt <> [].

(** [songs[0]], with [undefined] for an empty array. *)
Definition songs0 (q : GuildQueue) : Slot :=
  match songs q with
  | s :: _ => s
  | [] => None
  end.

(** P1: the head of [songs] is the track of the latest playback start,
    unless a track advance is under way. *)
Definition head_is_playing (rt : Runtime) : Prop :=
  match songs0 (queue rt) with
  | Some t => head (started rt) = Some t \/ advancing rt
  | None => True
  end.

(** P5 as it is claimed for every queue: head and multiset of [songs] are
    what they were. *)
Definition shuffle_preserves (random : nat -> Q) (q : GuildQueue) : Prop :=
  songs0 (shuffle random q) = songs0 q /\ songs (shuffle random q) ≡ₚ songs q.

(** P6 as it is claimed: the failure notice goes out only after all three
    strategies have been tried. *)
Definition fails_after_all_three (now : Z) (out : PlayOutcome) (rt : Runtime) : Prop :=
  match songs0 (queue rt) with
  | Some current =>
      let u := default "" (url current) in
      let rt' := _playCurrent now out rt in
      sent rt' = sent rt ++ [msg_all_failed] ->
      In (CallPlaydlStream u) (calls rt') /\ In (CallVideoBasicInfo u) (calls rt')
      /\ In (CallYtdlp u) (calls rt')
  | None => True
  end.

(** The claimed cap of elapsed time by the length of the track at the head. *)
Definition elapsed_within_duration (now : Z) (q : GuildQueue) : Prop :=
  match songs0 q with
  | Some t =>
      match duration t with
      | Some d => (getElapsedSeconds now q <= inject_Z d)%Q
      | None => True
      end
  | None => True
  end.

(** What a successful [add] does: it pushes playable tracks and then looks
    at the transport. A failed one leaves all but the call log alone. *)
Inductive add_shape (now : Z) (rt : Runtime) : AddResult -> Runtime -> Prop :=
| add_shape_throws message rt' :
    same_but_calls rt rt' ->
    add_shape now rt (AddThrows message) rt'
| add_shape_pushes r tracks rt1 :
    (forall message, r <> AddThrows message) ->
    tracks <> [] ->
    Forall playable tracks ->
    same_but_calls rt rt1 ->
    add_shape now rt r (play_if_idle now (on_queue (push tracks) rt1)).

End Engine.

(** ** Text helpers of the embeds *)

(** The decimal digit [d]. *)
Definition digit (d : nat) : ascii := ascii_of_nat (48 + d).

Fixpoint show_digits (fuel n : nat) : string :=
  match fuel with
  | O => ""
  | S fuel' =>
      (if (n <? 10)%nat then "" else show_digits fuel' (n / 10))
      +:+ String (digit (n mod 10)) ""
  end.

(** [String(n)] for a natural number and for an integer. *)
Definition show_nat (n : nat) : string := show_digits (S n) n.

Definition show_int (z : Z) : string :=
  if z <? 0 then "-" +:+ show_nat (Z.to_nat (- z)) else show_nat (Z.to_nat z).

(** [String(v).padStart(2, '0')] *)
Definition pad (v : Z) : string :=
  let s := show_int v in
  if (String.length s <? 2)%nat then "0" +:+ s else s.

(** The text [h:mm:ss], or [m:ss] when [h] is zero. *)
Definition clock_text (h m s : Z) : string :=
  if h =? 0 then show_int m +:+ ":" +:+ pad s
  else show_int h +:+ ":" +:+ pad m +:+ ":" +:+ pad s.

(** [formatDuration(sec)] of player.js; [None] is [null]. *)
Definition formatDuration (sec : option Q) : option string :=
  match sec with
  | None => None
  | Some x =>
      let sec := Z.max 0 (Qfloor x) in
      Some (clock_text (sec / 3600) (Z.rem sec 3600 / 60) (Z.rem sec 60))
  end.

(** [Number(v)] for a string [v] of decimal digits, the digits read after
    [acc]; [None] for any other string, where JavaScript has further rules. *)
Fixpoint number_of_digits (v : string) (acc : nat) : option nat :=
  match v with
  | EmptyString => Some acc
  | String c v' =>
      let n := nat_of_ascii c in
      if (48 <=? n)%nat && (n <=? 57)%nat
      then number_of_digits v' (10 * acc + (n - 48))
      else None
  end.

(** [s.split(':')] *)
Fixpoint split_colon (s : string) : list string :=
  match s with
  | EmptyString => [""]
  | String c s' =>
      if Ascii.eqb c ":" then "" :: split_colon s'
      else match split_colon s' with
           | part :: parts => String c part :: parts
           | [] => [String c ""]
           end
  end.

(** [duration_string.split(':').reduce((acc, v) => acc * 60 + Number(v), 0)],
    the reading of yt-dlp's duration text in [add]. *)
Definition parse_duration_string (s : string) : option Z :=
  fold_left
    (fun acc v =>
       match acc, number_of_digits v 0 with
       | Some a, Some n => Some (a * 60 + Z.of_nat n)
       | _, _ => None
       end)
    (split_colon s) (Some 0).

(** [Math.round(x)]: the nearest integer, halves going up. *)
Definition js_round (x : Q) : Z := Qfloor (x + (1 # 2)).

(** What [buildProgressBar] puts into its text: the twenty cells of the bar
    ([true] for a full block), the two time labels and the percentage. *)
Record ProgressBar := mkProgressBar {
  cells : list bool;
  elapsedLabel : string;
  totalLabel : string;
  percent : Z;
}.

Definition bar_cells (ratio : Q) : list bool :=
  let filled := Z.to_nat (js_round (ratio * 20)) in
  replicate filled true ++ replicate (20 - filled)%nat false.

(** [buildProgressBar(elapsed, total)] of player.js. *)
Definition buildProgressBar (elapsed : option Q) (total : option Z)
  : option ProgressBar :=
  match progressRatio (default 0%Q elapsed) (default 0 total) with
  | None => None
  | Some ratio =>
      Some {| cells := bar_cells ratio;
              elapsedLabel :=
                default "0:00" (orS (formatDuration (Some (default 0%Q elapsed)))
                                    (Some "0:00"));
              totalLabel :=
                default "0:00" (orS (formatDuration (inject_Z <$> total)) (Some "0:00"));
              percent := js_round (ratio * 100) |}
  end.

(** The helpers of the same names in index.js, used by the slash commands. *)
Module Index.

Definition formatDuration (sec : option Q) : option string :=
  match sec with
  | None => None
  | Some x =>
      if Qeq_bool x 0 then None
      else
        let sec := Qfloor x in
        Some (clock_text (sec / 3600) (Z.rem sec 3600 / 60) (Z.rem sec 60))
  end.

Definition buildProgressBar (elapsed : option Q) (total : option Z)
  : option ProgressBar :=
  match elapsed, total with
  | Some e, Some t =>
      if (t <=? 0) || Qeq_bool e 0 || negb (Qle_bool 0 e) then None
      else
        let ratio := Qmin 1 (e / inject_Z t) in
        Some {| cells := bar_cells ratio;
                elapsedLabel := default "null" (formatDuration (Some e));
                totalLabel := default "null" (formatDuration (Some (inject_Z t)));
                percent := js_round (ratio * 100) |}
  | _, _ => None
  end.

End Index.

(** ** Thumbnails *)

(** The shapes of value that [extractThumbnail] tells apart: a falsy value,
    a string, an array, and an object with its [url] and [thumbnails]
    properties ([CNone] for a missing [thumbnails]). *)
#[warnings="-register-all"]
Inductive Candidate :=
| CNone
| CString (s : string)
| CArray (items : list Candidate)
| CObject (url : option string) (thumbnails : Candidate).

Fixpoint extractThumbnail (candidate : Candidate) : option string :=
  match candidate with
  | CNone => None
  | CString s => if String.eqb s "" then None else Some s
  | CArray items =>
      (fix from_last (items : list Candidate) : option string :=
         match items with
         | [] => None
         | item :: later =>
             match from_last later with
             | Some chosen => Some chosen
             | None => extractThumbnail item
             end
         end) items
  | CObject url thumbnails =>
      if truthyS url then url else extractThumbnail thumbnails
  end.

(** The strings that a candidate holds. *)
Fixpoint candidate_strings (candidate : Candidate) : list string :=
  match candidate with
  | CNone => []
  | CString s => [s]
  | CArray items =>
      (fix all (items : list Candidate) : list string :=
         match items with
         | [] => []
         | item :: later => candidate_strings item ++ all later
         end) items
  | CObject url thumbnails =>
      match url with Some u => [u] | None => [] end ++ candidate_strings thumbnails
  end.

(** ** The queue display of the command layer

    The /queue and /shuffle commands and the handler of the page buttons
    build one page of the queue with the same code. *)

Definition itemsPerPage : Z := 20.

(** [Math.ceil(queue.songs.length / itemsPerPage)] *)
Definition totalPages (n : nat) : Z := Qceiling (Z.of_nat n # 20).

(** [Math.max(0, Math.min(targetPage, totalPages - 1))], for the integer
    that the button's id carries. *)
Definition currentPage (targetPage : Z) (n : nat) : Z :=
  Z.max 0 (Z.min targetPage (totalPages n - 1)).

Definition page_start (page : Z) : Z := page * itemsPerPage.

Definition page_end (page : Z) (n : nat) : Z :=
  Z.min (page_start page + itemsPerPage) (Z.of_nat n).

(** The values of [i] in [for (let i = start; i < end; i++)]. *)
Definition page_indices (page : Z) (n : nat) : list Z :=
  map (fun k => page_start page + Z.of_nat k)
      (seq 0 (Z.to_nat (page_end page n - page_start page))).

(** The title of a line: cut to 57 characters and an ellipsis of three
    dots when longer than 60. *)
Definition display_title (t : string) : string :=
  if (60 <? String.length t)%nat then String.substring 0 57 t +:+ "..." else t.

(** What a line starts with: the mark of the current track at index 0, the
    index itself elsewhere. *)
Inductive LineLabel := LNow | LNumber (i : Z).

Definition line_label (i : Z) : LineLabel := if i =? 0 then LNow else LNumber i.

(** The two page buttons: the page each one asks for, and whether it is
    disabled.  They are shown when there is more than one page. *)
Definition prev_target (page : Z) : Z := page - 1.
Definition next_target (page : Z) : Z := page + 1.
Definition prev_disabled (page : Z) : bool := page =? 0.
Definition next_disabled (page : Z) (n : nat) : bool := page =? totalPages n - 1.

(** [queue.songs.findIndex(s => s.url === added.url)] of the /play command,
    counting from [i]; [None] when the callback reads [url] of an
    [undefined] element and throws. *)
Fixpoint findIndex_url (u : option string) (l : list Slot) (i : Z) : option Z :=
  match l with
  | [] => Some (-1)
  | None :: _ => None
  | Some s :: rest =>
      if decide (url s = u) then Some i else findIndex_url u rest (i + 1)
  end.

(** [position === 0 && beforeState === AudioPlayerStatus.Idle] *)
Definition isNow (position : Z) (beforeState : AudioPlayerStatus) : bool :=
  (position =? 0) && match beforeState with Idle => true | _ => false end.

(** ** The now-playing panel

    The message that shows the current track and the interval that
    refreshes it.  Messages and timers are named by handles; [timers] holds
    the handles of the intervals that have been set and not cleared, and
    [editing] the calls suspended at an [await]. *)

Inductive PanelCall :=
| PendingEdit     (* [_sendNowPlayingEmbed] awaiting [nowPlayingMessage.edit] *)
| PendingSend     (* [_sendNowPlayingEmbed] awaiting [textChannel.send] *)
| PendingUpdate.  (* [_updateNowPlayingMessage] awaiting [nowPlayingMessage.edit] *)

Record Panel := mkPanel {
  nowPlayingMessage : option nat;
  nowPlayingInterval : option nat;
  timers : list nat;
  editing : list PanelCall;
  next_handle : nat;
}.

Definition newPanel : Panel :=
  {| nowPlayingMessage := None; nowPlayingInterval := None; timers := [];
     editing := []; next_handle := 0 |}.

Definition _stopNowPlayingUpdates (p : Panel) : Panel :=
  match nowPlayingInterval p with
  | Some t =>
      {| nowPlayingMessage := nowPlayingMessage p; nowPlayingInterval := None;
         timers := filter (fun t' => t' <> t) (timers p);
         editing := editing p; next_handle := next_handle p |}
  | None => p
  end.

Definition _startNowPlayingUpdater (p : Panel) : Panel :=
  let p1 := _stopNowPlayingUpdates p in
  match nowPlayingMessage p1 with
  | None => p1
  | Some _ =>
      {| nowPlayingMessage := nowPlayingMessage p1;
         nowPlayingInterval := Some (next_handle p1);
         timers := next_handle p1 :: timers p1;
         editing := editing p1; next_handle := S (next_handle p1) |}
  end.

Definition _clearNowPlayingMessage (p : Panel) : Panel :=
  let p1 := _stopNowPlayingUpdates p in
  {| nowPlayingMessage := None; nowPlayingInterval := nowPlayingInterval p1;
     timers := timers p1; editing := editing p1; next_handle := next_handle p1 |}.

Definition suspend (c : PanelCall) (p : Panel) : Panel :=
  {| nowPlayingMessage := nowPlayingMessage p;
     nowPlayingInterval := nowPlayingInterval p; timers := timers p;
     editing := editing p ++ [c]; next_handle := next_handle p |}.

(** [_sendNowPlayingEmbed(current)] up to its [await]; [current] tells
    whether the argument is a track. *)
Definition _sendNowPlayingEmbed_begin (current : bool) (p : Panel) : Panel :=
  if current then
    let p1 := _stopNowPlayingUpdates p in
    match nowPlayingMessage p1 with
    | Some _ => suspend PendingEdit p1
    | None => suspend PendingSend p1
    end
  else p.

(** [_updateNowPlayingMessage()] up to its [await]; [head] tells whether
    [songs[0]] is a track. *)
Definition _updateNowPlayingMessage_begin (head : bool) (p : Panel) : Panel :=
  match nowPlayingMessage p with
  | None => p
  | Some _ => if head then suspend PendingUpdate p else _clearNowPlayingMessage p
  end.

(** The rest of a suspended call, once the edit or the send has settled;
    [ok] tells whether it resolved. *)
Definition panel_settle (c : PanelCall) (ok : bool) (p : Panel) : Panel :=
  match c with
  | PendingEdit =>
      if ok then _startNowPlayingUpdater p else _clearNowPlayingMessage p
  | PendingSend =>
      if ok then
        _startNowPlayingUpdater
          {| nowPlayingMessage := Some (next_handle p);
             nowPlayingInterval := nowPlayingInterval p; timers := timers p;
             editing := editing p; next_handle := S (next_handle p) |}
      else _clearNowPlayingMessage p
  | PendingUpdate => if ok then p else _clearNowPlayingMessage p
  end.

(** What happens to the panel: a track starts playing and is announced,
    the interval fires, pause or resume refresh the panel, a suspended call
    goes on, or the queue clears the panel (track end, stop, a failed
    start). *)
Inductive PanelEvent :=
| PAnnounce (current : bool)
| PTick (head : bool)
| PRefresh (head : bool)
| PSettle (i : nat) (ok : bool)
| PClear.

Definition panel_step (e : PanelEvent) (p : Panel) : option Panel :=
  match e with
  | PAnnounce current => Some (_sendNowPlayingEmbed_begin current p)
  | PTick head =>
      match timers p with
      | [] => None
      | _ :: _ => Some (_updateNowPlayingMessage_begin head p)
      end
  | PRefresh head => Some (_updateNowPlayingMessage_begin head p)
  | PSettle i ok =>
      match editing p !! i with
      | Some c =>
          Some (panel_settle c ok
                  {| nowPlayingMessage := nowPlayingMessage p;
                     nowPlayingInterval := nowPlayingInterval p;
                     timers := timers p; editing := delete i (editing p);
                     next_handle := next_handle p |})
      | None => None
      end
  | PClear => Some (_clearNowPlayingMessage p)
  end.

Fixpoint panel_run (events : list PanelEvent) (p : Panel) : option Panel :=
  match events with
  | [] => Some p
  | e :: events' =>
      match panel_step e p with
      | Some p' => panel_run events' p'
      | None => None
      end
  end.

(** [stop()] on the queue together with its panel: the array is emptied,
    the transport asked to stop, the panel cleared and the notice sent. *)
Definition stop_with_panel (rt : Runtime) (p : Panel) : Runtime * Panel :=
  (stop rt, _clearNowPlayingMessage p).

(** ** The voice connection

    [connect(voiceChannel)], split at its [await]: connections are named by
    handles, each [joinVoiceChannel] giving a new one; [joined] holds those
    made and not destroyed, [subscribed] those the transport has been
    subscribed to. *)

Record Voice := mkVoice {
  connection : option nat;
  joined : list nat;
  subscribed : list nat;
  voice_notices : list string;
  entering : nat;           (* the calls of [connect] suspended at [entersState] *)
  next_connection : nat;
}.

Definition newVoice : Voice :=
  {| connection := None; joined := []; subscribed := []; voice_notices := [];
     entering := 0%nat; next_connection := 0 |}.

Definition msg_join_failed : string := "Failed to join voice channel.".

Definition connect_begin (v : Voice) : Voice :=
  match connection v with
  | Some _ => v
  | None =>
      {| connection := Some (next_connection v);
         joined := next_connection v :: joined v;
         subscribed := subscribed v; voice_notices := voice_notices v;
         entering := S (entering v); next_connection := S (next_connection v) |}
  end.

(** The rest of [connect] once [entersState] has settled; [None] when
    [this.connection.destroy()] finds no connection and throws. *)
Definition connect_settle (ready : bool) (v : Voice) : option Voice :=
  if ready then
    Some {| connection := connection v; joined := joined v;
            subscribed := match connection v with
                          | Some c => c :: subscribed v
                          | None => subscribed v
                          end;
            voice_notices := voice_notices v; entering := pred (entering v);
            next_connection := next_connection v |}
  else
    match connection v with
    | Some c =>
        Some {| connection := None;
                joined := filter (fun c' => c' <> c) (joined v);
                subscribed := subscribed v;
                voice_notices := voice_notices v ++ [msg_join_failed];
                entering := pred (entering v);
                next_connection := next_connection v |}
    | None => None
    end.

Inductive VoiceEvent := VConnect | VEntered (ready : bool).

Definition voice_step (e : VoiceEvent) (v : Voice) : option Voice :=
  match e with
  | VConnect => Some (connect_begin v)
  | VEntered ready =>
      match entering v with
      | O => None
      | S _ => connect_settle ready v
      end
  end.

Fixpoint voice_run (events : list VoiceEvent) (v : Voice) : option Voice :=
  match events with
  | [] => Some v
  | e :: events' =>
      match voice_step e v with
      | Some v' => voice_run events' v'
      | None => None
      end
  end.

(** ** Sample data for the closed examples *)

(** The host names of the sample links, as [new URL] reports them. *)
Definition sample_hostname (u : string) : option string :=
  if String.prefix "https://www.youtube.com/" u then Some "www.youtube.com"
  else if String.prefix "https://youtu.be/" u then Some "youtu.be"
  else if String.prefix "https://" u then Some "example.org"
  else None.

Definition sample_member : Member :=
  {| displayName := Some "mio"; nickname := None; username := Some "mio#1" |}.

Definition link_a : string := "https://www.youtube.com/watch?v=a".
Definition link_b : string := "https://www.youtube.com/watch?v=b".

(** A resolver whose metadata lookup knows a title and a length of 100
    seconds for every link, and whose other calls reject. *)
Definition sample_resolver : Resolver :=
  {| spotify := fun _ => Rejects "no spotify";
     search := fun _ => Resolves [];
     video_basic_info := fun u =>
       Resolves {| vd_title := Some ("title of " +:+ u);
                   vd_durationInSec := Some 100;
                   vd_artist := Some "channel";
                   vd_thumbnail := Some "thumb" |};
     ytdlp_json := fun _ => Rejects "no yt-dlp";
     playlist_info := fun _ => Rejects "no playlist";
     ytdlp_playlist := fun _ => Rejects "no playlist" |}.

Definition track_of (u : string) : Track :=
  {| title := "title of " +:+ u; url := Some u; requestedBy := "mio";
     duration := Some 100; thumbnail := Some "thumb"; artist := Some "channel" |}.

Definition primary_succeeds : PlayOutcome :=
  {| playdl_stream := true; video_basic_info_ok := true; stream_from_info := true;
     ytdlp_direct := None; ffmpeg_encode := false |}.

Definition everything_fails : PlayOutcome :=
  {| playdl_stream := false; video_basic_info_ok := false; stream_from_info := false;
     ytdlp_direct := None; ffmpeg_encode := false |}.

(** A queue playing [link_a] since time 1000. *)
Definition playing_a : Runtime :=
  {| queue := {| guildId := "g"; textChannel := "c";
                 songs := [Some (track_of link_a)];
                 player := {| status := Playing; resource := Some (track_of link_a) |};
                 paused := false; currentStartMs := 1000; pausedAtMs := None;
                 accumulatedPauseMs := 0;
                 currentResource := Some (track_of link_a);
                 isTransitioning := false |};
     sent := []; immediates := []; awaiting := [];
     calls := [CallPlaydlStream link_a]; started := [track_of link_a] |}.

(** The queue right after [link_a] has been pushed, nothing started yet. *)
Definition queued_a : Runtime :=
  on_queue (push [track_of link_a]) (newRuntime "g" "c").

(** [link_a] is added and starts loading; the queue is stopped while it
    loads; the stream arrives and is played; [link_b] is added. *)
Definition stop_while_loading : list Event :=
  [EvAdd sample_resolver link_a sample_member 1000;
   EvStop;
   EvSettle 0 primary_succeeds;
   EvAdd sample_resolver link_b sample_member 5000].

(** A queue of three tracks, the first one playing. *)
Definition three_songs : GuildQueue :=
  set_songs [Some (track_of link_a); Some (track_of link_b);
             Some (track_of "https://youtu.be/c")]
    (queue playing_a).

Definition sample_video (id : string) : Video :=
  {| v_url := None; v_id := Some id; v_title := Some ("video " +:+ id);
     v_durationInSec := Some 60; v_duration := None;
     v_thumbnail := None; v_artist := Some "channel" |}.

(** A listing of four videos in two pages, the second one without a link. *)
Definition playlist_link : string := "https://www.youtube.com/playlist?list=PL1".

Definition playlist_resolver : Resolver :=
  {| spotify := fun _ => Rejects "no spotify";
     search := fun _ => Resolves [];
     video_basic_info := fun _ => Rejects "no info";
     ytdlp_json := fun _ => Rejects "no yt-dlp";
     playlist_info := fun _ =>
       Resolves {| fetched_videos :=
                     Some [[sample_video "a";
                            {| v_url := None; v_id := None; v_title := None;
                               v_durationInSec := None; v_duration := None;
                               v_thumbnail := None; v_artist := None |}];
                           [sample_video "c"; sample_video "d"]];
                   videos := None;
                   pl_title := Some "mix" |};
     ytdlp_playlist := fun _ => Rejects "no yt-dlp" |}.

(** play-dl answers with a playlist that lists nothing, where yt-dlp would
    list one video. *)
Definition empty_playdl_resolver : Resolver :=
  {| spotify := fun _ => Rejects "no spotify";
     search := fun _ => Resolves [];
     video_basic_info := fun _ => Rejects "no info";
     ytdlp_json := fun _ => Rejects "no yt-dlp";
     playlist_info := fun _ =>
       Resolves {| fetched_videos := Some []; videos := None; pl_title := Some "mix" |};
     ytdlp_playlist := fun _ =>
       Resolves {| yp_title := Some "mix";
                   entries := Some [Some {| e_id := Some "a"; e_title := Some "video a";
                                            e_duration := Some 60; e_thumbnail := None;
                                            e_uploader := Some "channel" |}] |} |}.

(** play-dl's listing fails and yt-dlp lists two entries, the second one
    without an id. *)
Definition ytdlp_only_resolver : Resolver :=
  {| spotify := fun _ => Rejects "no spotify";
     search := fun _ => Resolves [];
     video_basic_info := fun _ => Rejects "no info";
     ytdlp_json := fun _ => Rejects "no yt-dlp";
     playlist_info := fun _ => Rejects "too large";
     ytdlp_playlist := fun _ =>
       Resolves {| yp_title := Some "mix";
                   entries := Some [Some {| e_id := Some "a"; e_title := Some "video a";
                                            e_duration := Some 60; e_thumbnail := None;
                                            e_uploader := Some "channel" |};
                                    Some {| e_id := None; e_title := Some "private";
                                            e_duration := None; e_thumbnail := None;
                                            e_uploader := None |}] |} |}.

(** A registry in use: a queue is made for guild "g", a track is added to
    it, another guild gets its queue, and "g" is asked for again. *)
Definition registry_traffic : list WorldEvent :=
  [WQueue 0 (EvAdd sample_resolver link_a sample_member 1000);
   WGet "h" "lounge";
   WQueue 0 (EvSettle 0 primary_succeeds);
   WGet "g" "elsewhere"].

(** Two adds in quick succession, the second one finishing while the
    stream of the first is still being acquired; both acquisitions fail. *)
Definition overlapping_adds : list Event :=
  [EvAdd sample_resolver link_a sample_member 1000;
   EvAdd sample_resolver link_b sample_member 1001;
   EvSettle 0 everything_fails;
   EvSettle 0 everything_fails].

(** [playing_a], then a pause at time 4000. *)
Definition pause_after_start : list Event :=
  [EvAdd sample_resolver link_a sample_member 1000;
   EvSettle 0 primary_succeeds;
   EvPause 4000].

Definition paused_a : Runtime :=
  on_queue (fun q => snd (pause 4000 q)) playing_a.

(** [playing_a] with [link_b] queued behind the playing track. *)
Definition playing_a_then_b : Runtime :=
  on_queue (set_songs [Some (track_of link_a); Some (track_of link_b)]) playing_a.

(** A panel in use: a track is announced and its message is sent, the
    interval fires, and the refresh it starts fails. *)
Definition panel_traffic : list PanelEvent :=
  [PAnnounce true; PSettle 0 true; PTick true; PSettle 0 false].

(** A panel that shows a track: its message has been sent and the refresh
    interval is running. *)
Definition panel_showing : Panel :=
  {| nowPlayingMessage := Some 0%nat; nowPlayingInterval := Some 1%nat;
     timers := [1%nat]; editing := []; next_handle := 2 |}.

(** A first attempt to join that fails, and a second attempt. *)
Definition voice_traffic : list VoiceEvent :=
  [VConnect; VEntered false; VConnect].

(** * Properties *)

Section Properties.

Variable hostname : string -> option string.
Variable disablePlaydl : bool.
Variable env_MAX_PLAYLIST_LENGTH : option Z.

Local Abbreviation step' := (step hostname disablePlaydl env_MAX_PLAYLIST_LENGTH).
Local Abbreviation run' := (run hostname disablePlaydl env_MAX_PLAYLIST_LENGTH).
Local Abbreviation add' := (add hostname disablePlaydl env_MAX_PLAYLIST_LENGTH).
Local Abbreviation MAX := (MAX_PLAYLIST_LENGTH env_MAX_PLAYLIST_LENGTH).
Local Abbreviation playable' := (playable hostname).
Local Abbreviation add_shape' := (add_shape hostname).

(** ** remove *)

Lemma remove_rejects (q : GuildQueue) (index : Z) :
  index <= 0 \/ Z.of_nat (length (songs q)) <= index -> remove index q = (None, q).
Proof.
  intros H. unfold remove.
  destruct (index <=? 0) eqn:E1; [reflexivity|].
  destruct (index >=? Z.of_nat (length (songs q))) eqn:E2; [reflexivity|].
  lia.
Qed.

Lemma remove_accepts (q : GuildQueue) (index : Z) :
  1 <= index < Z.of_nat (length (songs q)) ->
  exists r, songs q !! Z.to_nat index = Some r /\
            remove index q = (Some r, set_songs (delete (Z.to_nat index) (songs q)) q).
Proof.
  intros H. unfold remove.
  destruct (index <=? 0) eqn:E1; [lia|].
  destruct (index >=? Z.of_nat (length (songs q))) eqn:E2; [lia|]. simpl.
  destruct (lookup_lt_is_Some_2 (songs q) (Z.to_nat index)) as [r Hr]; [lia|].
  exists r. rewrite Hr. split; reflexivity.
Qed.

(** C9: [remove(index)] with [index <= 0] or [index >= songs.length] returns
    null and leaves the queue as it is; for [1 <= index < songs.length] it
    returns the element at that position and removes exactly that element,
    so the head at index 0 is never removed. *)
Theorem remove_bounds (q : GuildQueue) (index : Z) :
  (index <= 0 \/ Z.of_nat (length (songs q)) <= index ->
     remove index q = (None, q)) /\
  (1 <= index < Z.of_nat (length (songs q)) ->
     exists r,
       songs q !! Z.to_nat index = Some r /\
       fst (remove index q) = Some r /\
       songs (snd (remove index q)) =
         take (Z.to_nat index) (songs q) ++ drop (S (Z.to_nat index)) (songs q) /\
       length (songs (snd (remove index q))) = (length (songs q) - 1)%nat /\
       head (songs (snd (remove index q))) = head (songs q) /\
       snd (remove index q) = set_songs (songs (snd (remove index q))) q).
Proof.
  split; [apply remove_rejects|].
  intros H. destruct (remove_accepts q index H) as (r & Hr & Hrm).
  exists r. rewrite Hrm. simpl. repeat split; try done.
  - apply delete_take_drop.
  - rewrite length_delete; [lia|]. eauto.
  - destruct (songs q) as [|s l]; [done|].
    destruct (Z.to_nat index) eqn:E; [lia|]. done.
Qed.

(** ** pause and resume *)

Lemma pause_true_inv (now : Z) (q : GuildQueue) :
  fst (pause now q) = true -> status (player q) = Playing.
Proof.
  unfold pause, player_pause. destruct (status (player q)); simpl; congruence.
Qed.






(** ** The shape of what [add] does to the runtime *)

Lemma same_but_calls_refl (rt : Runtime) : same_but_calls rt rt.
Proof. by repeat split. Qed.

Lemma list_playlist_frame (res : Resolver) (query : string) (rt : Runtime) :
  same_but_calls rt (snd (list_playlist env_MAX_PLAYLIST_LENGTH res query rt)).
Proof.
  unfold list_playlist.
  destruct (playlist_info res query); simpl; [by repeat split|].
  destruct (ytdlp_playlist res query); by repeat split.
Qed.

Lemma createTrack_playable (video : Video) (rb ft : string) (t : Track) :
  _createTrackFromPlaylistVideo hostname video rb ft = Some t -> playable' t.
Proof.
  unfold _createTrackFromPlaylistVideo, playable'.
  destruct (truthyS (ensureVideoUrl video)); simpl; [|discriminate].
  destruct (isYouTubeUrl hostname (ensureVideoUrl video)) eqn:E; simpl; [|discriminate].
  intros [= <-]. exact E.
Qed.

Lemma omap_createTrack_playable (rb ft : string) (collected : list Video) :
  Forall playable'
    (omap (fun video => _createTrackFromPlaylistVideo hostname video rb ft) collected).
Proof.
  induction collected as [|v l IH]; simpl; [constructor|].
  destruct (_createTrackFromPlaylistVideo hostname v rb ft) eqn:E; [|exact IH].
  constructor; [|exact IH]. eapply createTrack_playable; eauto.
Qed.

Lemma queueYouTubePlaylist_shape (res : Resolver) (query rb : string) (now : Z)
    (rt : Runtime) :
  add_shape' now rt
    (fst (_queueYouTubePlaylist hostname env_MAX_PLAYLIST_LENGTH res query rb now rt))
    (snd (_queueYouTubePlaylist hostname env_MAX_PLAYLIST_LENGTH res query rb now rt)).
Proof.
  unfold _queueYouTubePlaylist.
  pose proof (list_playlist_frame res query rt) as Hf.
  destruct (list_playlist env_MAX_PLAYLIST_LENGTH res query rt) as [[[collected ttl]|m] rt1];
    simpl in *; [|by constructor].
  destruct collected as [|v0 collected]; [by constructor|].
  pose proof (omap_createTrack_playable rb ttl (v0 :: collected)) as Hp.
  destruct (omap _ (v0 :: collected)) as [|t0 tracks] eqn:E; [by constructor|].
  simpl. apply add_shape_pushes; try done.
Qed.

Lemma add_has_shape (res : Resolver) (query : string) (member : Member) (now : Z)
    (rt : Runtime) :
  add_shape' now rt (fst (add' res query member now rt)) (snd (add' res query member now rt)).
Proof.
  unfold add.
  destruct (String.eqb query ""); [constructor; apply same_but_calls_refl|].
  destruct (resolve _ _ _ _ _ _ _) as [u ttl a0|r rt'|m rt'] eqn:R.
  - destruct (truthyS u) eqn:Tu; simpl; [|constructor; apply same_but_calls_refl].
    destruct (isYouTubeUrl hostname u) eqn:Yu; simpl;
      [|constructor; apply same_but_calls_refl].
    apply add_shape_pushes; try done.
    repeat constructor. exact Yu.
  - simpl. unfold resolve, first_match in R.
    repeat (case_match; try discriminate); simplify_eq.
    all: match goal with
    | H : _queueYouTubePlaylist _ _ ?a ?b ?c ?d ?e = _ |- _ =>
        pose proof (queueYouTubePlaylist_shape a b c d e) as Hs;
        rewrite H in Hs; exact Hs
    end.
  - simpl. constructor. unfold resolve, first_match in R.
    repeat (case_match; try discriminate); simplify_eq;
      try apply same_but_calls_refl.
    match goal with
    | H : _queueYouTubePlaylist _ _ ?a ?b ?c ?d ?e = _ |- _ =>
        pose proof (queueYouTubePlaylist_shape a b c d e) as Hs;
        rewrite H in Hs; simpl in Hs; inversion Hs; subst; try done
    end.
    exfalso.
    match goal with H : forall _, AddThrows _ <> AddThrows _ |- _ => by eapply H end.
Qed.

(** ** Elapsed time *)

Lemma getElapsedSeconds_nonneg (now : Z) (q : GuildQueue) :
  (0 <= getElapsedSeconds now q)%Q.
Proof.
  unfold getElapsedSeconds.
  destruct (currentStartMs q =? 0); [apply Qle_refl|].
  destruct (Qlt_le_dec _ 0); [apply Qle_refl|assumption].
Qed.

Lemma getElapsedSeconds_frozen (q : GuildQueue) (now1 now2 : Z) :
  paused q = true -> timing_inv q ->
  getElapsedSeconds now1 q = getElapsedSeconds now2 q.
Proof.
  intros Hp Hi. destruct (Hi Hp) as [Ht|H0]; unfold getElapsedSeconds.
  - rewrite Hp, Ht. reflexivity.
  - rewrite H0. reflexivity.
Qed.

Lemma begin_timing (now : Z) (rt : Runtime) :
  timing_inv (queue rt) -> timing_inv (queue (fst (_playCurrent_begin hostname now rt))).
Proof.
  unfold _playCurrent_begin, timing_inv.
  repeat case_match; simpl; try done.
Qed.

Lemma async_timing (now : Z) (rt : Runtime) :
  timing_inv (queue rt) -> timing_inv (queue (_playCurrent_async hostname now rt)).
Proof.
  intros H. apply (begin_timing now) in H. unfold _playCurrent_async.
  destruct (_playCurrent_begin hostname now rt) as [rt1 [c|]]; exact H.
Qed.

Lemma settle_timing (out : PlayOutcome) (current : Track) (rt : Runtime) :
  timing_inv (queue rt) ->
  timing_inv (queue (_playCurrent_settle disablePlaydl out current rt)).
Proof.
  unfold _playCurrent_settle, try_playdl, try_ytdlp, abandon_head, timing_inv.
  repeat case_match; simplify_eq; simpl; try done.
Qed.

Lemma add_timing (res : Resolver) (query : string) (member : Member) (now : Z)
    (rt : Runtime) :
  timing_inv (queue rt) -> timing_inv (queue (snd (add' res query member now rt))).
Proof.
  intros H. destruct (add_has_shape res query member now rt) as [m rt' Hs|r tracks rt1 _ _ _ Hs].
  - destruct Hs as [-> _]. exact H.
  - destruct Hs as [Hq _]. unfold play_if_idle.
    assert (timing_inv (queue (on_queue (push tracks) rt1))) as H1
      by (simpl; rewrite Hq; exact H).
    destruct (is_idle _); [by apply async_timing|exact H1].
Qed.

Lemma step_timing (e : Event) (rt rt' : Runtime) :
  clock_ok e -> step' e rt = Some rt' ->
  timing_inv (queue rt) -> timing_inv (queue rt').
Proof.
  intros Hc Hs Hi. destruct e; simpl in Hs, Hc.
  - injection Hs as <-. by apply add_timing.
  - destruct (awaiting rt !! i); [|discriminate]. injection Hs as <-.
    by apply settle_timing.
  - destruct (immediates rt) as [|[] cbs]; try discriminate;
      injection Hs as <-; by apply async_timing.
  - destruct (is_idle _); [discriminate|]. injection Hs as <-.
    unfold onIdle, timing_inv in *. repeat case_match; simpl in *; auto.
  - destruct (is_idle _); [discriminate|]. injection Hs as <-.
    unfold onError, timing_inv in *. repeat case_match; simpl in *; auto.
  - injection Hs as <-. unfold skip. by case_match.
  - injection Hs as <-. exact Hi.
  - injection Hs as <-. unfold pause, player_pause, pause_with, timing_inv in *.
    simpl. destruct (status (player (queue rt))); simpl; auto.
    destruct (paused (queue rt)) eqn:Ep; simpl; auto.
    intros _. left. destruct (now =? 0) eqn:E; [lia|done].
  - injection Hs as <-. unfold resume, player_unpause, resume_with, timing_inv in *.
    simpl. destruct (status (player (queue rt))); simpl; auto.
    destruct (truthyZ (pausedAtMs (queue rt))); simpl; discriminate.
  - injection Hs as <-. unfold remove, timing_inv in *.
    simpl. repeat case_match; simpl in *; auto.
  - injection Hs as <-. exact Hi.
Qed.

Lemma run_timing (events : list Event) (rt rt' : Runtime) :
  Forall clock_ok events -> run' events rt = Some rt' ->
  timing_inv (queue rt) -> timing_inv (queue rt').
Proof.
  revert rt. induction events as [|e events IH]; intros rt Hc Hr Hi; simpl in Hr.
  - by injection Hr as <-.
  - inversion Hc; subst. destruct (step' e rt) as [rt1|] eqn:E; [|discriminate].
    eapply IH; eauto using step_timing.
Qed.

Lemma progressRatio_bounds (elapsed : Q) (total : Z) (r : Q) :
  progressRatio elapsed total = Some r -> (0 <= r <= 1)%Q.
Proof.
  unfold progressRatio. destruct (total <=? 0); [discriminate|].
  intros [= <-]. split.
  - apply Q.min_glb; [discriminate|apply Q.le_max_l].
  - apply Q.le_min_l.
Qed.

(** C4, amended: [getElapsedSeconds()] is never negative; in every state
    the queue reaches with its clock after the epoch, the value does not
    move while the [paused] flag is set, and after a successful [pause()]
    it stays at what it was at the moment of the pause; nothing caps it by
    the track's duration, only the ratio of the progress bar is kept
    within 0 and 1. *)
Theorem elapsed_nonneg_and_frozen :
  (forall q now, (0 <= getElapsedSeconds now q)%Q) /\
  (forall g ch events rt now1 now2,
     Forall clock_ok events ->
     run' events (newRuntime g ch) = Some rt ->
     paused (queue rt) = true ->
     getElapsedSeconds now1 (queue rt) = getElapsedSeconds now2 (queue rt)) /\
  (forall q t now,
     0 < t -> paused q = false -> fst (pause t q) = true ->
     getElapsedSeconds now (snd (pause t q)) = getElapsedSeconds t q) /\
  (forall elapsed total r,
     progressRatio elapsed total = Some r -> (0 <= r <= 1)%Q).
Proof.
  split; [|split; [|split]].
  - intros; apply getElapsedSeconds_nonneg.
  - intros g ch events rt now1 now2 Hc Hr Hp.
    apply getElapsedSeconds_frozen; [exact Hp|].
    eapply run_timing; eauto. intros ?; discriminate.
  - intros q t now Ht Hp Hok. apply pause_true_inv in Hok.
    unfold pause, player_pause, pause_with, getElapsedSeconds.
    rewrite Hok. simpl. rewrite Hp. simpl.
    destruct (t =? 0) eqn:E; [lia|]. reflexivity.
  - apply progressRatio_bounds.
Qed.

(** ** The registry *)

Lemma begin_identity (now : Z) (rt : Runtime) :
  same_identity (queue rt) (queue (fst (_playCurrent_begin hostname now rt))).
Proof.
  unfold _playCurrent_begin, same_identity. repeat case_match; simpl; done.
Qed.

Lemma async_identity (now : Z) (rt : Runtime) :
  same_identity (queue rt) (queue (_playCurrent_async hostname now rt)).
Proof.
  pose proof (begin_identity now rt) as H. unfold _playCurrent_async.
  destruct (_playCurrent_begin hostname now rt) as [rt1 [c|]]; exact H.
Qed.

Lemma settle_identity (out : PlayOutcome) (current : Track) (rt : Runtime) :
  same_identity (queue rt) (queue (_playCurrent_settle disablePlaydl out current rt)).
Proof.
  unfold _playCurrent_settle, try_playdl, try_ytdlp, abandon_head, same_identity.
  repeat case_match; simplify_eq; simpl; done.
Qed.

Lemma add_identity (res : Resolver) (query : string) (member : Member) (now : Z)
    (rt : Runtime) :
  same_identity (queue rt) (queue (snd (add' res query member now rt))).
Proof.
  destruct (add_has_shape res query member now rt) as [m rt' Hs|r tracks rt1 _ _ _ Hs].
  - destruct Hs as [-> _]. done.
  - destruct Hs as [Hq _]. unfold play_if_idle.
    assert (same_identity (queue rt) (queue (on_queue (push tracks) rt1))) as H1
      by (simpl; rewrite Hq; done).
    destruct (is_idle _); [|exact H1].
    destruct H1 as [Hg Hc], (async_identity now (on_queue (push tracks) rt1)) as [Hg' Hc'].
    split; congruence.
Qed.

Lemma step_identity (e : Event) (rt rt' : Runtime) :
  step' e rt = Some rt' -> same_identity (queue rt) (queue rt').
Proof.
  intros Hs. destruct e; simpl in Hs.
  - injection Hs as <-. apply add_identity.
  - destruct (awaiting rt !! i); [|discriminate]. injection Hs as <-.
    exact (settle_identity out t (set_awaiting (delete i (awaiting rt)) rt)).
  - destruct (immediates rt) as [|[] cbs]; try discriminate; injection Hs as <-.
    + exact (async_identity now (on_queue (set_isTransitioning false) (set_immediates cbs rt))).
    + exact (async_identity now (set_immediates cbs rt)).
  - destruct (is_idle _); [discriminate|]. injection Hs as <-.
    unfold onIdle, same_identity. simpl. repeat case_match; simpl; done.
  - destruct (is_idle _); [discriminate|]. injection Hs as <-.
    unfold onError, same_identity. simpl. repeat case_match; simpl; done.
  - injection Hs as <-. unfold skip. by case_match.
  - by injection Hs as <-.
  - injection Hs as <-. unfold pause, player_pause, pause_with, same_identity.
    simpl. repeat case_match; simplify_eq; simpl; done.
  - injection Hs as <-. unfold resume, player_unpause, resume_with, same_identity.
    simpl. repeat case_match; simplify_eq; simpl; done.
  - injection Hs as <-. unfold remove, same_identity.
    simpl. repeat case_match; simpl; done.
  - by injection Hs as <-.
Qed.

Lemma get_registers (g ch : string) (w : World) :
  queues w !! g = None -> registered g ch (fst (get g ch w)) (snd (get g ch w)).
Proof.
  intros H. unfold get, registered. rewrite H. simpl. split.
  - apply lookup_insert_eq.
  - exists (newRuntime g ch). by rewrite lookup_insert_eq.
Qed.

Lemma world_step_registered (e : WorldEvent) (g ch : string) (q : nat) (w w' : World) :
  world_step hostname disablePlaydl env_MAX_PLAYLIST_LENGTH e w = Some w' ->
  registered g ch q w -> registered g ch q w'.
Proof.
  unfold registered.
  intros Hs [Hq (rt & Hh & Hg & Hc)]. destruct e as [g' ch'|q' ev]; simpl in Hs.
  - injection Hs as <-. unfold get.
    destruct (queues w !! g') as [q1|] eqn:E; simpl; [by split; eauto|].
    assert (g' <> g) by congruence.
    assert (fresh (dom (heap w)) <> q) as Hne.
    { intros <-. apply (is_fresh (dom (heap w))). apply elem_of_dom. eauto. }
    split; [by rewrite lookup_insert_ne|].
    exists rt. by rewrite lookup_insert_ne.
  - destruct (heap w !! q') as [rt0|] eqn:E; [|discriminate].
    destruct (step' ev rt0) as [rt1|] eqn:Es; [|discriminate].
    injection Hs as <-. split; [exact Hq|]. simpl.
    destruct (decide (q' = q)) as [->|Hne].
    + exists rt1. rewrite lookup_insert_eq. split; [done|].
      apply step_identity in Es as [Hg' Hc']. simplify_eq. by rewrite Hg', Hc'.
    + exists rt. by rewrite lookup_insert_ne.
Qed.

Lemma world_run_registered (events : list WorldEvent) (g ch : string) (q : nat)
    (w w' : World) :
  world_run hostname disablePlaydl env_MAX_PLAYLIST_LENGTH events w = Some w' ->
  registered g ch q w -> registered g ch q w'.
Proof.
  revert w. induction events as [|e events IH]; intros w Hr Hreg; simpl in Hr.
  - by injection Hr as <-.
  - destruct (world_step _ _ _ e w) as [w1|] eqn:E; [|discriminate].
    eauto using world_step_registered.
Qed.

(** C10: once [get(guildId, textChannel)] has made the queue of a guild,
    every later [get] for that guild, whatever channel it is given and
    whatever has happened to the registry and its queues in between,
    returns that same instance and changes nothing; the instance still
    carries the channel it was made with. *)
Theorem get_returns_first_instance
    (w0 w : World) (g ch1 ch2 : string) (between : list WorldEvent) :
  queues w0 !! g = None ->
  world_run hostname disablePlaydl env_MAX_PLAYLIST_LENGTH between (snd (get g ch1 w0))
    = Some w ->
  get g ch2 w = (fst (get g ch1 w0), w) /\
  exists rt, heap w !! fst (get g ch1 w0) = Some rt /\
             guildId (queue rt) = g /\ textChannel (queue rt) = ch1.
Proof.
  intros Hnew Hrun.
  pose proof (world_run_registered _ _ _ _ _ _ Hrun (get_registers g ch1 w0 Hnew))
    as [Hq Hrt].
  split; [|exact Hrt]. unfold get at 1. by rewrite Hq.
Qed.

(** ** Playlist expansion *)

Lemma MAX_PLAYLIST_LENGTH_pos : 1 <= MAX.
Proof. unfold MAX_PLAYLIST_LENGTH. lia. Qed.

Lemma collect_page_bound (page collected : list Video) :
  Z.of_nat (length collected) < MAX ->
  Z.of_nat (length (collect_page env_MAX_PLAYLIST_LENGTH page collected)) <= MAX.
Proof.
  revert collected. induction page as [|v page IH]; intros collected H; simpl; [lia|].
  destruct (Z.of_nat (length (collected ++ [v])) >=? MAX) eqn:E.
  - rewrite length_app in *. simpl in *. lia.
  - apply IH. lia.
Qed.

Lemma collect_pages_bound (pages : list (list Video)) (collected : list Video) :
  Z.of_nat (length collected) < MAX ->
  Z.of_nat (length (collect_pages env_MAX_PLAYLIST_LENGTH pages collected)) <= MAX.
Proof.
  revert collected. induction pages as [|p pages IH]; intros collected H; simpl; [lia|].
  pose proof (collect_page_bound p collected H).
  destruct (Z.of_nat (length (collect_page _ p collected)) >=? MAX) eqn:E; [lia|].
  apply IH. lia.
Qed.

Lemma collect_playdl_bound (pl : Playlist) :
  Z.of_nat (length (collect_playdl env_MAX_PLAYLIST_LENGTH pl)) <= MAX.
Proof.
  pose proof MAX_PLAYLIST_LENGTH_pos as Hm.
  assert (forall vs : list Video, Z.of_nat (length (take (Z.to_nat MAX) vs)) <= MAX) as Ht
    by (intros vs; rewrite length_take; lia).
  unfold collect_playdl. destruct (fetched_videos pl) as [pages|].
  - pose proof (collect_pages_bound pages []) as Hb. simpl in Hb.
    destruct (collect_pages _ pages []) as [|v c] eqn:E.
    + destruct (videos pl); [apply Ht|simpl; lia].
    + apply Hb. lia.
  - destruct (videos pl); [apply Ht|simpl; lia].
Qed.

Lemma omap_length_le {A B} (f : A -> option B) (l : list A) :
  (length (omap f l) <= length l)%nat.
Proof.
  induction l as [|x l IH]; [done|]. csimpl. destruct (f x); simpl; lia.
Qed.

Lemma collect_ytdlp_bound (data : YtPlaylist) :
  Z.of_nat (length (collect_ytdlp env_MAX_PLAYLIST_LENGTH data)) <= MAX.
Proof.
  pose proof MAX_PLAYLIST_LENGTH_pos as Hm. unfold collect_ytdlp.
  etransitivity; [apply inj_le, omap_length_le|]. rewrite length_take. lia.
Qed.

Lemma listed_bound (res : Resolver) (query : string) (rt : Runtime) :
  Z.of_nat (length (listed env_MAX_PLAYLIST_LENGTH res query rt)) <= MAX.
Proof.
  pose proof MAX_PLAYLIST_LENGTH_pos as Hm. unfold listed, list_playlist.
  destruct (playlist_info res query); simpl; [apply collect_playdl_bound|].
  destruct (ytdlp_playlist res query); simpl; [apply collect_ytdlp_bound|lia].
Qed.

Lemma createTrack_url (video : Video) (rb ft : string) :
  url <$> _createTrackFromPlaylistVideo hostname video rb ft =
  if isYouTubeUrl hostname (ensureVideoUrl video) then Some (ensureVideoUrl video) else None.
Proof.
  unfold _createTrackFromPlaylistVideo.
  destruct (isYouTubeUrl hostname (ensureVideoUrl video)) eqn:E.
  - assert (truthyS (ensureVideoUrl video) = true) as ->; [|done].
    unfold isYouTubeUrl in E. unfold truthyS.
    destruct (ensureVideoUrl video) as [u|]; [|done].
    by destruct (String.eqb u "").
  - by rewrite orb_true_r.
Qed.

(** The tracks made from the listed videos are those videos whose link is
    a playable one, in their order. *)
Lemma created_tracks_urls (rb ft : string) (collected : list Video) :
  url <$> omap (fun v => _createTrackFromPlaylistVideo hostname v rb ft) collected =
  filter (fun u => isYouTubeUrl hostname u = true) (ensureVideoUrl <$> collected).
Proof.
  induction collected as [|v l IH]; [done|]. csimpl.
  pose proof (createTrack_url v rb ft) as Hu.
  rewrite filter_cons.
  destruct (_createTrackFromPlaylistVideo hostname v rb ft) as [t|] eqn:E; csimpl in *.
  - destruct (isYouTubeUrl hostname (ensureVideoUrl v)) eqn:Ey; [|discriminate].
    injection Hu as Hu. rewrite decide_True by done. by rewrite IH, Hu.
  - destruct (isYouTubeUrl hostname (ensureVideoUrl v)) eqn:Ey; [discriminate|].
    rewrite decide_False by discriminate. exact IH.
Qed.

Lemma list_playlist_calls (res : Resolver) (query : string) (rt : Runtime) :
  calls (snd (list_playlist env_MAX_PLAYLIST_LENGTH res query rt)) =
  calls rt ++ CallPlaylistInfo query ::
    (if rejects (playlist_info res query) then [CallYtdlpPlaylist query] else []).
Proof.
  unfold list_playlist. destruct (playlist_info res query); simpl; [done|].
  destruct (ytdlp_playlist res query); simpl; by rewrite <- app_assoc.
Qed.

Lemma begin_keeps_valid_head (now : Z) (rt : Runtime) :
  Forall (slot_ok hostname) (songs (queue rt)) ->
  let rt' := fst (_playCurrent_begin hostname now rt) in
  songs (queue rt') = songs (queue rt) /\ calls rt' = calls rt /\ sent rt' = sent rt
  /\ immediates rt' = immediates rt /\ started rt' = started rt.
Proof.
  intros H. unfold _playCurrent_begin.
  destruct (songs (queue rt)) as [|[t|] l] eqn:E; simpl; rewrite ?E; try done.
  inversion H as [|? ? Ht _]; subst. unfold slot_ok, playable in Ht.
  assert (truthyS (url t) = true) as ->.
  { unfold isYouTubeUrl in Ht. unfold truthyS. destruct (url t) as [u|]; [|done].
    by destruct (String.eqb u ""). }
  rewrite Ht. simpl. by rewrite E.
Qed.

Lemma play_if_idle_keeps_valid (now : Z) (rt : Runtime) :
  Forall (slot_ok hostname) (songs (queue rt)) ->
  let rt' := play_if_idle hostname now rt in
  songs (queue rt') = songs (queue rt) /\ calls rt' = calls rt /\ sent rt' = sent rt
  /\ immediates rt' = immediates rt /\ started rt' = started rt.
Proof.
  intros H. unfold play_if_idle. destruct (is_idle _); [|done].
  pose proof (begin_keeps_valid_head now rt H) as Hb. unfold _playCurrent_async.
  destruct (_playCurrent_begin hostname now rt) as [rt1 [c|]]; exact Hb.
Qed.

Lemma add_playlist_link (res : Resolver) (query : string) (member : Member)
    (now : Z) (rt : Runtime) :
  youtube_playlist_link hostname query ->
  add' res query member now rt =
  match _queueYouTubePlaylist hostname env_MAX_PLAYLIST_LENGTH res query
          (requester member) now rt with
  | (AddThrows message, rt') => (AddThrows ("Search failed: " +:+ message), rt')
  | other => other
  end.
Proof.
  intros (Hne & Hsp & Hh & Hy & Hl). unfold add, resolve.
  apply String.eqb_neq in Hne. rewrite Hne, Hsp, Hh, Hy, Hl. simpl.
  destruct (_queueYouTubePlaylist _ _ _ _ _ _ _) as [[] rt']; reflexivity.
Qed.

Lemma queueYouTubePlaylist_spec (res : Resolver) (query rb : string) (now : Z)
    (rt : Runtime) :
  let rt1 := snd (list_playlist env_MAX_PLAYLIST_LENGTH res query rt) in
  let ttl := listed_title env_MAX_PLAYLIST_LENGTH res query rt in
  let tracks := omap (fun v => _createTrackFromPlaylistVideo hostname v rb ttl)
                  (listed env_MAX_PLAYLIST_LENGTH res query rt) in
  _queueYouTubePlaylist hostname env_MAX_PLAYLIST_LENGTH res query rb now rt =
  match tracks with
  | [] => (fst (_queueYouTubePlaylist hostname env_MAX_PLAYLIST_LENGTH res query rb now rt),
           rt1)
  | first :: _ => (AddedPlaylist ttl (length tracks) (Some first),
                   play_if_idle hostname now (on_queue (push tracks) rt1))
  end /\
  (tracks = [] ->
   throws (fst (_queueYouTubePlaylist hostname env_MAX_PLAYLIST_LENGTH res query rb now rt))
   = true).
Proof.
  unfold _queueYouTubePlaylist, listed, listed_title.
  destruct (list_playlist env_MAX_PLAYLIST_LENGTH res query rt)
    as [[[collected ttl]|m] rt1]; simpl; [|done].
  destruct collected as [|v0 collected]; [done|].
  destruct (omap _ (v0 :: collected)) as [|t0 tracks]; done.
Qed.

Lemma playlist_add_over_listed
    (res : Resolver) (query : string) (member : Member) (now : Z) (rt : Runtime) :
  youtube_playlist_link hostname query ->
  Forall (slot_ok hostname) (songs (queue rt)) ->
  let r := fst (add' res query member now rt) in
  let rt' := snd (add' res query member now rt) in
  let collected := listed env_MAX_PLAYLIST_LENGTH res query rt in
  let ttl := listed_title env_MAX_PLAYLIST_LENGTH res query rt in
  let tracks :=
    omap (fun v => _createTrackFromPlaylistVideo hostname v (requester member) ttl)
         collected in
  Z.of_nat (length tracks) <= MAX /\
  url <$> tracks =
    filter (fun u => isYouTubeUrl hostname u = true) (ensureVideoUrl <$> collected) /\
  (tracks <> [] ->
     r = AddedPlaylist ttl (length tracks) (head tracks) /\
     songs (queue rt') = songs (queue rt) ++ (Some <$> tracks)) /\
  (tracks = [] -> throws r = true /\ queue rt' = queue rt) /\
  (throws r = true -> tracks = []) /\
  calls rt' = calls rt ++ CallPlaylistInfo query ::
                (if rejects (playlist_info res query) then [CallYtdlpPlaylist query]
                 else []).
Proof.
  intros Hlink Hok r rt' collected ttl tracks.
  pose proof (queueYouTubePlaylist_spec res query (requester member) now rt)
    as [Hq Hthrow].
  pose proof (list_playlist_frame res query rt) as (Hfq & Hfs & Hfi & Hfa & Hfst).
  pose proof (list_playlist_calls res query rt) as Hcalls.
  pose proof (omap_createTrack_playable (requester member) ttl collected) as Hplayable.
  fold collected ttl tracks in Hq, Hthrow, Hplayable.
  assert (Forall (slot_ok hostname)
            (songs (queue (on_queue (push tracks)
               (snd (list_playlist env_MAX_PLAYLIST_LENGTH res query rt)))))) as Hok'.
  { simpl. rewrite Hfq. apply Forall_app. split; [exact Hok|].
    apply Forall_fmap. eapply Forall_impl; [exact Hplayable|]. done. }
  pose proof (play_if_idle_keeps_valid now _ Hok') as (Hs & Hc & _).
  subst r rt'. rewrite (add_playlist_link _ _ _ _ _ Hlink), Hq.
  split; [|split; [|split; [|split; [|split]]]].
  - etransitivity; [apply inj_le, omap_length_le|]. apply listed_bound.
  - apply created_tracks_urls.
  - intros Hne. destruct tracks as [|t0 tl] eqn:Et; [done|]. simpl. split; [done|].
    rewrite Hs. simpl. by rewrite Hfq.
  - intros ->. specialize (Hthrow eq_refl).
    destruct (fst (_queueYouTubePlaylist _ _ _ _ _ _ _)); try discriminate.
    simpl. split; [done|exact Hfq].
  - destruct tracks as [|t0 tl]; [done|]. simpl. discriminate.
  - destruct tracks as [|t0 tl].
    + destruct (fst (_queueYouTubePlaylist _ _ _ _ _ _ _)); simpl; exact Hcalls.
    + simpl. rewrite Hc. simpl. exact Hcalls.
Qed.

Lemma collect_page_take (page collected : list Video) :
  Z.of_nat (length collected) < MAX_PLAYLIST_LENGTH env_MAX_PLAYLIST_LENGTH ->
  collect_page env_MAX_PLAYLIST_LENGTH page collected
  = collected ++ take (Z.to_nat (MAX_PLAYLIST_LENGTH env_MAX_PLAYLIST_LENGTH)
                       - length collected) page.
Proof.
  set (M := MAX_PLAYLIST_LENGTH env_MAX_PLAYLIST_LENGTH).
  revert collected. induction page as [|v page IH]; intros collected H.
  - by rewrite take_nil, app_nil_r.
  - cbn [collect_page]. fold M.
    destruct (Z.of_nat (length (collected ++ [v])) >=? M) eqn:E;
      rewrite length_app, Z.geb_leb in E; simpl in E;
      [apply Z.leb_le in E|apply Z.leb_gt in E].
    + replace (Z.to_nat M - length collected)%nat with 1%nat by lia.
      by rewrite firstn_cons, take_0.
    + rewrite IH by (rewrite length_app; simpl; lia).
      rewrite length_app. simpl.
      replace (Z.to_nat M - length collected)%nat
        with (S (Z.to_nat M - (length collected + 1)))%nat by lia.
      by rewrite firstn_cons, <- app_assoc.
Qed.

Lemma collect_pages_take (pages : list (list Video)) (collected : list Video) :
  Z.of_nat (length collected) < MAX_PLAYLIST_LENGTH env_MAX_PLAYLIST_LENGTH ->
  collect_pages env_MAX_PLAYLIST_LENGTH pages collected
  = collected ++ take (Z.to_nat (MAX_PLAYLIST_LENGTH env_MAX_PLAYLIST_LENGTH)
                       - length collected) (concat pages).
Proof.
  set (M := MAX_PLAYLIST_LENGTH env_MAX_PLAYLIST_LENGTH).
  revert collected. induction pages as [|p pages IH]; intros collected H.
  - simpl. by rewrite take_nil, app_nil_r.
  - cbn [collect_pages concat]. fold M. rewrite (collect_page_take p collected H). fold M.
    rewrite take_app.
    destruct (Z.of_nat (length (collected ++ take (Z.to_nat M - length collected) p))
              >=? M) eqn:E; rewrite length_app, length_take, Z.geb_leb in E;
      [apply Z.leb_le in E|apply Z.leb_gt in E].
    + replace (Z.to_nat M - length collected - length p)%nat with 0%nat by lia.
      by rewrite take_0, app_nil_r.
    + rewrite IH by (rewrite length_app, length_take; lia).
      rewrite length_app, length_take, <- app_assoc. do 2 f_equal.
      f_equal. lia.
Qed.

Lemma filter_none {A} (P : A -> Prop) `{forall x, Decision (P x)} (l : list A) :
  (forall x, x ∈ l -> ~ P x) -> filter P l = [].
Proof.
  induction l as [|x l IH]; intros Hn; [done|].
  rewrite filter_cons, decide_False by (apply Hn; left).
  apply IH. intros y Hy. apply Hn. by right.
Qed.

Lemma collect_playdl_take (pl : Playlist) :
  collect_playdl env_MAX_PLAYLIST_LENGTH pl
  = take (Z.to_nat MAX)
      (match concat (default [] (fetched_videos pl)) with
       | [] => default [] (videos pl)
       | fetched => fetched
       end).
Proof.
  pose proof MAX_PLAYLIST_LENGTH_pos as Hm.
  unfold collect_playdl.
  assert (forall pages, collect_pages env_MAX_PLAYLIST_LENGTH pages []
                        = take (Z.to_nat MAX) (concat pages)) as Hc.
  { intros pages. rewrite collect_pages_take by (simpl; lia).
    simpl. by rewrite Nat.sub_0_r. }
  destruct (fetched_videos pl) as [pages|]; simpl.
  - rewrite Hc. destruct (concat pages) as [|v vs] eqn:E.
    + rewrite take_nil. destruct (videos pl); simpl; by rewrite ?take_nil.
    + destruct (Z.to_nat MAX) as [|m] eqn:Em; [lia|]. reflexivity.
  - destruct (videos pl); simpl; by rewrite ?take_nil.
Qed.

Lemma collect_ytdlp_filter (data : YtPlaylist) :
  collect_ytdlp env_MAX_PLAYLIST_LENGTH data
  = video_of_entry <$>
      filter (fun e => truthyS (e_id e) = true)
        (omap id (take (Z.to_nat MAX) (default [] (entries data)))).
Proof.
  unfold collect_ytdlp. induction (take _ _) as [|[e|] l IH]; [done| |exact IH].
  csimpl. rewrite filter_cons. destruct (truthyS (e_id e)) eqn:E.
  - rewrite decide_True by done. csimpl. by rewrite IH.
  - rewrite decide_False by discriminate. exact IH.
Qed.

Lemma listed_decisive (res : Resolver) (query : string) (rt : Runtime) :
  listed env_MAX_PLAYLIST_LENGTH res query rt
  = decisive_listing env_MAX_PLAYLIST_LENGTH res query /\
  listed_title env_MAX_PLAYLIST_LENGTH res query rt = decisive_title res query.
Proof.
  unfold listed, listed_title, list_playlist, decisive_listing, decisive_title.
  destruct (playlist_info res query) as [pl|m]; simpl.
  - split; [apply collect_playdl_take|done].
  - destruct (ytdlp_playlist res query) as [data|m']; simpl; [|done].
    split; [apply collect_ytdlp_filter|done].
Qed.

(** C6, amended: a playlist add appends at most MAX_PLAYLIST_LENGTH tracks,
    namely the videos of the deciding listing that have a playable link,
    in their order, and the summary's count is the number appended.  The
    deciding listing is play-dl's whenever play-dl's [playlist_info]
    resolves, and then yt-dlp is not asked; it is yt-dlp's only when
    play-dl's call has failed, and then every entry with an id and a
    playable link among the first MAX_PLAYLIST_LENGTH is appended.  The
    add fails exactly when the deciding listing holds no playable video, so
    also after play-dl alone when play-dl answers with nothing playable;
    the queue is then as before. *)
Theorem playlist_add_bounded
    (res : Resolver) (query : string) (member : Member) (now : Z) (rt : Runtime) :
  youtube_playlist_link hostname query ->
  Forall (slot_ok hostname) (songs (queue rt)) ->
  let r := fst (add' res query member now rt) in
  let rt' := snd (add' res query member now rt) in
  let ttl := decisive_title res query in
  let tracks :=
    omap (fun v => _createTrackFromPlaylistVideo hostname v (requester member) ttl)
         (decisive_listing env_MAX_PLAYLIST_LENGTH res query) in
  Z.of_nat (length tracks) <= MAX /\
  Forall playable' tracks /\
  url <$> tracks =
    filter (fun u => isYouTubeUrl hostname u = true)
           (ensureVideoUrl <$> decisive_listing env_MAX_PLAYLIST_LENGTH res query) /\
  (tracks <> [] ->
     r = AddedPlaylist ttl (length tracks) (head tracks) /\
     songs (queue rt') = songs (queue rt) ++ (Some <$> tracks)) /\
  (tracks = [] -> throws r = true /\ queue rt' = queue rt) /\
  (throws r = true -> tracks = []) /\
  calls rt' = calls rt ++ CallPlaylistInfo query ::
                (if rejects (playlist_info res query) then [CallYtdlpPlaylist query]
                 else []) /\
  (forall message data e,
     playlist_info res query = Rejects message ->
     ytdlp_playlist res query = Resolves data ->
     Some e ∈ take (Z.to_nat MAX) (default [] (entries data)) ->
     truthyS (e_id e) = true ->
     isYouTubeUrl hostname (watch_link e) = true ->
     throws r = false /\ watch_link e ∈ url <$> tracks) /\
  (forall pl,
     playlist_info res query = Resolves pl ->
     (forall v, v ∈ decisive_listing env_MAX_PLAYLIST_LENGTH res query ->
                isYouTubeUrl hostname (ensureVideoUrl v) = false) ->
     throws r = true /\ CallYtdlpPlaylist query ∉ drop (length (calls rt)) (calls rt')).
Proof.
  intros Hlink Hok r rt' ttl tracks.
  destruct (listed_decisive res query rt) as [Hl Ht].
  pose proof (playlist_add_over_listed res query member now rt Hlink Hok) as H.
  cbv zeta in H. rewrite Hl, Ht in H. fold ttl tracks r rt' in H.
  destruct H as (Hlen & Hurl & Hadd & Hnil & Hthrow & Hcalls).
  assert (Forall playable' tracks) as Hplay
    by apply (omap_createTrack_playable (requester member) ttl).
  split; [exact Hlen|]. split; [exact Hplay|]. split; [exact Hurl|].
  split; [exact Hadd|]. split; [exact Hnil|]. split; [exact Hthrow|].
  split; [exact Hcalls|]. split.
  - intros message data e Hp Hy Hin Hid Hyt.
    assert (watch_link e ∈ url <$> tracks) as Hin'.
    { rewrite Hurl. apply list_elem_of_filter. split; [exact Hyt|].
      apply list_elem_of_fmap. exists (video_of_entry e). split.
      - unfold ensureVideoUrl, watch_link, video_of_entry. simpl. by rewrite Hid.
      - unfold decisive_listing. rewrite Hp, Hy. apply list_elem_of_fmap_2.
        apply list_elem_of_filter. split; [exact Hid|].
        apply list_elem_of_omap. exists (Some e). by split. }
    split; [|exact Hin'].
    destruct (throws r) eqn:E; [|done].
    rewrite (Hthrow eq_refl) in Hin'. by apply elem_of_nil in Hin'.
  - intros pl Hp Hnone.
    assert (tracks = []) as Hempty.
    { apply (f_equal length) in Hurl. rewrite length_fmap in Hurl.
      assert (filter (fun u => isYouTubeUrl hostname u = true)
                (ensureVideoUrl <$> decisive_listing env_MAX_PLAYLIST_LENGTH res query)
              = []) as Hf.
      { apply filter_none. intros u Hu. apply list_elem_of_fmap in Hu as (v & -> & Hv).
        rewrite (Hnone v Hv). discriminate. }
      rewrite Hf in Hurl. by destruct tracks. }
    split; [by apply Hnil|].
    rewrite Hcalls, drop_app_length, Hp. simpl.
    intros Hin. apply elem_of_cons in Hin as [Hin|Hin]; [discriminate|].
    by apply elem_of_nil in Hin.
Qed.

(** ** add *)

Lemma add_throws_frame (res : Resolver) (query : string) (member : Member)
    (now : Z) (rt : Runtime) :
  throws (fst (add' res query member now rt)) = true ->
  same_but_calls rt (snd (add' res query member now rt)).
Proof.
  intros H.
  destruct (add_has_shape res query member now rt) as [m rt' Hs|r tracks rt1 Hr _ _ _];
    [exact Hs|].
  destruct r; try discriminate. by destruct (Hr message).
Qed.

Lemma queueYouTubePlaylist_metadata (res res' : Resolver) (query rb : string)
    (now : Z) (rt : Runtime) :
  same_but_metadata res res' ->
  _queueYouTubePlaylist hostname env_MAX_PLAYLIST_LENGTH res query rb now rt =
  _queueYouTubePlaylist hostname env_MAX_PLAYLIST_LENGTH res' query rb now rt.
Proof.
  intros (_ & _ & Hp & Hy). unfold _queueYouTubePlaylist, list_playlist.
  by rewrite Hp, Hy.
Qed.

Lemma add_throws_metadata (res res' : Resolver) (query : string) (member : Member)
    (now : Z) (rt : Runtime) :
  same_but_metadata res res' ->
  throws (fst (add' res query member now rt)) = throws (fst (add' res' query member now rt)).
Proof.
  intros Hsame. pose proof Hsame as (Hsp & Hse & _ & _). unfold add.
  destruct (String.eqb query ""); [done|].
  unfold resolve, first_match. rewrite Hsp, Hse.
  rewrite (queueYouTubePlaylist_metadata res res' _ _ _ _ Hsame).
  destruct (is_spotify_link query).
  { repeat case_match; simplify_eq; done. }
  destruct (is_http_link query).
  2: { repeat case_match; simplify_eq; done. }
  destruct (negb (isYouTubeUrl hostname (Some query))) eqn:Ey; [done|].
  destruct (has_list_marker query); [by repeat case_match|].
  apply negb_false_iff in Ey.
  assert (truthyS (Some query) = true) as Ht.
  { unfold isYouTubeUrl in Ey. simpl. by destruct (String.eqb query ""). }
  destruct (video_basic_info res query), (video_basic_info res' query);
    rewrite Ht, Ey; done.
Qed.

Lemma enrich_rejected (res : Resolver) (u : string) (artist0 : option string) :
  rejects (video_basic_info res u) = true -> rejects (ytdlp_json res u) = true ->
  enrich disablePlaydl res u artist0 =
  {| m_duration := None; m_thumbnail := None; m_artist := artist0 |}.
Proof.
  unfold enrich.
  destruct (video_basic_info res u); [discriminate|].
  destruct (ytdlp_json res u); [discriminate|].
  by destruct disablePlaydl.
Qed.

(** C7: whenever [add] throws, the queue, the notices, the scheduled and
    suspended work and the playback starts are what they were, so no track
    is appended and nothing starts playing; each of the named resolution
    failures makes it throw; and what the metadata lookups answer never
    decides whether [add] throws, a rejected lookup leaving duration and
    thumbnail null. *)
Theorem add_failure_leaves_queue :
  (forall res query member now rt,
     throws (fst (add' res query member now rt)) = true ->
     same_but_calls rt (snd (add' res query member now rt))
     /\ songs (queue (snd (add' res query member now rt))) = songs (queue rt)) /\
  (forall res query member now rt,
     query <> "" -> is_spotify_link query = false -> is_http_link query = true ->
     isYouTubeUrl hostname (Some query) = false ->
     fst (add' res query member now rt)
     = AddThrows "Search failed: Only YouTube URLs supported") /\
  (forall res query member now rt,
     query <> "" -> is_spotify_link query = false -> is_http_link query = false ->
     search res query = Resolves [] ->
     fst (add' res query member now rt) = AddThrows "Search failed: No search results") /\
  (forall res query member now rt,
     query <> "" -> is_spotify_link query = true ->
     spotify res query = Resolves SpOther ->
     fst (add' res query member now rt)
     = AddThrows "Search failed: Unsupported Spotify resource") /\
  (forall res query member now rt,
     query <> "" -> is_spotify_link query = true ->
     spotify res query = Resolves (SpPlaylist []) ->
     fst (add' res query member now rt)
     = AddThrows "Search failed: Empty Spotify playlist") /\
  (forall res query member now rt u t a,
     query <> "" ->
     resolve hostname env_MAX_PLAYLIST_LENGTH res query (requester member) now rt
     = Single u t a ->
     isYouTubeUrl hostname u = false ->
     fst (add' res query member now rt) = AddThrows "Unplayable URL") /\
  (forall res res' query member now rt,
     same_but_metadata res res' ->
     throws (fst (add' res query member now rt))
     = throws (fst (add' res' query member now rt))) /\
  (forall res u artist0,
     rejects (video_basic_info res u) = true -> rejects (ytdlp_json res u) = true ->
     enrich disablePlaydl res u artist0
     = {| m_duration := None; m_thumbnail := None; m_artist := artist0 |}).
Proof.
  repeat apply conj.
  - intros res query member now rt H.
    pose proof (add_throws_frame _ _ _ _ _ H) as Hf. split; [exact Hf|].
    destruct Hf as [-> _]. done.
  - intros res query member now rt Hne Hsp Hh Hy. unfold add, resolve.
    apply String.eqb_neq in Hne. by rewrite Hne, Hsp, Hh, Hy.
  - intros res query member now rt Hne Hsp Hh Hs. unfold add, resolve.
    apply String.eqb_neq in Hne. by rewrite Hne, Hsp, Hh, Hs.
  - intros res query member now rt Hne Hsp Hs. unfold add, resolve.
    apply String.eqb_neq in Hne. by rewrite Hne, Hsp, Hs.
  - intros res query member now rt Hne Hsp Hs. unfold add, resolve.
    apply String.eqb_neq in Hne. by rewrite Hne, Hsp, Hs.
  - intros res query member now rt u t a Hne Hr Hy. unfold add.
    apply String.eqb_neq in Hne. rewrite Hne, Hr, Hy. simpl. by rewrite orb_true_r.
  - intros; by apply add_throws_metadata.
  - apply enrich_rejected.
Qed.

(** ** Playback fallback *)

Lemma playable_truthy (t : Track) : playable' t -> truthyS (url t) = true.
Proof.
  unfold playable, isYouTubeUrl, truthyS.
  destruct (url t) as [u|]; [|done]. by destruct (String.eqb u "").
Qed.

Lemma playCurrent_valid_head (now : Z) (out : PlayOutcome) (rt : Runtime)
    (current : Track) (rest : list Slot) :
  songs (queue rt) = Some current :: rest -> playable' current ->
  _playCurrent hostname disablePlaydl now out rt =
  _playCurrent_settle disablePlaydl out current
    (on_queue (fun q =>
       set_isTransitioning false
         (set_paused false
            (set_accumulatedPauseMs 0
               (set_pausedAtMs None (set_currentStartMs now q))))) rt).
Proof.
  intros Hs Hp. unfold _playCurrent, _playCurrent_begin.
  rewrite Hs, (playable_truthy _ Hp), Hp. reflexivity.
Qed.

Ltac pick_sublist :=
  repeat first [apply sublist_nil | apply sublist_skip | apply sublist_cons].

Ltac distinct_calls :=
  repeat (apply NoDup_cons_2;
          [rewrite ?elem_of_cons, elem_of_nil; intuition discriminate|]);
  apply NoDup_nil_2.

(** C2, amended: for a head track with a valid link, one run of
    [_playCurrent] calls the libraries in the fixed order play-dl stream,
    play-dl info then stream, yt-dlp then ffmpeg, each call at most once,
    starting with play-dl unless the flag DISABLE_PLAYDL / NO_PLAYDL is
    set, in which case only yt-dlp and ffmpeg are tried, and it stops at
    the first strategy that succeeds: the calls made are exactly those of
    the strategies in order up to and including the first success.  The
    failure notice is sent exactly when every strategy that was tried has
    failed; that run then removes the head and nothing else, starts
    nothing, and schedules [_playCurrent] for the new head when there is
    one.  Otherwise the head stays and is the track handed to the
    transport. *)
Theorem playback_fallback_order
    (now : Z) (out : PlayOutcome) (rt : Runtime) (current : Track) (rest : list Slot) :
  songs (queue rt) = Some current :: rest ->
  playable' current ->
  let rt' := _playCurrent hostname disablePlaydl now out rt in
  let u := default "" (url current) in
  exists made,
    calls rt' = calls rt ++ made /\
    made = until_first_success (strategies disablePlaydl out u) /\
    NoDup made /\
    sublist made (strategy_calls u (default "" (ytdlp_direct out))) /\
    head made = Some (if disablePlaydl then CallYtdlp u else CallPlaydlStream u) /\
    (primary_ok out = true -> disablePlaydl = false -> made = [CallPlaydlStream u]) /\
    (primary_ok out = false -> info_ok out = true -> disablePlaydl = false ->
       made = [CallPlaydlStream u; CallVideoBasicInfo u; CallStreamFromInfo u]) /\
    if all_tried_failed disablePlaydl out then
      In (CallYtdlp u) made /\
      (disablePlaydl = false ->
         In (CallPlaydlStream u) made /\ In (CallVideoBasicInfo u) made) /\
      sent rt' = sent rt ++ [msg_all_failed] /\
      songs (queue rt') = rest /\
      started rt' = started rt /\
      player (queue rt') = player (queue rt) /\
      immediates rt' = immediates rt ++ match rest with [] => [] | _ :: _ => [CbPlay] end
    else
      sent rt' = sent rt /\
      songs (queue rt') = Some current :: rest /\
      started rt' = current :: started rt /\
      player (queue rt') = {| status := Playing; resource := Some current |} /\
      immediates rt' = immediates rt.
Proof.
  intros Hs Hp rt' u. subst rt'. rewrite (playCurrent_valid_head _ _ _ _ _ Hs Hp).
  unfold _playCurrent_settle, try_playdl, try_ytdlp, abandon_head, all_tried_failed,
    strategies, primary_ok, info_ok, extractor_ok, strategy_calls.
  fold u.
  destruct rest, disablePlaydl, (playdl_stream out), (video_basic_info_ok out),
    (stream_from_info out), (truthyS (ytdlp_direct out)), (ffmpeg_encode out);
    simpl; rewrite ?Hs; simpl; rewrite <- ?app_assoc; simpl;
    eexists; (split; [reflexivity|]);
    (split; [reflexivity|]);
    (split; [distinct_calls|]);
    (split; [pick_sublist|]); (split; [reflexivity|]);
    (split; [try done|]); (split; [try done|]);
    simpl; rewrite ?Hs; rewrite ?app_nil_r; intuition (try done).
Qed.

(** ** shuffle *)

Lemma swap_length {A} (i j : nat) (l : list A) : length (swap i j l) = length l.
Proof. unfold swap. repeat case_match; by rewrite ?length_insert. Qed.

Lemma swap_Permutation {A} (i j : nat) (l : list A) : swap i j l ≡ₚ l.
Proof.
  unfold swap. destruct (l !! i) eqn:Ei, (l !! j) eqn:Ej; try done.
  by apply Permutation_insert_swap.
Qed.

Lemma swaps_Permutation {A} (i : nat) (js : list nat) (l : list A) :
  swaps i js l ≡ₚ l.
Proof.
  revert js l. induction i as [|i IH]; intros js l; [done|].
  destruct js as [|j js]; [done|]. simpl. rewrite IH. apply swap_Permutation.
Qed.

Lemma shuffle_loop_swaps {A} (random : nat -> Q) (k i : nat) (rest : list A) :
  shuffle_loop random k i rest = swaps i (draws random k i) rest.
Proof.
  revert k rest. induction i as [|i IH]; intros k rest; [done|]. simpl. apply IH.
Qed.

Lemma Qfloor_eq (x : Q) (n : Z) :
  Qfloor x = n <-> (inject_Z n <= x < inject_Z (n + 1))%Q.
Proof.
  split.
  - intros <-. split; [apply Qfloor_le|apply Qlt_floor].
  - intros [Hl Hu].
    apply Qfloor_resp_le in Hl. rewrite Qfloor_Z in Hl.
    pose proof (Qfloor_le x) as Hf.
    assert (inject_Z (Qfloor x) < inject_Z (n + 1))%Q as Hlt
      by (eapply Qle_lt_trans; eauto).
    rewrite <- Zlt_Qlt in Hlt. lia.
Qed.

Lemma draw_index_spec (r : Q) (i j : nat) :
  (0 <= r)%Q ->
  draw_index r i = j <->
  (inject_Z (Z.of_nat j) <= r * inject_Z (Z.of_nat i + 1)
   < inject_Z (Z.of_nat j + 1))%Q.
Proof.
  intros Hr. unfold draw_index. rewrite <- Qfloor_eq.
  assert (0 <= Qfloor (r * inject_Z (Z.of_nat i + 1))).
  { change 0 with (Qfloor (inject_Z 0)) at 1. rewrite Qfloor_Z.
    rewrite <- (Qfloor_Z 0). apply Qfloor_resp_le.
    apply Qmult_le_0_compat; [exact Hr|].
    change 0%Q with (inject_Z 0). rewrite <- Zle_Qle. lia. }
  lia.
Qed.

Lemma draw_index_le (r : Q) (i : nat) :
  (0 <= r < 1)%Q -> (draw_index r i <= i)%nat.
Proof.
  intros [H0 H1].
  destruct (draw_index_spec r i (draw_index r i) H0) as [Hs _].
  destruct (Hs eq_refl) as [Hl _].
  assert (r * inject_Z (Z.of_nat i + 1) < inject_Z (Z.of_nat i + 1))%Q as Hlt.
  { rewrite <- (Qmult_1_l (inject_Z (Z.of_nat i + 1))) at 2.
    apply Qmult_lt_compat_r; [|exact H1].
    change 0%Q with (inject_Z 0). rewrite <- Zlt_Qlt. lia. }
  assert (inject_Z (Z.of_nat (draw_index r i)) < inject_Z (Z.of_nat i + 1))%Q as Hc
    by (eapply Qle_lt_trans; eauto).
  rewrite <- Zlt_Qlt in Hc. lia.
Qed.

Lemma draws_in_range (random : nat -> Q) (k i : nat) :
  (forall n, (0 <= random n < 1)%Q) -> in_range i (draws random k i).
Proof.
  intros Hr. revert k. induction i as [|i IH]; intros k; [done|].
  simpl. split; [by apply draw_index_le|apply IH].
Qed.

Lemma swap_app_l {A} (i j : nat) (l1 l2 : list A) :
  (i < length l1)%nat -> (j < length l1)%nat ->
  swap i j (l1 ++ l2) = swap i j l1 ++ l2.
Proof.
  intros Hi Hj. unfold swap. rewrite !lookup_app_l by done.
  destruct (l1 !! i), (l1 !! j); try done.
  rewrite (insert_app_l l1) by done.
  by rewrite insert_app_l by (by rewrite length_insert).
Qed.

Lemma swaps_app_l {A} (i : nat) (js : list nat) (l1 l2 : list A) :
  in_range i js -> (i < length l1)%nat ->
  swaps i js (l1 ++ l2) = swaps i js l1 ++ l2.
Proof.
  revert js l1. induction i as [|i IH]; intros js l1 Hr Hi; [done|].
  destruct js as [|j js]; [done|]. destruct Hr as [Hj Hr]. simpl.
  rewrite swap_app_l by lia. apply IH; [exact Hr|]. rewrite swap_length. lia.
Qed.

Lemma swap_lookup_last {A} (i j : nat) (l : list A) (x : A) :
  (i < length l)%nat -> l !! j = Some x -> swap i j l !! i = Some x.
Proof.
  intros Hi Hj. unfold swap.
  destruct (lookup_lt_is_Some_2 l i Hi) as [y Hy]. rewrite Hy, Hj.
  destruct (decide (i = j)) as [->|Hne].
  - simplify_eq. rewrite list_lookup_insert_eq; [done|]. by rewrite length_insert.
  - rewrite list_lookup_insert_ne by done. by rewrite list_lookup_insert_eq.
Qed.

Lemma swap_last {A} (i j : nat) (l : list A) (x : A) :
  length l = S i -> l !! j = Some x ->
  swap i j l = take i (swap i j l) ++ [x].
Proof.
  intros Hl Hj. rewrite <- (take_S_r _ _ x).
  - rewrite take_ge; [done|]. rewrite swap_length. lia.
  - apply swap_lookup_last; [lia|done].
Qed.

Lemma swaps_last {A} (i : nat) (j : nat) (js : list nat) (l : list A) (x : A) :
  length l = S (S i) -> in_range (S i) (j :: js) -> l !! j = Some x ->
  swaps (S i) (j :: js) l = swaps i js (take (S i) (swap (S i) j l)) ++ [x].
Proof.
  intros Hl [Hj Hr] Hx. simpl. rewrite (swap_last (S i) j l x Hl Hx) at 1.
  apply swaps_app_l; [exact Hr|].
  rewrite length_take, swap_length. lia.
Qed.

Lemma in_range_0 (js : list nat) : in_range 0 js -> js = [].
Proof. by destruct js. Qed.

(** Each arrangement of distinct elements comes from one and only one
    sequence of in-range draws. *)
Lemma swaps_bijective {A} (n : nat) (l target : list A) :
  length l = S n -> NoDup l -> l ≡ₚ target ->
  exists js, in_range n js /\ swaps n js l = target /\
             forall js', in_range n js' -> swaps n js' l = target -> js' = js.
Proof.
  revert l target. induction n as [|n IH]; intros l target Hl Hnd Hp.
  - destruct l as [|a [|b l]]; try discriminate.
    apply Permutation_singleton_l in Hp as <-.
    exists []. split; [done|]. split; [done|]. intros js' Hr _. by apply in_range_0.
  - assert (length target = S (S n)) as Ht by (by rewrite <- Hp).
    destruct (exists_last (l:=target)) as (t' & y & ->);
      [by intros ->|].
    assert (y ∈ l) as Hy by (rewrite Hp; set_solver).
    apply list_elem_of_lookup in Hy as [j Hj].
    assert (j <= S n)%nat as Hjn by (apply lookup_lt_Some in Hj; lia).
    set (p := take (S n) (swap (S n) j l)).
    assert (swap (S n) j l = p ++ [y]) as Hsw by (by apply swap_last).
    assert (p ++ [y] ≡ₚ l) as Hpl by (rewrite <- Hsw; apply swap_Permutation).
    assert (p ≡ₚ t') as Hpt.
    { apply (Permutation_app_inv_r [y]). by rewrite Hpl. }
    assert (NoDup p) as Hndp.
    { rewrite <- Hpl in Hnd. by apply NoDup_app in Hnd as [? _]. }
    assert (length p = S n) as Hlp.
    { unfold p. rewrite length_take, swap_length. lia. }
    destruct (IH p t' Hlp Hndp Hpt) as (js & Hr & Hs & Hu).
    exists (j :: js). split; [done|]. split.
    + rewrite (swaps_last n j js l y Hl); [|done|done]. fold p. by rewrite Hs.
    + intros js' Hr' Hs'. destruct js' as [|j1 js1]; [done|].
      pose proof Hr' as [Hj1 Hr1].
      destruct (lookup_lt_is_Some_2 l j1) as [x1 Hx1]; [lia|].
      rewrite (swaps_last n j1 js1 l x1 Hl Hr' Hx1) in Hs'.
      apply app_inj_tail in Hs' as [Hs1 Hxy]. rewrite Hxy in Hx1.
      assert (j1 = j) as -> by exact (NoDup_lookup l j1 j y Hnd Hx1 Hj).
      f_equal. by apply Hu.
Qed.

(** C5, amended: on a queue with at least one track, [shuffle()] leaves
    the head where it is and keeps the multiset of tracks, every other
    field of the queue being untouched; the tail is rearranged by the
    Fisher-Yates loop, whose draw for position [i] lies in [0..i] and takes
    each value on an interval of [Math.random()] results of the same
    length; and when the tail has no repeated element, every arrangement of
    it is produced by exactly one sequence of draws. *)
Theorem shuffle_keeps_head_and_tracks (random : nat -> Q) (q : GuildQueue) :
  songs q <> [] ->
  (forall k, (0 <= random k < 1)%Q) ->
  let rest := tail (songs q) in
  let n := (length rest - 1)%nat in
  songs0 (shuffle random q) = songs0 q /\
  head (songs (shuffle random q)) = head (songs q) /\
  songs (shuffle random q) ≡ₚ songs q /\
  shuffle random q = set_songs (songs (shuffle random q)) q /\
  in_range n (draws random 0 n) /\
  tail (songs (shuffle random q)) = swaps n (draws random 0 n) rest /\
  (forall r i j, (0 <= r)%Q ->
     draw_index r i = j <->
     (inject_Z (Z.of_nat j) <= r * inject_Z (Z.of_nat i + 1)
      < inject_Z (Z.of_nat j + 1))%Q) /\
  (NoDup rest -> forall target, rest ≡ₚ target ->
     exists js, in_range n js /\ swaps n js rest = target /\
                forall js', in_range n js' -> swaps n js' rest = target -> js' = js).
Proof.
  intros Hne Hr rest n.
  destruct (songs q) as [|first l] eqn:Es; [done|].
  unfold shuffle, songs0. rewrite Es. simpl in *. subst rest.
  rewrite shuffle_loop_swaps. fold n.
  repeat apply conj; try done.
  - by rewrite swaps_Permutation.
  - by apply draws_in_range.
  - apply draw_index_spec.
  - intros Hnd target Hp. destruct l as [|a l'].
    + apply Permutation_nil_l in Hp as <-. exists []. split; [done|]. split; [done|].
      intros js' Hj _. by apply in_range_0.
    + apply swaps_bijective; [|done|done]. subst n. simpl. lia.
Qed.

(** ** Transport errors *)

Lemma onError_transient (message : string) (rt : Runtime) :
  isStreamError message = true -> onError message rt = rt.
Proof. intros H. unfold onError. by rewrite H. Qed.

(** On the array and on the scheduling of the next start, a fatal error
    does what a track end does when the guard of the latter lets it through. *)
Lemma onError_advances_songs (message : string) (rt : Runtime) :
  isStreamError message = false ->
  isTransitioning (queue rt) = false -> songs (queue rt) <> [] ->
  songs (queue (onError message rt)) = tail (songs (queue rt)) /\
  songs (queue (onIdle rt)) = tail (songs (queue rt)) /\
  immediates (onError message rt) = immediates (onIdle rt) /\
  isTransitioning (queue (onError message rt)) = isTransitioning (queue (onIdle rt)).
Proof.
  intros He Ht Hs. unfold onError, onIdle. rewrite He, Ht.
  destruct (songs (queue rt)) as [|s [|s' l]] eqn:E; [done| |]; simpl; rewrite ?E; simpl;
    rewrite ?E; done.
Qed.



(** ** Every track in a reachable queue has a playable link *)

Lemma begin_songs_ok (now : Z) (rt : Runtime) :
  Forall (slot_ok hostname) (songs (queue rt)) ->
  Forall (slot_ok hostname) (songs (queue (fst (_playCurrent_begin hostname now rt)))).
Proof.
  intros H. by destruct (begin_keeps_valid_head now rt H) as [-> _].
Qed.

Lemma async_songs_ok (now : Z) (rt : Runtime) :
  Forall (slot_ok hostname) (songs (queue rt)) ->
  Forall (slot_ok hostname) (songs (queue (_playCurrent_async hostname now rt))).
Proof.
  intros H. apply (begin_songs_ok now) in H. unfold _playCurrent_async.
  destruct (_playCurrent_begin hostname now rt) as [rt1 [c|]]; exact H.
Qed.

Lemma tail_songs_ok (l : list Slot) :
  Forall (slot_ok hostname) l -> Forall (slot_ok hostname) (tail l).
Proof. intros H. destruct l; [done|]. by inversion H. Qed.

Lemma shuffle_songs_ok (random : nat -> Q) (q : GuildQueue) :
  Forall (slot_ok hostname) (songs q) ->
  Forall (slot_ok hostname) (songs (shuffle random q)).
Proof.
  intros H. unfold shuffle. destruct (songs q) as [|first l]; simpl.
  - by repeat constructor.
  - inversion H; subst. constructor; [done|].
    by rewrite shuffle_loop_swaps, swaps_Permutation.
Qed.

Lemma onIdle_songs (rt : Runtime) :
  songs (queue (onIdle rt)) = songs (queue rt)
  \/ songs (queue (onIdle rt)) = tail (songs (queue rt)).
Proof.
  unfold onIdle. destruct (isTransitioning (queue rt)); [by left|].
  destruct (songs (queue rt)) as [|s l] eqn:E; [left; by rewrite E|].
  right. simpl. rewrite E. simpl. destruct l; simpl; by rewrite ?E.
Qed.

Lemma onError_songs (message : string) (rt : Runtime) :
  songs (queue (onError message rt)) = songs (queue rt)
  \/ songs (queue (onError message rt)) = tail (songs (queue rt)).
Proof.
  unfold onError. destruct (isStreamError message); [by left|].
  right. simpl. destruct (tail (songs (queue rt))) eqn:E; simpl; by rewrite ?E.
Qed.

Lemma settle_songs (out : PlayOutcome) (current : Track) (rt : Runtime) :
  songs (queue (_playCurrent_settle disablePlaydl out current rt)) = songs (queue rt)
  \/ songs (queue (_playCurrent_settle disablePlaydl out current rt))
     = tail (songs (queue rt)).
Proof.
  unfold _playCurrent_settle, try_playdl, try_ytdlp, abandon_head.
  destruct disablePlaydl, (playdl_stream out), (video_basic_info_ok out),
    (stream_from_info out), (truthyS (ytdlp_direct out)), (ffmpeg_encode out);
    simpl; try (by left); right;
    destruct (tail (songs (queue rt))) eqn:E; simpl; by rewrite ?E.
Qed.

Lemma skip_state (rt : Runtime) : snd (skip rt) = rt.
Proof. unfold skip. by destruct (songs (queue rt)). Qed.

Lemma step_songs_ok (e : Event) (rt rt' : Runtime) :
  step' e rt = Some rt' ->
  Forall (slot_ok hostname) (songs (queue rt)) ->
  Forall (slot_ok hostname) (songs (queue rt')).
Proof.
  intros Hs Hi. destruct e; simpl in Hs.
  - injection Hs as <-.
    destruct (add_has_shape res query member now rt) as [m rt' Hsh|r tracks rt1 _ _ Hp Hsh].
    + by destruct Hsh as [-> _].
    + destruct Hsh as [Hq _].
      assert (Forall (slot_ok hostname) (songs (queue (on_queue (push tracks) rt1)))) as H1.
      { simpl. rewrite Hq. apply Forall_app. split; [done|].
        apply Forall_fmap. eapply Forall_impl; [exact Hp|]. done. }
      unfold play_if_idle. destruct (is_idle _); [by apply async_songs_ok|exact H1].
  - destruct (awaiting rt !! i); [|discriminate]. injection Hs as <-.
    destruct (settle_songs out t (set_awaiting (delete i (awaiting rt)) rt)) as [->| ->];
      [done|by apply tail_songs_ok].
  - destruct (immediates rt) as [|[] cbs]; try discriminate;
      injection Hs as <-; by apply async_songs_ok.
  - destruct (is_idle _); [discriminate|]. injection Hs as <-.
    destruct (onIdle_songs
                (on_queue (fun q => set_player (player_to_idle (player q)) q) rt))
      as [->| ->]; [done|by apply tail_songs_ok].
  - destruct (is_idle _); [discriminate|]. injection Hs as <-.
    destruct (onError_songs message rt) as [->| ->]; [done|by apply tail_songs_ok].
  - injection Hs as <-. by rewrite skip_state.
  - injection Hs as <-. simpl. constructor.
  - injection Hs as <-. unfold pause, player_pause, pause_with. simpl.
    repeat case_match; simplify_eq; simpl; done.
  - injection Hs as <-. unfold resume, player_unpause, resume_with. simpl.
    repeat case_match; simplify_eq; simpl; done.
  - injection Hs as <-. unfold remove. simpl.
    repeat case_match; simpl; try done. by apply Forall_delete.
  - injection Hs as <-. by apply shuffle_songs_ok.
Qed.

Lemma reachable_songs_ok (rt : Runtime) :
  reachable hostname disablePlaydl env_MAX_PLAYLIST_LENGTH rt ->
  Forall (slot_ok hostname) (songs (queue rt)).
Proof.
  intros (g & ch & events & Hr).
  assert (Forall (slot_ok hostname) (songs (queue (newRuntime g ch)))) as H0 by constructor.
  revert Hr H0. generalize (newRuntime g ch). induction events as [|e events IH];
    intros rt0 Hr H0; simpl in Hr.
  - by injection Hr as <-.
  - destruct (step' e rt0) as [rt1|] eqn:E; [|discriminate].
    eauto using step_songs_ok.
Qed.

End Properties.

(** * Closed instances *)

(** The state named [playing_a] is the one the queue is in once [link_a]
    has been added at time 1000 and its stream has arrived. *)
Lemma playing_a_reachable : reachable sample_hostname false None playing_a.
Proof.
  exists "g", "c",
    [EvAdd sample_resolver link_a sample_member 1000; EvSettle 0 primary_succeeds].
  vm_compute. reflexivity.
Qed.

(** C1: stopping the queue while the head is still loading leaves the
    loaded track playing with an empty array; the next track added then
    sits at index 0 without ever being started, no track advance being
    under way, and the end of the playing track removes it unplayed. *)
Theorem stop_while_loading_breaks_head :
  exists rt,
    run sample_hostname false None stop_while_loading (newRuntime "g" "c") = Some rt /\
    songs0 (queue rt) = Some (track_of link_b) /\
    head (started rt) = Some (track_of link_a) /\
    resource (player (queue rt)) = Some (track_of link_a) /\
    ~ advancing rt /\
    ~ head_is_playing rt /\
    exists rt2,
      step sample_hostname false None EvIdle rt = Some rt2 /\
      songs (queue rt2) = [] /\ started rt2 = [track_of link_a] /\
      immediates rt2 = [] /\ awaiting rt2 = [].
Proof.
  eexists. split; [vm_compute; reflexivity|].
  assert (forall rt, isTransitioning (queue rt) = false -> immediates rt = [] ->
                     awaiting rt = [] -> ~ advancing rt) as Hadv.
  { intros rt H1 H2 H3 [H|[H|H]]; congruence. }
  repeat apply conj; try reflexivity.
  - by apply Hadv.
  - unfold head_is_playing. simpl. intros [H|H]; [discriminate|].
    revert H. by apply Hadv.
  - eexists. split; [vm_compute; reflexivity|]. repeat split.
Qed.

(** C3: on a queue playing its only track, a fatal transport error and the
    end of the track both empty the array, but the error leaves the start
    time and the resource in place and sends no end notice, so that elapsed
    time keeps being reported for an empty queue. *)
Theorem fatal_error_keeps_timing :
  let after_error := onError "decode failed" playing_a in
  let after_end := onIdle playing_a in
  isStreamError "decode failed" = false /\
  songs (queue after_error) = [] /\ songs (queue after_end) = [] /\
  currentStartMs (queue after_end) = 0 /\
  currentStartMs (queue after_error) = 1000 /\
  currentResource (queue after_end) = None /\
  currentResource (queue after_error) = Some (track_of link_a) /\
  sent after_end = [msg_queue_ended] /\
  sent after_error = ["Playback error: decode failed"] /\
  (getElapsedSeconds 61000 (queue after_end) == 0)%Q /\
  (getElapsedSeconds 61000 (queue after_error) == 60)%Q.
Proof. repeat split. Qed.

(** C2 as stated fails under the flag: with play-dl disabled the failure
    notice goes out after yt-dlp alone has been tried. *)
Lemma flag_skips_playdl :
  ~ fails_after_all_three sample_hostname true 1000 everything_fails queued_a.
Proof.
  unfold fails_after_all_three. simpl. intros H.
  destruct (H eq_refl) as [Hin _]. vm_compute in Hin.
  destruct Hin as [Hin|[]]. discriminate Hin.
Qed.

(** Two overlapping runs of [_playCurrent] hold the same head: when both
    fail, each of them shifts, and the second shift removes a track that no
    strategy was ever tried on. *)
Lemma overlapping_runs_shift_twice :
  exists rt,
    run sample_hostname false None overlapping_adds (newRuntime "g" "c") = Some rt /\
    songs (queue rt) = [] /\
    sent rt = [msg_all_failed; msg_all_failed] /\
    started rt = [] /\
    ~ In (CallPlaydlStream link_b) (calls rt) /\ ~ In (CallYtdlp link_b) (calls rt).
Proof.
  eexists. split; [vm_compute; reflexivity|].
  repeat apply conj; try reflexivity; simpl; intros H;
    repeat (destruct H as [H|H]; [discriminate H|]); exact H.
Qed.

Lemma playback_fallback_order_witness :
  songs (queue queued_a) = [Some (track_of link_a)] /\
  playable sample_hostname (track_of link_a) /\
  exists made,
    calls (_playCurrent sample_hostname false 1000 everything_fails queued_a)
    = calls queued_a ++ made /\
    made = [CallPlaydlStream link_a; CallVideoBasicInfo link_a; CallYtdlp link_a] /\
    sublist made (strategy_calls link_a "").
Proof.
  split; [reflexivity|]. split; [reflexivity|].
  destruct (playback_fallback_order sample_hostname false 1000 everything_fails
              queued_a (track_of link_a) [] eq_refl eq_refl)
    as (made & Hc & He & _ & Hs & _).
  exists made. split; [exact Hc|]. split; [exact He|exact Hs].
Defined.

(** C4 as stated fails: 201 seconds after its start the track of 100
    seconds is reported at 200 seconds. *)
Lemma elapsed_exceeds_duration :
  reachable sample_hostname false None playing_a /\
  ~ elapsed_within_duration 201000 (queue playing_a).
Proof.
  split; [apply playing_a_reachable|].
  unfold elapsed_within_duration. simpl. intros H. vm_compute in H. by apply H.
Qed.

Lemma elapsed_nonneg_and_frozen_witness :
  Forall clock_ok pause_after_start /\
  run sample_hostname false None pause_after_start (newRuntime "g" "c") = Some paused_a /\
  paused (queue paused_a) = true /\
  getElapsedSeconds 5000 (queue paused_a) = getElapsedSeconds 9000 (queue paused_a).
Proof.
  assert (Forall clock_ok pause_after_start) as Hc
    by (repeat constructor; simpl; lia).
  assert (run sample_hostname false None pause_after_start (newRuntime "g" "c")
          = Some paused_a) as Hr by (vm_compute; reflexivity).
  split; [exact Hc|]. split; [exact Hr|]. split; [reflexivity|].
  destruct (elapsed_nonneg_and_frozen sample_hostname false None) as (_ & H & _).
  exact (H "g" "c" pause_after_start paused_a 5000 9000 Hc Hr eq_refl).
Defined.

(** C5 as stated fails on the empty queue, where [shuffle()] leaves an
    array holding one [undefined]. *)
Lemma shuffle_empty_grows :
  songs (shuffle (fun _ => 0%Q) (newGuildQueue "g" "c")) = [None] /\
  ~ shuffle_preserves (fun _ => 0%Q) (newGuildQueue "g" "c").
Proof.
  split; [reflexivity|]. intros [_ H]. apply Permutation_length in H. discriminate H.
Qed.

Lemma shuffle_keeps_head_and_tracks_witness :
  songs three_songs <> [] /\
  (forall k : nat, (0 <= 1 # 2 < 1)%Q) /\
  head (songs (shuffle (fun _ => 1 # 2) three_songs)) = head (songs three_songs) /\
  songs (shuffle (fun _ => 1 # 2) three_songs) ≡ₚ songs three_songs.
Proof.
  assert (songs three_songs <> []) as Hne by discriminate.
  assert (forall k : nat, (0 <= 1 # 2 < 1)%Q) as Hr
    by (intros _; split; [discriminate|reflexivity]).
  split; [exact Hne|]. split; [exact Hr|].
  destruct (shuffle_keeps_head_and_tracks (fun _ => 1 # 2) three_songs Hne Hr)
    as (_ & Hh & Hp & _).
  split; [exact Hh|exact Hp].
Defined.

(** C6 as stated fails where play-dl answers with a playlist that lists
    nothing: the add fails after play-dl alone, and yt-dlp, whose listing
    holds a video with a playable link, is never asked. *)
Lemma playdl_empty_listing_fails_alone :
  let r := add sample_hostname false None empty_playdl_resolver playlist_link
             sample_member 1000 (newRuntime "g" "c") in
  fst r = AddThrows "Search failed: Playlist has no videos" /\
  calls (snd r) = [CallPlaylistInfo playlist_link] /\
  (exists data e,
     ytdlp_playlist empty_playdl_resolver playlist_link = Resolves data /\
     Some e ∈ take (Z.to_nat (MAX_PLAYLIST_LENGTH None)) (default [] (entries data)) /\
     truthyS (e_id e) = true /\
     isYouTubeUrl sample_hostname (watch_link e) = true) /\
  ~ fails_only_after_both sample_hostname false None empty_playdl_resolver
      playlist_link sample_member 1000 (newRuntime "g" "c").
Proof.
  cbv zeta. split; [reflexivity|]. split; [reflexivity|]. split.
  - eexists _, _. split; [reflexivity|]. split; [left|]. split; reflexivity.
  - unfold fails_only_after_both. intros H.
    destruct (H eq_refl) as [_ Hin]. vm_compute in Hin.
    destruct Hin as [Hin|[]]. discriminate Hin.
Qed.

Lemma playlist_add_bounded_witness :
  youtube_playlist_link sample_hostname playlist_link /\
  Forall (slot_ok sample_hostname) (songs (queue (newRuntime "g" "c"))) /\
  (exists tracks,
    (Z.of_nat (length tracks) <= MAX_PLAYLIST_LENGTH (Some 2)) /\
    fst (add sample_hostname false (Some 2) playlist_resolver playlist_link
           sample_member 1000 (newRuntime "g" "c"))
    = AddedPlaylist "mix" (length tracks) (head tracks) /\
    songs (queue (snd (add sample_hostname false (Some 2) playlist_resolver
                         playlist_link sample_member 1000 (newRuntime "g" "c"))))
    = Some <$> tracks) /\
  throws (fst (add sample_hostname false None ytdlp_only_resolver playlist_link
                 sample_member 1000 (newRuntime "g" "c"))) = false.
Proof.
  assert (youtube_playlist_link sample_hostname playlist_link) as Hl
    by (repeat split; discriminate).
  assert (Forall (slot_ok sample_hostname) (songs (queue (newRuntime "g" "c")))) as Hs
    by constructor.
  split; [exact Hl|]. split; [exact Hs|]. split.
  - destruct (playlist_add_bounded sample_hostname false (Some 2) playlist_resolver
                playlist_link sample_member 1000 (newRuntime "g" "c") Hl Hs)
      as (Hb & _ & _ & Hadd & _).
    eexists. split; [exact Hb|]. apply Hadd. discriminate.
  - destruct (playlist_add_bounded sample_hostname false None ytdlp_only_resolver
                playlist_link sample_member 1000 (newRuntime "g" "c") Hl Hs)
      as (_ & _ & _ & _ & _ & _ & _ & Hy & _).
    refine (proj1 (Hy "too large" _
                     {| e_id := Some "a"; e_title := Some "video a";
                        e_duration := Some 60; e_thumbnail := None;
                        e_uploader := Some "channel" |} eq_refl eq_refl _ eq_refl eq_refl)).
    left.
Defined.

Lemma add_failure_leaves_queue_witness :
  "https://example.org/x" <> "" /\
  is_spotify_link "https://example.org/x" = false /\
  is_http_link "https://example.org/x" = true /\
  isYouTubeUrl sample_hostname (Some "https://example.org/x") = false /\
  fst (add sample_hostname false None sample_resolver "https://example.org/x"
         sample_member 1000 playing_a)
  = AddThrows "Search failed: Only YouTube URLs supported" /\
  songs (queue (snd (add sample_hostname false None sample_resolver
                       "https://example.org/x" sample_member 1000 playing_a)))
  = songs (queue playing_a).
Proof.
  assert ("https://example.org/x" <> "") as Hne by discriminate.
  split; [exact Hne|]. do 3 (split; [reflexivity|]).
  destruct (add_failure_leaves_queue sample_hostname false None) as (Hf & Hy & _).
  pose proof (Hy sample_resolver "https://example.org/x" sample_member 1000 playing_a
                Hne eq_refl eq_refl eq_refl) as Ht.
  split; [exact Ht|].
  apply (Hf sample_resolver "https://example.org/x" sample_member 1000 playing_a).
  rewrite Ht. reflexivity.
Defined.


Lemma remove_bounds_witness :
  (0 <= 0 \/ Z.of_nat (length (songs three_songs)) <= 0) /\
  1 <= 1 < Z.of_nat (length (songs three_songs)) /\
  remove 0 three_songs = (None, three_songs) /\
  exists r, songs three_songs !! Z.to_nat 1 = Some r /\ fst (remove 1 three_songs) = Some r.
Proof.
  assert (0 <= 0 \/ Z.of_nat (length (songs three_songs)) <= 0) as H0 by (left; lia).
  assert (1 <= 1 < Z.of_nat (length (songs three_songs))) as H1 by (simpl; lia).
  split; [exact H0|]. split; [exact H1|].
  destruct (remove_bounds three_songs 0) as [Hrej _].
  destruct (remove_bounds three_songs 1) as [_ Hacc].
  split; [exact (Hrej H0)|].
  destruct (Hacc H1) as (r & Hr & Hf & _). exists r. split; [exact Hr|exact Hf].
Defined.

Lemma get_returns_first_instance_witness :
  queues newPlayerManager !! "g" = None /\
  exists w,
    world_run sample_hostname false None registry_traffic
      (snd (get "g" "music" newPlayerManager)) = Some w /\
    get "g" "other" w = (fst (get "g" "music" newPlayerManager), w) /\
    exists rt, heap w !! fst (get "g" "music" newPlayerManager) = Some rt /\
               textChannel (queue rt) = "music".
Proof.
  assert (queues newPlayerManager !! "g" = None) as Hn by reflexivity.
  split; [exact Hn|].
  destruct (world_run sample_hostname false None registry_traffic
              (snd (get "g" "music" newPlayerManager))) as [w|] eqn:E.
  - exists w. split; [reflexivity|].
    destruct (get_returns_first_instance sample_hostname false None
                newPlayerManager w "g" "music" "other" registry_traffic Hn E)
      as (Hg & rt & Hh & _ & Hc).
    split; [exact Hg|]. exists rt. split; [exact Hh|exact Hc].
  - exfalso. vm_compute in E. discriminate E.
Defined.

(** * Further properties *)

(** ** Duration texts *)

Lemma append_empty (s : string) : "" +:+ s = s.
Proof. reflexivity. Qed.

Lemma append_String (c : ascii) (s t : string) :
  String c s +:+ t = String c (s +:+ t).
Proof. reflexivity. Qed.

Lemma nat_of_digit (d : nat) : (d < 10)%nat -> nat_of_ascii (digit d) = (48 + d)%nat.
Proof. intros H. unfold digit. apply nat_ascii_embedding. lia. Qed.

Lemma number_of_digits_snoc (s : string) (d acc : nat) :
  (d < 10)%nat ->
  number_of_digits (s +:+ String (digit d) "") acc
  = (fun v => 10 * v + d)%nat <$> number_of_digits s acc.
Proof.
  intros Hd. revert acc.
  induction s as [|c s IH]; intros acc;
    rewrite ?append_empty, ?append_String; cbn [number_of_digits].
  - rewrite (nat_of_digit d Hd).
    destruct (48 <=? 48 + d)%nat eqn:E1; [|apply Nat.leb_gt in E1; lia].
    destruct (48 + d <=? 57)%nat eqn:E2; [|apply Nat.leb_gt in E2; lia].
    cbn [andb fmap option_fmap option_map]. f_equal. lia.
  - destruct ((48 <=? nat_of_ascii c)%nat && (nat_of_ascii c <=? 57)%nat); [apply IH|done].
Qed.

Lemma number_of_show_digits (fuel n : nat) :
  (n < fuel)%nat -> number_of_digits (show_digits fuel n) 0 = Some n.
Proof.
  revert n. induction fuel as [|fuel IH]; intros n Hn; [lia|].
  cbn [show_digits].
  pose proof (Nat.mod_upper_bound n 10) as Hm.
  rewrite number_of_digits_snoc by lia.
  destruct (n <? 10)%nat eqn:E.
  - apply Nat.ltb_lt in E. cbn [number_of_digits fmap option_fmap option_map].
    f_equal. rewrite Nat.mod_small by done. lia.
  - apply Nat.ltb_ge in E.
    rewrite IH; [|pose proof (Nat.div_lt n 10); lia].
    cbn [fmap option_fmap option_map]. f_equal. pose proof (Nat.div_mod_eq n 10). lia.
Qed.

Lemma number_of_show_nat (n : nat) : number_of_digits (show_nat n) 0 = Some n.
Proof. apply number_of_show_digits. lia. Qed.

Lemma number_of_pad (v : Z) :
  0 <= v -> number_of_digits (pad v) 0 = Some (Z.to_nat v).
Proof.
  intros Hv. unfold pad, show_int. destruct (v <? 0) eqn:E; [lia|].
  destruct (String.length (show_nat (Z.to_nat v)) <? 2)%nat;
    [rewrite append_String, append_empty; cbn [number_of_digits];
     change (nat_of_ascii "0") with 48%nat;
     cbn [Nat.leb andb Nat.sub Nat.mul Nat.add]|]; apply number_of_show_nat.
Qed.

Lemma number_of_show_int (v : Z) :
  0 <= v -> number_of_digits (show_int v) 0 = Some (Z.to_nat v).
Proof.
  intros Hv. unfold show_int. destruct (v <? 0) eqn:E; [lia|]. apply number_of_show_nat.
Qed.

Lemma split_colon_String (c : ascii) (s : string) :
  split_colon (String c s) =
  if Ascii.eqb c ":" then "" :: split_colon s
  else match split_colon s with
       | part :: parts => String c part :: parts
       | [] => [String c ""]
       end.
Proof. reflexivity. Qed.

(** A text of digits has no colon in it. *)
Lemma split_colon_digits (s rest : string) (acc n : nat) :
  number_of_digits s acc = Some n ->
  split_colon (s +:+ String ":" rest) = s :: split_colon rest /\ split_colon s = [s].
Proof.
  revert acc. induction s as [|c s IH]; intros acc H;
    rewrite ?append_empty, ?append_String, ?split_colon_String;
    cbn [number_of_digits] in H.
  - split; [|done]. change (Ascii.eqb ":" ":") with true. done.
  - destruct ((48 <=? nat_of_ascii c)%nat && (nat_of_ascii c <=? 57)%nat) eqn:E;
      [|discriminate].
    destruct (Ascii.eqb c ":") eqn:Ec.
    + apply Ascii.eqb_eq in Ec. subst c. discriminate E.
    + destruct (IH _ H) as [-> ->]. done.
Qed.

Lemma parse_clock_text (h m s : Z) :
  0 <= h -> 0 <= m -> 0 <= s ->
  parse_duration_string (clock_text h m s) = Some ((h * 60 + m) * 60 + s).
Proof.
  intros Hh Hm Hs. unfold parse_duration_string, clock_text.
  change (":" +:+ pad s) with (String ":" (pad s)).
  change (":" +:+ pad m +:+ String ":" (pad s))
    with (String ":" (pad m +:+ String ":" (pad s))).
  pose proof (number_of_show_int h Hh) as Nh.
  pose proof (number_of_show_int m Hm) as Nm.
  pose proof (number_of_pad m Hm) as Pm.
  pose proof (number_of_pad s Hs) as Ps.
  destruct (h =? 0) eqn:E.
  - destruct (split_colon_digits (show_int m) (pad s) _ _ Nm) as [-> _].
    destruct (split_colon_digits (pad s) "" _ _ Ps) as [_ ->].
    cbn [fold_left]. rewrite Nm, Ps. f_equal. lia.
  - destruct (split_colon_digits (show_int h) (pad m +:+ String ":" (pad s)) _ _ Nh)
      as [-> _].
    destruct (split_colon_digits (pad m) (pad s) _ _ Pm) as [-> _].
    destruct (split_colon_digits (pad s) "" _ _ Ps) as [_ ->].
    cbn [fold_left]. rewrite Nh, Pm, Ps. f_equal. lia.
Qed.

(** X1: the duration text of player.js reads back, by the colon-separated
    reading that [add] applies to yt-dlp's duration text, as the whole
    seconds it was made from, negative inputs counting as zero. *)
Theorem formatDuration_reads_back (x : Q) :
  exists text,
    formatDuration (Some x) = Some text /\
    parse_duration_string text = Some (Z.max 0 (Qfloor x)).
Proof.
  eexists. split; [reflexivity|].
  set (sec := Z.max 0 (Qfloor x)). assert (0 <= sec) as Hsec by lia.
  rewrite !Z.rem_mod_nonneg by lia.
  rewrite parse_clock_text.
  - f_equal. Z.to_euclidean_division_equations. lia.
  - apply Z.div_pos; lia.
  - apply Z.div_pos; [apply Z.mod_pos_bound|]; lia.
  - apply Z.mod_pos_bound. lia.
Qed.

Lemma clock_text_nonempty (h m s : Z) : truthyS (Some (clock_text h m s)) = true.
Proof.
  assert (forall a b : string, String.eqb (a +:+ String ":" b) "" = false) as H
    by (by intros [|c a] b).
  unfold clock_text, truthyS. destruct (h =? 0).
  - change (":" +:+ pad s) with (String ":" (pad s)). by rewrite H.
  - change (":" +:+ pad m +:+ ":" +:+ pad s)
      with (String ":" (pad m +:+ ":" +:+ pad s)). by rewrite H.
Qed.

Lemma Qeq_bool_pos (x : Q) : (0 < x)%Q -> Qeq_bool x 0 = false.
Proof.
  intros H. destruct (Qeq_bool x 0) eqn:E; [|done].
  apply Qeq_bool_eq in E. rewrite E in H. by apply Qlt_irrefl in H.
Qed.

Lemma Qfloor_nonneg (x : Q) : (0 <= x)%Q -> 0 <= Qfloor x.
Proof. intros H. apply Qfloor_resp_le in H. exact H. Qed.

Lemma formatDuration_agree (x : Q) :
  (0 < x)%Q -> Index.formatDuration (Some x) = formatDuration (Some x).
Proof.
  intros Hx. unfold Index.formatDuration, formatDuration. rewrite (Qeq_bool_pos x Hx).
  pose proof (Qfloor_nonneg x (Qlt_le_weak _ _ Hx)).
  by rewrite Z.max_r.
Qed.

(** X2: on every positive number of seconds the [formatDuration] of
    index.js and the one of player.js give the same text; at zero the
    former gives null where the latter gives the text 0:00. *)
Theorem formatDuration_versions_agree (x : Q) :
  (0 < x)%Q ->
  Index.formatDuration (Some x) = formatDuration (Some x) /\
  Index.formatDuration (Some 0%Q) = None /\
  formatDuration (Some 0%Q) = Some "0:00".
Proof.
  intros Hx. split; [by apply formatDuration_agree|split; reflexivity].
Qed.

(** ** Progress bar *)

Lemma js_round_bounds (ratio k : Q) :
  (0 <= ratio <= 1)%Q -> (0 <= k)%Q ->
  0 <= js_round (ratio * k) <= Qfloor (k + (1 # 2)).
Proof.
  intros [H0 H1] Hk. unfold js_round. split.
  - apply Qfloor_nonneg.
    apply Qle_trans with (0 + (1 # 2))%Q; [discriminate|].
    apply Qplus_le_compat; [|apply Qle_refl].
    by apply Qmult_le_0_compat.
  - apply Qfloor_resp_le. apply Qplus_le_compat; [|apply Qle_refl].
    rewrite <- (Qmult_1_l k) at 2. by apply Qmult_le_compat_r.
Qed.

Lemma js_round_mono (x y : Q) : (x <= y)%Q -> js_round x <= js_round y.
Proof.
  intros H. apply Qfloor_resp_le. apply Qplus_le_compat; [exact H|apply Qle_refl].
Qed.

Lemma progressRatio_range (elapsed : Q) (total : Z) (ratio : Q) :
  progressRatio elapsed total = Some ratio -> (0 <= ratio <= 1)%Q.
Proof.
  unfold progressRatio. destruct (total <=? 0); [discriminate|].
  intros [= <-]. split.
  - apply Q.min_glb; [discriminate|apply Q.le_max_l].
  - apply Q.le_min_l.
Qed.

Lemma progressRatio_mono (e1 e2 : Q) (total : Z) (r1 r2 : Q) :
  (e1 <= e2)%Q ->
  progressRatio e1 total = Some r1 -> progressRatio e2 total = Some r2 ->
  (r1 <= r2)%Q.
Proof.
  unfold progressRatio. destruct (total <=? 0) eqn:E; [discriminate|].
  intros He [= <-] [= <-].
  apply Q.min_le_compat_l, Q.max_le_compat_l.
  apply Qmult_le_compat_r; [exact He|].
  apply Qinv_le_0_compat. change 0%Q with (inject_Z 0). rewrite <- Zle_Qle. lia.
Qed.

Lemma bar_cells_length (ratio : Q) :
  (0 <= ratio <= 1)%Q -> length (bar_cells ratio) = 20%nat.
Proof.
  intros Hr. unfold bar_cells.
  pose proof (js_round_bounds ratio 20 Hr ltac:(discriminate)) as Hb.
  change (Qfloor (20 + (1 # 2))) with 20 in Hb.
  rewrite length_app, !length_replicate. lia.
Qed.

(** The number of full blocks of a bar. *)
Lemma bar_cells_full (ratio : Q) :
  (0 <= ratio <= 1)%Q ->
  length (filter (fun c => c = true) (bar_cells ratio))
  = Z.to_nat (js_round (ratio * 20)).
Proof.
  intros Hr. unfold bar_cells. rewrite filter_app.
  assert (forall n, filter (fun c => c = true) (replicate n true) = replicate n true) as Ht.
  { induction n as [|n IH]; [done|]. simpl. rewrite filter_cons_True by done.
    by rewrite IH. }
  assert (forall n, filter (fun c => c = true) (replicate n false) = []) as Hf.
  { induction n as [|n IH]; [done|]. simpl. by rewrite filter_cons_False. }
  by rewrite Ht, Hf, app_nil_r, length_replicate.
Qed.

(** X3: [buildProgressBar] of player.js gives no bar exactly when the total
    is missing, zero or negative; every bar it gives has twenty cells, the
    full ones first, and a percentage between 0 and 100; the bar is empty
    at 0 % when nothing has elapsed, full at 100 % once the total has
    elapsed or been exceeded, and never loses a full cell as time goes on. *)
Theorem buildProgressBar_cells (elapsed : option Q) (total : option Z) :
  (buildProgressBar elapsed total = None <-> default 0 total <= 0) /\
  (forall bar, buildProgressBar elapsed total = Some bar ->
     length (cells bar) = 20%nat /\
     (exists k, (k <= 20)%nat /\
                cells bar = replicate k true ++ replicate (20 - k) false) /\
     0 <= percent bar <= 100 /\
     ((default 0 elapsed <= 0)%Q ->
        cells bar = replicate 20 false /\ percent bar = 0) /\
     ((inject_Z (default 0%Z total) <= default 0 elapsed)%Q ->
        cells bar = replicate 20 true /\ percent bar = 100)) /\
  (forall later bar bar',
     (default 0 elapsed <= default 0 later)%Q ->
     buildProgressBar elapsed total = Some bar ->
     buildProgressBar later total = Some bar' ->
     (length (filter (fun c => c = true) (cells bar))
      <= length (filter (fun c => c = true) (cells bar')))%nat
     /\ percent bar <= percent bar').
Proof.
  unfold buildProgressBar. split; [|split].
  - unfold progressRatio. destruct (default 0 total <=? 0) eqn:E; split; try done; lia.
  - intros bar H.
    destruct (progressRatio (default 0%Q elapsed) (default 0 total)) as [ratio|] eqn:Er;
      [|discriminate].
    injection H as <-. simpl.
    pose proof (progressRatio_range _ _ _ Er) as Hr.
    pose proof (js_round_bounds ratio 20 Hr ltac:(discriminate)) as Hb.
    pose proof (js_round_bounds ratio 100 Hr ltac:(discriminate)) as Hp.
    change (Qfloor (20 + (1 # 2))) with 20 in Hb.
    change (Qfloor (100 + (1 # 2))) with 100 in Hp.
    split; [by apply bar_cells_length|]. split.
    { exists (Z.to_nat (js_round (ratio * 20))). split; [lia|done]. }
    split; [done|].
    unfold progressRatio in Er. destruct (default 0 total <=? 0) eqn:Et; [discriminate|].
    injection Er as Er. split.
    + intros He.
      assert (ratio == 0)%Q as Hz.
      { rewrite <- Er. rewrite Q.max_l.
        - apply Q.min_r. discriminate.
        - apply Qle_shift_div_r.
          + change 0%Q with (inject_Z 0). rewrite <- Zlt_Qlt. lia.
          + by rewrite Qmult_0_l. }
      unfold bar_cells, js_round. rewrite Hz. done.
    + intros He.
      assert (ratio == 1)%Q as Hz.
      { rewrite <- Er. apply Q.min_l. apply Q.max_le_iff. right.
        apply Qle_shift_div_l.
        - change 0%Q with (inject_Z 0). rewrite <- Zlt_Qlt. lia.
        - by rewrite Qmult_1_l. }
      unfold bar_cells, js_round. rewrite Hz. done.
  - intros later bar bar' He H H'.
    destruct (progressRatio (default 0%Q elapsed) (default 0 total)) as [r|] eqn:Er;
      [|discriminate].
    destruct (progressRatio (default 0%Q later) (default 0 total)) as [r'|] eqn:Er';
      [|discriminate].
    injection H as <-. injection H' as <-. simpl.
    pose proof (progressRatio_range _ _ _ Er) as Hr.
    pose proof (progressRatio_range _ _ _ Er') as Hr'.
    pose proof (progressRatio_mono _ _ _ _ _ He Er Er') as Hm.
    rewrite !bar_cells_full by done. split.
    + apply Z2Nat.inj_le.
      * apply (js_round_bounds r 20 Hr). discriminate.
      * apply (js_round_bounds r' 20 Hr'). discriminate.
      * apply js_round_mono. apply Qmult_le_compat_r; [exact Hm|discriminate].
    + apply js_round_mono. apply Qmult_le_compat_r; [exact Hm|discriminate].
Qed.

Lemma Qmax_0_pos (x : Q) : (0 < x)%Q -> Qmax 0 x = x.
Proof.
  intros H. unfold Qmax, GenericMinMax.gmax.
  destruct (0 ?= x)%Q eqn:E; try done.
  - apply Qeq_alt in E. rewrite <- E in H. by apply Qlt_irrefl in H.
  - apply Qgt_alt in E. exfalso. eapply Qlt_irrefl, Qlt_trans; eauto.
Qed.

(** X4: for a positive elapsed time and a positive total, the progress bar
    of index.js and the one of player.js are the same, cells, labels and
    percentage; with nothing elapsed index.js gives no bar at all. *)
Theorem buildProgressBar_versions_agree (elapsed : Q) (total : Z) :
  (0 < elapsed)%Q -> 0 < total ->
  Index.buildProgressBar (Some elapsed) (Some total)
  = buildProgressBar (Some elapsed) (Some total)
  /\ Index.buildProgressBar (Some 0%Q) (Some total) = None
  /\ buildProgressBar (Some 0%Q) (Some total) <> None.
Proof.
  intros He Ht. split; [|split].
  - assert (0 < inject_Z total)%Q as Hq
      by (change 0%Q with (inject_Z 0); rewrite <- Zlt_Qlt; lia).
    pose proof (formatDuration_agree elapsed He) as H1.
    pose proof (formatDuration_agree (inject_Z total) Hq) as H2.
    unfold Index.buildProgressBar, buildProgressBar.
    change (default 0%Q (Some elapsed)) with elapsed.
    change (default 0 (Some total)) with total.
    change (inject_Z <$> Some total) with (Some (inject_Z total)).
    unfold progressRatio. rewrite H1, H2.
    destruct (total <=? 0) eqn:E; [lia|]. rewrite (Qeq_bool_pos _ He).
    assert (Qle_bool 0 elapsed = true) as ->
      by (apply Qle_bool_iff; by apply Qlt_le_weak).
    cbn [orb negb]. rewrite Qmax_0_pos.
    2: { apply Qlt_shift_div_l; [exact Hq|]. by rewrite Qmult_0_l. }
    unfold formatDuration, orS. rewrite !clock_text_nonempty. reflexivity.
  - unfold Index.buildProgressBar. destruct (total <=? 0); reflexivity.
  - unfold buildProgressBar, progressRatio. simpl.
    destruct (total <=? 0) eqn:E; [lia|discriminate].
Qed.

(** ** Thumbnails *)

Lemma Candidate_nested_ind (P : Candidate -> Prop) :
  P CNone ->
  (forall s, P (CString s)) ->
  (forall items, Forall P items -> P (CArray items)) ->
  (forall u t, P t -> P (CObject u t)) ->
  forall candidate, P candidate.
Proof.
  intros H0 Hs Ha Ho. fix IH 1. intros [|s|items|u t].
  - exact H0.
  - apply Hs.
  - apply Ha. induction items as [|x l IHl]; constructor; [apply IH|exact IHl].
  - apply Ho. apply IH.
Qed.

Lemma extractThumbnail_sound (candidate : Candidate) (r : string) :
  extractThumbnail candidate = Some r -> r <> "" /\ r ∈ candidate_strings candidate.
Proof.
  revert r. induction candidate as [|s|items Hitems|u t IHt] using Candidate_nested_ind;
    intros r H; simpl in H.
  - discriminate.
  - destruct (String.eqb s "") eqn:E; [discriminate|]. injection H as <-.
    apply String.eqb_neq in E. split; [done|]. simpl. set_solver.
  - simpl. induction Hitems as [|item later Hitem Hlater IHl]; [discriminate|].
    destruct ((fix from_last (items : list Candidate) : option string :=
                 match items with
                 | [] => None
                 | item :: later =>
                     match from_last later with
                     | Some chosen => Some chosen
                     | None => extractThumbnail item
                     end
                 end) later) as [chosen|] eqn:E.
    + injection H as <-. destruct (IHl eq_refl) as [Hn Hin]. split; [done|].
      apply elem_of_app. by right.
    + destruct (Hitem r H) as [Hn Hin]. split; [done|].
      apply elem_of_app. by left.
  - destruct (truthyS u) eqn:E.
    + subst u. simpl in E. destruct (String.eqb r "") eqn:Er; [discriminate|].
      apply String.eqb_neq in Er. split; [done|]. simpl. constructor.
    + destruct (IHt r H) as [Hn Hin]. split; [done|].
      simpl. apply elem_of_app. by right.
Qed.

Lemma extractThumbnail_snoc (items : list Candidate) (item : Candidate) :
  extractThumbnail (CArray (items ++ [item])) =
  match extractThumbnail item with
  | Some r => Some r
  | None => extractThumbnail (CArray items)
  end.
Proof.
  simpl. induction items as [|x items IH]; simpl.
  - by destruct (extractThumbnail item).
  - rewrite IH. destruct (extractThumbnail item); [done|].
    reflexivity.
Qed.

(** X5: what [extractThumbnail] returns is never an empty string and is one
    of the strings held by the candidate; in an array the last element that
    gives a thumbnail decides; an object's own [url] goes before its
    [thumbnails]; a candidate that holds no non-empty string gives null. *)
Theorem extractThumbnail_picks_last :
  (forall candidate r,
     extractThumbnail candidate = Some r ->
     r <> "" /\ r ∈ candidate_strings candidate) /\
  (forall items item,
     extractThumbnail (CArray (items ++ [item])) =
     match extractThumbnail item with
     | Some r => Some r
     | None => extractThumbnail (CArray items)
     end) /\
  (forall u thumbnails,
     u <> "" -> extractThumbnail (CObject (Some u) thumbnails) = Some u) /\
  (forall candidate,
     Forall (fun s => s = "") (candidate_strings candidate) ->
     extractThumbnail candidate = None).
Proof.
  split; [exact extractThumbnail_sound|]. split; [exact extractThumbnail_snoc|]. split.
  - intros u t Hu. simpl. apply String.eqb_neq in Hu. by rewrite Hu.
  - intros candidate Hall.
    destruct (extractThumbnail candidate) as [r|] eqn:E; [|done].
    destruct (extractThumbnail_sound _ _ E) as [Hn Hin].
    rewrite Forall_forall in Hall. by destruct (Hn (Hall r Hin)).
Qed.

(** ** Accepted hosts *)

Lemma length_append (p s : string) :
  String.length (p +:+ s) = (String.length p + String.length s)%nat.
Proof. induction p as [|c p IH]; [done|]. rewrite append_String. simpl. by rewrite IH. Qed.

Lemma append_assoc (a b c : string) : (a +:+ b) +:+ c = a +:+ b +:+ c.
Proof. induction a as [|x a IH]; [done|]. rewrite !append_String. by rewrite IH. Qed.

Lemma substring_all (s : string) : String.substring 0 (String.length s) s = s.
Proof. induction s as [|c s IH]; [done|]. simpl. by rewrite IH. Qed.

Lemma substring_skip (p s : string) (k : nat) :
  String.substring (String.length p) k (p +:+ s) = String.substring 0 k s.
Proof. induction p as [|c p IH]; [done|]. rewrite append_String. simpl. exact IH. Qed.

Lemma substring_split (s : string) (i k : nat) :
  (i + k)%nat = String.length s ->
  s = String.substring 0 i s +:+ String.substring i k s.
Proof.
  revert i. induction s as [|c s IH]; intros i H; simpl in H.
  - assert (i = 0%nat) as -> by lia. assert (k = 0%nat) as -> by lia. done.
  - destruct i as [|i].
    + simpl in H. subst k. rewrite append_empty. simpl. by rewrite substring_all.
    + simpl. rewrite append_String. f_equal. apply IH. lia.
Qed.

Lemma ends_with_spec (suffix s : string) :
  ends_with suffix s = true <-> exists p, s = p +:+ suffix.
Proof.
  unfold ends_with. split.
  - intros H. apply andb_true_iff in H as [Hle Heq].
    apply Nat.leb_le in Hle. apply String.eqb_eq in Heq.
    exists (String.substring 0 (String.length s - String.length suffix) s).
    pose proof (substring_split s (String.length s - String.length suffix)
                  (String.length suffix) ltac:(lia)) as Hs.
    rewrite Heq in Hs. exact Hs.
  - intros [p ->]. rewrite length_append. apply andb_true_iff. split.
    + apply Nat.leb_le. lia.
    + replace (String.length p + String.length suffix - String.length suffix)%nat
        with (String.length p) by lia.
      rewrite substring_skip, substring_all. apply String.eqb_refl.
Qed.

Section MoreProperties.

Variable hostname : string -> option string.
Variable disablePlaydl : bool.
Variable env_MAX_PLAYLIST_LENGTH : option Z.

Local Abbreviation step' := (step hostname disablePlaydl env_MAX_PLAYLIST_LENGTH).
Local Abbreviation run' := (run hostname disablePlaydl env_MAX_PLAYLIST_LENGTH).
Local Abbreviation add' := (add hostname disablePlaydl env_MAX_PLAYLIST_LENGTH).

(** X6: [isYouTubeUrl] accepts a link exactly when it is a non-empty
    string whose host, as the URL parser reports it, is youtube.com, a
    name ending in .youtube.com, or youtu.be; a host that merely contains
    or starts with youtube.com is refused, and null is refused. *)
Theorem isYouTubeUrl_hosts (u : string) :
  (isYouTubeUrl hostname (Some u) = true <->
   u <> "" /\ exists h, hostname u = Some h /\
                (h = "youtube.com" \/ h = "youtu.be"
                 \/ exists p, h = p +:+ ".youtube.com")) /\
  isYouTubeUrl hostname None = false.
Proof.
  split; [|reflexivity]. unfold isYouTubeUrl, host_matches.
  destruct (String.eqb u "") eqn:Eu.
  { apply String.eqb_eq in Eu. split; [discriminate|]. by intros [? _]. }
  apply String.eqb_neq in Eu.
  destruct (hostname u) as [h|].
  2: { split; [discriminate|]. by intros (_ & h & ? & _). }
  rewrite !orb_true_iff, !String.eqb_eq, !ends_with_spec. split.
  - intros H. split; [done|]. exists h. split; [done|].
    destruct H as [[[->|Hp]| ->]|[->|[p ->]]]; eauto.
    + right. right. by exists "music".
    + right. right. exists (p +:+ ".music").
      by rewrite append_assoc.
  - intros (_ & h' & [= <-] & [->|[->|Hp]]); eauto.
Qed.

(** ** Track end, skip and stop *)

Lemma onIdle_guarded (rt : Runtime) :
  isTransitioning (queue rt) = true \/ songs (queue rt) = [] -> onIdle rt = rt.
Proof.
  unfold onIdle. intros [H|H]; rewrite H; [done|].
  by destruct (isTransitioning (queue rt)).
Qed.

Lemma onIdle_leaves_guarded (rt : Runtime) :
  isTransitioning (queue (onIdle rt)) = true \/ songs (queue (onIdle rt)) = [].
Proof.
  unfold onIdle. destruct (isTransitioning (queue rt)) eqn:Et; [by left|].
  destruct (songs (queue rt)) as [|s [|s' l]] eqn:Es; [by right| |].
  - right. simpl. rewrite Es. simpl. by rewrite Es.
  - left. simpl. rewrite Es. reflexivity.
Qed.

(** X7: the Idle handler absorbs a repeated Idle event: running it a second
    time changes nothing, so one track end never removes two tracks; it
    removes at most the head. *)
Theorem onIdle_absorbs_repeat (rt : Runtime) :
  onIdle (onIdle rt) = onIdle rt /\
  (songs (queue (onIdle rt)) = songs (queue rt)
   \/ songs (queue (onIdle rt)) = tail (songs (queue rt))).
Proof.
  split; [|apply onIdle_songs]. apply onIdle_guarded, onIdle_leaves_guarded.
Qed.

(** X8: [stop()] empties the array, sends its notice and clears the
    now-playing panel, leaving no message and no refresh interval; the
    other fields of the queue, the scheduled callbacks and the suspended
    calls are as before, the transport being only asked to stop.  After it
    [skip()] returns false, the Idle handler changes nothing, and a track
    advance that was already scheduled starts nothing. *)
Theorem stop_settles_queue (rt : Runtime) (p : Panel) (now : Z) :
  let rt1 := fst (stop_with_panel rt p) in
  let p1 := snd (stop_with_panel rt p) in
  songs (queue rt1) = [] /\
  sent rt1 = sent rt ++ [msg_stopped] /\
  queue rt1 = set_songs [] (queue rt) /\
  immediates rt1 = immediates rt /\ awaiting rt1 = awaiting rt /\
  started rt1 = started rt /\
  nowPlayingMessage p1 = None /\ nowPlayingInterval p1 = None /\
  editing p1 = editing p /\
  (timers p = option_list (nowPlayingInterval p) -> timers p1 = []) /\
  fst (skip rt1) = false /\
  onIdle rt1 = rt1 /\
  (immediates rt <> [] ->
   exists rt',
     step' (EvImmediate now) rt1 = Some rt' /\
     songs (queue rt') = [] /\ awaiting rt' = awaiting rt /\
     started rt' = started rt /\ sent rt' = sent rt1 /\
     immediates rt' = tail (immediates rt)).
Proof.
  cbv zeta. unfold stop_with_panel. cbn [fst snd].
  do 6 (split; [reflexivity|]).
  assert (nowPlayingInterval (_clearNowPlayingMessage p) = None) as Hi.
  { unfold _clearNowPlayingMessage, _stopNowPlayingUpdates.
    by destruct (nowPlayingInterval p) eqn:E; simpl; rewrite ?E. }
  split; [reflexivity|]. split; [exact Hi|]. split.
  { unfold _clearNowPlayingMessage, _stopNowPlayingUpdates.
    by destruct (nowPlayingInterval p). }
  split.
  { intros Ht. unfold _clearNowPlayingMessage, _stopNowPlayingUpdates.
    destruct (nowPlayingInterval p) as [t|] eqn:E; simpl in *; rewrite ?E; simpl;
      [|exact Ht].
    rewrite Ht. by rewrite filter_cons_False, filter_nil by (intros Hn; by apply Hn). }
  split; [reflexivity|]. split.
  - unfold onIdle. simpl. by destruct (isTransitioning (queue rt)).
  - intros Him. destruct (immediates rt) as [|cb cbs] eqn:E; [done|].
    simpl. rewrite ?E. destruct cb; eexists; (split; [reflexivity|]); done.
Qed.

Lemma async_valid_head (now : Z) (rt : Runtime) (t : Track) (l : list Slot) :
  songs (queue rt) = Some t :: l -> playable hostname t ->
  _playCurrent_async hostname now rt =
  set_awaiting (awaiting rt ++ [t])
    (on_queue (fun q =>
       set_isTransitioning false
         (set_paused false
            (set_accumulatedPauseMs 0
               (set_pausedAtMs None (set_currentStartMs now q))))) rt).
Proof.
  intros Hs Hp. unfold _playCurrent_async, _playCurrent_begin.
  rewrite Hs, (playable_truthy hostname t Hp), Hp. reflexivity.
Qed.

(** X9: [skip()] on a queue with a next track of valid link returns true
    and changes nothing by itself; the track end that the stopped transport
    then reports removes the head and nothing else, and the callback it
    schedules begins playback of the next track with a fresh clock. *)
Theorem skip_advances_to_next
    (rt : Runtime) (s : Slot) (t : Track) (l : list Slot) (now : Z) :
  songs (queue rt) = s :: Some t :: l ->
  playable hostname t ->
  is_idle (player (queue rt)) = false ->
  isTransitioning (queue rt) = false ->
  immediates rt = [] ->
  skip rt = (true, rt) /\
  exists rt',
    run' [EvSkip; EvIdle; EvImmediate now] rt = Some rt' /\
    songs (queue rt') = Some t :: l /\
    awaiting rt' = awaiting rt ++ [t] /\
    immediates rt' = [] /\
    sent rt' = sent rt /\
    started rt' = started rt /\
    currentStartMs (queue rt') = now /\
    accumulatedPauseMs (queue rt') = 0 /\
    paused (queue rt') = false /\
    isTransitioning (queue rt') = false.
Proof.
  intros Hs Hp Hi Ht Him.
  assert (skip rt = (true, rt)) as Hskip by (unfold skip; by rewrite Hs).
  split; [exact Hskip|].
  set (advance := fun q : GuildQueue =>
         set_currentResource None
           (set_accumulatedPauseMs 0
              (set_pausedAtMs None
                 (set_currentStartMs 0 (shift (set_isTransitioning true q)))))).
  set (rt1 := on_queue (fun q => set_player (player_to_idle (player q)) q) rt).
  assert (onIdle rt1 = setImmediate CbAdvance (on_queue advance rt1)) as Hidle.
  { unfold onIdle. subst rt1. simpl. rewrite Ht, Hs. simpl. rewrite ?Hs. reflexivity. }
  set (rt3 := on_queue (set_isTransitioning false)
                (set_immediates [] (setImmediate CbAdvance (on_queue advance rt1)))).
  assert (songs (queue rt3) = Some t :: l) as Hs3 by (simpl; rewrite ?Hs; reflexivity).
  exists (_playCurrent_async hostname now rt3). split.
  - cbn [run step]. rewrite Hskip. cbn [snd]. rewrite Hi. fold rt1. rewrite Hidle.
    cbn [immediates setImmediate on_queue]. subst rt1. cbn [immediates on_queue].
    rewrite Him. reflexivity.
  - rewrite (async_valid_head now rt3 t l Hs3 Hp). simpl. rewrite ?Hs. done.
Qed.

(** ** Notices of a queue *)

Lemma settle_sent (out : PlayOutcome) (current : Track) (rt : Runtime) :
  sent (_playCurrent_settle disablePlaydl out current rt) = sent rt
  \/ sent (_playCurrent_settle disablePlaydl out current rt) = sent rt ++ [msg_all_failed].
Proof.
  unfold _playCurrent_settle, try_playdl, try_ytdlp, abandon_head.
  destruct disablePlaydl, (playdl_stream out), (video_basic_info_ok out),
    (stream_from_info out), (truthyS (ytdlp_direct out)), (ffmpeg_encode out);
    simpl; try (by left); right;
    destruct (tail (songs (queue rt))) eqn:E; simpl; by rewrite ?E.
Qed.

Lemma async_sent (now : Z) (rt : Runtime) :
  Forall (slot_ok hostname) (songs (queue rt)) ->
  sent (_playCurrent_async hostname now rt) = sent rt.
Proof.
  intros H. pose proof (begin_keeps_valid_head hostname now rt H) as Hb.
  unfold _playCurrent_async.
  destruct (_playCurrent_begin hostname now rt) as [rt1 [c|]]; simpl in *; tauto.
Qed.

Lemma step_sent (e : Event) (rt rt' : Runtime) :
  step' e rt = Some rt' ->
  Forall (slot_ok hostname) (songs (queue rt)) ->
  sent rt' = sent rt
  \/ exists m, sent rt' = sent rt ++ [m] /\
       (m = msg_all_failed \/ m = msg_queue_ended \/ m = msg_stopped
        \/ exists message, m = "Playback error: " +:+ message).
Proof.
  intros Hs Hi. destruct e; simpl in Hs.
  - injection Hs as <-. left.
    destruct (add_has_shape hostname disablePlaydl env_MAX_PLAYLIST_LENGTH
                res query member now rt) as [m rt' Hsh|r tracks rt1 _ _ Hp Hsh].
    + by destruct Hsh as (_ & -> & _).
    + destruct Hsh as (Hq & Hsent & _).
      assert (Forall (slot_ok hostname) (songs (queue (on_queue (push tracks) rt1)))) as H1.
      { simpl. rewrite Hq. apply Forall_app. split; [done|].
        apply Forall_fmap. eapply Forall_impl; [exact Hp|]. done. }
      destruct (play_if_idle_keeps_valid hostname now _ H1) as (_ & _ & -> & _).
      exact Hsent.
  - destruct (awaiting rt !! i); [|discriminate]. injection Hs as <-.
    destruct (settle_sent out t (set_awaiting (delete i (awaiting rt)) rt)) as [->| ->];
      [by left|right; eexists; split; [reflexivity|by left]].
  - left. destruct (immediates rt) as [|[] cbs]; try discriminate;
      injection Hs as <-; by rewrite async_sent.
  - destruct (is_idle _); [discriminate|]. injection Hs as <-.
    unfold onIdle. simpl. destruct (isTransitioning (queue rt)); [by left|].
    destruct (songs (queue rt)) as [|s [|s' l]] eqn:E; simpl; rewrite ?E; simpl;
      [by left| |by left].
    right. eexists. split; [reflexivity|]. right. by left.
  - destruct (is_idle _); [discriminate|]. injection Hs as <-.
    unfold onError. destruct (isStreamError message); [by left|].
    right. exists ("Playback error: " +:+ message). split.
    + simpl. by destruct (tail (songs (queue rt))).
    + do 3 right. by eexists.
  - injection Hs as <-. left. by rewrite skip_state.
  - injection Hs as <-. right. eexists. split; [reflexivity|]. do 2 right. by left.
  - injection Hs as <-. by left.
  - injection Hs as <-. by left.
  - injection Hs as <-. by left.
  - injection Hs as <-. by left.
Qed.

(** X10: in every state reachable from a new queue, every track in the
    array has a link that passes [isYouTubeUrl], as [add] has tested it
    before the push; so the invalid-link branch of [_playCurrent] is dead:
    a call of [_playCurrent] removes no track, schedules nothing and sends
    nothing before its first await, and the notice "Invalid URL, skipping"
    is never sent. *)
Theorem reachable_notices (rt : Runtime) (now : Z) :
  reachable hostname disablePlaydl env_MAX_PLAYLIST_LENGTH rt ->
  (forall t, Some t ∈ songs (queue rt) -> isYouTubeUrl hostname (url t) = true) /\
  (let rt1 := fst (_playCurrent_begin hostname now rt) in
   songs (queue rt1) = songs (queue rt) /\ sent rt1 = sent rt /\
   immediates rt1 = immediates rt) /\
  msg_invalid_url ∉ sent rt.
Proof.
  intros Hreach.
  pose proof (reachable_songs_ok hostname disablePlaydl env_MAX_PLAYLIST_LENGTH rt Hreach)
    as Hok.
  split.
  { intros t Ht. rewrite Forall_forall in Hok. exact (Hok (Some t) Ht). }
  split.
  { destruct (begin_keeps_valid_head hostname now rt Hok) as (H1 & _ & H2 & H3 & _).
    by split. }
  destruct Hreach as (g & ch & events & Hr).
  assert (forall m, m ∈ sent rt ->
     m = msg_all_failed \/ m = msg_queue_ended \/ m = msg_stopped
     \/ exists message, m = "Playback error: " +:+ message) as Hall.
  { assert (Forall (slot_ok hostname) (songs (queue (newRuntime g ch)))) as H0
      by constructor.
    assert (forall m, m ∈ sent (newRuntime g ch) ->
       m = msg_all_failed \/ m = msg_queue_ended \/ m = msg_stopped
       \/ exists message, m = "Playback error: " +:+ message) as H1
      by (intros m Hm; simpl in Hm; by apply elem_of_nil in Hm).
    revert Hr H0 H1. generalize (newRuntime g ch).
    induction events as [|e events IH]; intros rt0 Hr H0 H1; simpl in Hr.
    - by injection Hr as <-.
    - destruct (step' e rt0) as [rt1|] eqn:E; [|discriminate].
      apply (IH rt1 Hr).
      + eapply step_songs_ok; eauto.
      + intros m Hm. destruct (step_sent e rt0 rt1 E H0) as [Hs|(m' & Hs & Hm')];
          rewrite Hs in Hm; [by apply H1|].
        apply elem_of_app in Hm as [Hm|Hm]; [by apply H1|].
        apply list_elem_of_singleton in Hm as ->. exact Hm'. }
  intros Hin.
  destruct (Hall _ Hin) as [H|[H|[H|[message H]]]]; discriminate H.
Qed.

(** ** A single track added *)

Lemma queueYouTubePlaylist_no_track (res : Resolver) (query rb : string) (now : Z)
    (rt : Runtime) (ttl : string) (u : option string) (d : option Z)
    (th a : option string) :
  fst (_queueYouTubePlaylist hostname env_MAX_PLAYLIST_LENGTH res query rb now rt)
  <> AddedTrack ttl u d th a.
Proof.
  unfold _queueYouTubePlaylist.
  destruct (list_playlist _ _ _ _) as [[[collected pt]|m] rt1]; [|done].
  destruct collected; [done|]. destruct (omap _ _); done.
Qed.

Lemma add_track_result
    (res : Resolver) (query : string) (member : Member) (now : Z) (rt : Runtime)
    (ttl : string) (u : option string) (d : option Z) (th a : option string) :
  fst (add' res query member now rt) = AddedTrack ttl u d th a ->
  let track := {| title := ttl; url := u; requestedBy := requester member;
                  duration := d; thumbnail := th; artist := a |} in
  playable hostname track /\
  snd (add' res query member now rt)
  = play_if_idle hostname now (on_queue (push [track]) rt).
Proof.
  intros Hadd track. revert Hadd. unfold add.
  destruct (String.eqb query ""); [done|].
  destruct (resolve _ _ _ _ _ _ _) as [u0 ttl0 a0|r rt1|m rt1] eqn:R; simpl.
  - destruct (truthyS u0) eqn:Tu; simpl; [|done].
    destruct (isYouTubeUrl hostname u0) eqn:Yu; simpl; [|done].
    intros [= -> -> <- <- <-]. fold track. split; [exact Yu|done].
  - intros ->. exfalso. unfold resolve, first_match in R.
    repeat (case_match; try discriminate); simplify_eq.
    all: match goal with
    | H : _queueYouTubePlaylist _ _ ?r ?q ?b ?n ?s = _ |- _ =>
        apply (queueYouTubePlaylist_no_track r q b n s ttl u d th a); by rewrite H
    end.
  - done.
Qed.

(** ** The listing of a playlist *)

(** X12: the two nested loops over the fetched pages of a playlist collect
    exactly the first [MAX_PLAYLIST_LENGTH] videos of the pages laid end to
    end, in their order; when no page holds a video, the listing is the
    first [MAX_PLAYLIST_LENGTH] elements of [playlist.videos]. *)
Theorem collect_playdl_is_prefix (pl : Playlist) :
  let fetched := concat (default [] (fetched_videos pl)) in
  collect_playdl env_MAX_PLAYLIST_LENGTH pl
  = take (Z.to_nat (MAX_PLAYLIST_LENGTH env_MAX_PLAYLIST_LENGTH))
      (match fetched with
       | [] => default [] (videos pl)
       | _ :: _ => fetched
       end).
Proof.
  pose proof (MAX_PLAYLIST_LENGTH_pos env_MAX_PLAYLIST_LENGTH) as Hm.
  set (M := MAX_PLAYLIST_LENGTH env_MAX_PLAYLIST_LENGTH) in *.
  unfold collect_playdl. fold M.
  assert (forall pages, collect_pages env_MAX_PLAYLIST_LENGTH pages []
                        = take (Z.to_nat M) (concat pages)) as Hc.
  { intros pages. rewrite collect_pages_take by (simpl; fold M; lia). fold M.
    simpl. by rewrite Nat.sub_0_r. }
  destruct (fetched_videos pl) as [pages|]; simpl.
  - rewrite Hc. destruct (concat pages) as [|v vs] eqn:E.
    + rewrite take_nil. destruct (videos pl); simpl; by rewrite ?take_nil.
    + destruct (Z.to_nat M) as [|m] eqn:Em; [lia|]. reflexivity.
  - destruct (videos pl); simpl; by rewrite ?take_nil.
Qed.

(** ** The registry *)

Lemma world_step_owner (e : WorldEvent) (w w' : World) :
  world_step hostname disablePlaydl env_MAX_PLAYLIST_LENGTH e w = Some w' ->
  (forall g q, queues w !! g = Some q ->
     exists rt, heap w !! q = Some rt /\ guildId (queue rt) = g) ->
  forall g q, queues w' !! g = Some q ->
    exists rt, heap w' !! q = Some rt /\ guildId (queue rt) = g.
Proof.
  intros Hs Hinv g q Hq. destruct e as [g' ch'|q' ev]; simpl in Hs.
  - injection Hs as <-. unfold get in Hq |- *.
    destruct (queues w !! g') as [q1|] eqn:E; simpl in *; [by apply Hinv|].
    destruct (decide (g' = g)) as [->|Hne].
    + rewrite lookup_insert_eq in Hq. injection Hq as <-.
      exists (newRuntime g ch'). by rewrite lookup_insert_eq.
    + rewrite lookup_insert_ne in Hq by done.
      destruct (Hinv g q Hq) as (rt & Hh & Hg). exists rt. split; [|exact Hg].
      rewrite lookup_insert_ne; [exact Hh|].
      intros <-. apply (is_fresh (dom (heap w))). apply elem_of_dom. eauto.
  - destruct (heap w !! q') as [rt0|] eqn:E; [|discriminate].
    destruct (step' ev rt0) as [rt1|] eqn:Es; [|discriminate].
    injection Hs as <-. simpl in *. destruct (Hinv g q Hq) as (rt & Hh & Hg).
    destruct (decide (q' = q)) as [->|Hne].
    + exists rt1. rewrite lookup_insert_eq. split; [done|].
      apply (step_identity hostname disablePlaydl env_MAX_PLAYLIST_LENGTH) in Es
        as [Hg' _].
      simplify_eq. by rewrite Hg'.
    + exists rt. by rewrite lookup_insert_ne.
Qed.

(** X13: in every registry reached from a new [PlayerManager] by calls of
    [get] and events of its queues, the queue registered for a guild
    carries that guild's id, so two guilds never share a queue instance;
    and an event of one guild's queue leaves the queue of every other
    guild, and the registry's table, as they are. *)
Theorem guilds_have_own_queues (events : list WorldEvent) (w : World) :
  world_run hostname disablePlaydl env_MAX_PLAYLIST_LENGTH events newPlayerManager
    = Some w ->
  (forall g q, queues w !! g = Some q ->
     exists rt, heap w !! q = Some rt /\ guildId (queue rt) = g) /\
  (forall g1 g2 q, queues w !! g1 = Some q -> queues w !! g2 = Some q -> g1 = g2) /\
  (forall g1 g2 q1 q2 e w',
     g1 <> g2 -> queues w !! g1 = Some q1 -> queues w !! g2 = Some q2 ->
     world_step hostname disablePlaydl env_MAX_PLAYLIST_LENGTH (WQueue q1 e) w = Some w' ->
     heap w' !! q2 = heap w !! q2 /\ queues w' = queues w).
Proof.
  intros Hr.
  assert (forall g q, queues w !! g = Some q ->
            exists rt, heap w !! q = Some rt /\ guildId (queue rt) = g) as Hinv.
  { assert (forall g q, queues newPlayerManager !! g = Some q ->
              exists rt, heap newPlayerManager !! q = Some rt /\ guildId (queue rt) = g)
      as H0 by (intros g q Hq; simpl in Hq; by rewrite lookup_empty in Hq).
    revert Hr H0. generalize newPlayerManager.
    induction events as [|e events IH]; intros w0 Hr H0; simpl in Hr.
    - by injection Hr as <-.
    - destruct (world_step _ _ _ e w0) as [w1|] eqn:E; [|discriminate].
      apply (IH w1 Hr). exact (world_step_owner e w0 w1 E H0). }
  assert (forall g1 g2 q, queues w !! g1 = Some q -> queues w !! g2 = Some q -> g1 = g2)
    as Hinj.
  { intros g1 g2 q H1 H2. destruct (Hinv g1 q H1) as (rt1 & Hh1 & <-).
    destruct (Hinv g2 q H2) as (rt2 & Hh2 & <-). by simplify_eq. }
  split; [exact Hinv|]. split; [exact Hinj|].
  intros g1 g2 q1 q2 e w' Hne H1 H2 Hs. simpl in Hs.
  destruct (heap w !! q1) as [rt0|] eqn:E; [|discriminate].
  destruct (step' e rt0) as [rt1|] eqn:Es; [|discriminate].
  injection Hs as <-. simpl. split; [|done].
  apply lookup_insert_ne. intros ->. by apply Hne, (Hinj g1 g2 q2).
Qed.

(** ** The clock at the start of a track *)

Lemma settle_clock (out : PlayOutcome) (current : Track) (rt : Runtime) :
  let q' := queue (_playCurrent_settle disablePlaydl out current rt) in
  currentStartMs q' = currentStartMs (queue rt) /\
  pausedAtMs q' = pausedAtMs (queue rt) /\
  accumulatedPauseMs q' = accumulatedPauseMs (queue rt) /\
  paused q' = paused (queue rt).
Proof.
  unfold _playCurrent_settle, try_playdl, try_ytdlp, abandon_head.
  destruct disablePlaydl, (playdl_stream out), (video_basic_info_ok out),
    (stream_from_info out), (truthyS (ytdlp_direct out)), (ffmpeg_encode out);
    simpl; try done; destruct (tail (songs (queue rt))); done.
Qed.

(** X14: a run of [_playCurrent] on a head track with a valid link puts
    the clock of the queue at the time of the call and discards the pause
    bookkeeping of the track before, whatever the pause state was and
    whatever the libraries then answer: a later reading of the elapsed
    time is the time since the call, also when every strategy fails and
    nothing is played. *)
Theorem playCurrent_restarts_clock
    (rt : Runtime) (t : Track) (l : list Slot) (now later : Z) (out : PlayOutcome) :
  songs (queue rt) = Some t :: l -> playable hostname t ->
  now <> 0 -> now <= later ->
  let q' := queue (_playCurrent hostname disablePlaydl now out rt) in
  getElapsedSeconds later q' = ((later - now) # 1000)%Q /\
  (getElapsedSeconds now q' == 0)%Q /\
  currentStartMs q' = now /\ accumulatedPauseMs q' = 0 /\
  pausedAtMs q' = None /\ paused q' = false.
Proof.
  intros Hs Hp Hn Hle q'. subst q'.
  rewrite (playCurrent_valid_head hostname disablePlaydl now out rt t l Hs Hp).
  match goal with |- context [_playCurrent_settle _ _ _ ?r] =>
    destruct (settle_clock out t r) as (Hc & Hpa & Ha & Hpd) end.
  simpl in Hc, Hpa, Ha, Hpd.
  assert ((now =? 0) = false) as Hz by lia.
  assert (forall x, now <= x ->
            (if Qlt_le_dec ((x - now - 0) # 1000) 0 then 0%Q
             else ((x - now - 0) # 1000)%Q) = ((x - now) # 1000)%Q) as Hq.
  { intros x Hx. rewrite Z.sub_0_r.
    destruct (Qlt_le_dec _ 0) as [L|L]; [|done].
    unfold Qlt in L. simpl in L. lia. }
  unfold getElapsedSeconds. rewrite Hc, Hpa, Ha, Hpd, Hz. simpl.
  split; [by apply Hq|]. split; [|done].
  rewrite (Hq now) by lia. by rewrite Z.sub_diag.
Qed.

End MoreProperties.

(** ** The clock of the current track *)

(** X15: a pause at [t1] followed by a resume at [t2], on a playing queue,
    both succeed and take the paused interval out of the elapsed time: at
    any later reading the resumed queue shows what the untouched queue
    would have shown [t2 - t1] milliseconds earlier.  The queue is again
    playing and not paused, so this holds pause after pause. *)
Theorem resume_discounts_pause (q : GuildQueue) (t1 t2 t3 : Z) :
  status (player q) = Playing -> paused q = false -> t1 <> 0 ->
  exists q2,
    resume t2 (snd (pause t1 q)) = (true, q2) /\
    fst (pause t1 q) = true /\
    getElapsedSeconds t3 q2 = getElapsedSeconds (t3 - (t2 - t1)) q /\
    accumulatedPauseMs q2 = accumulatedPauseMs q + (t2 - t1) /\
    status (player q2) = Playing /\ paused q2 = false /\
    songs q2 = songs q /\ currentStartMs q2 = currentStartMs q.
Proof.
  intros Hst Hp Ht1.
  assert ((t1 =? 0) = false) as Hz by lia.
  unfold pause, player_pause, pause_with. rewrite Hst. simpl. rewrite Hp. simpl.
  unfold resume, player_unpause, resume_with. simpl. rewrite Hz. simpl.
  eexists. split; [reflexivity|]. split; [reflexivity|]. simpl.
  split; [|by rewrite ?Hp].
  unfold getElapsedSeconds. simpl. rewrite Hp. simpl.
  replace (t3 - currentStartMs q - (accumulatedPauseMs q + (t2 - t1)))
    with (t3 - (t2 - t1) - currentStartMs q - accumulatedPauseMs q) by lia.
  reflexivity.
Qed.

(** X16: readings of the elapsed time never go back as the wall clock
    advances, in any state of the queue; and on a queue that is not paused
    and has its start time set, the reading is zero exactly as long as the
    clock has not passed the start time plus the accumulated pauses. *)
Theorem elapsed_follows_clock (q : GuildQueue) (now1 now2 : Z) :
  now1 <= now2 ->
  (getElapsedSeconds now1 q <= getElapsedSeconds now2 q)%Q /\
  (paused q = false -> currentStartMs q <> 0 ->
   ((getElapsedSeconds now1 q == 0)%Q
    <-> now1 <= currentStartMs q + accumulatedPauseMs q)).
Proof.
  intros Hle. unfold getElapsedSeconds.
  destruct (currentStartMs q =? 0) eqn:E0.
  { split; [apply Qle_refl|]. intros _ H. lia. }
  set (n1 := if paused q && truthyZ (pausedAtMs q)
             then default 0 (pausedAtMs q) else now1).
  set (n2 := if paused q && truthyZ (pausedAtMs q)
             then default 0 (pausedAtMs q) else now2).
  assert (n1 <= n2) as H1
    by (subst n1 n2; destruct (paused q && truthyZ (pausedAtMs q)); lia).
  assert (paused q = false -> n1 = now1) as Hn1
    by (intros Hp; subst n1; by rewrite Hp).
  set (c := currentStartMs q) in *. set (a := accumulatedPauseMs q) in *.
  destruct (Qlt_le_dec ((n1 - c - a) # 1000) 0) as [L1|L1],
           (Qlt_le_dec ((n2 - c - a) # 1000) 0) as [L2|L2];
    unfold Qlt, Qle, Qeq in *; simpl in *;
    (split; [lia|]); intros Hp _; rewrite (Hn1 Hp) in *; lia.
Qed.

(** ** The pages of the queue display *)

Lemma totalPages_eq (n : nat) : totalPages n = (Z.of_nat n + 19) / 20.
Proof.
  unfold totalPages, Qceiling, Qfloor, Qopp. cbn [Qnum Qden].
  change (Z.pos 20) with 20. Z.to_euclidean_division_equations. lia.
Qed.

Lemma page_indices_seq (k n : nat) :
  (20 * k <= n)%nat ->
  page_indices (Z.of_nat k) n
  = map Z.of_nat (seq (20 * k) (Nat.min (20 * k + 20) n - 20 * k)).
Proof.
  intros H. unfold page_indices, page_end, page_start, itemsPerPage.
  replace (Z.to_nat (Z.min (Z.of_nat k * 20 + 20) (Z.of_nat n) - Z.of_nat k * 20))
    with (Nat.min (20 * k + 20) n - 20 * k)%nat by lia.
  generalize (Nat.min (20 * k + 20) n - 20 * k)%nat. intros c.
  rewrite <- (Nat.add_0_r (20 * k)) at 1. rewrite <- (fmap_add_seq (20 * k) 0 c).
  rewrite <- list_fmap_compose. apply list_fmap_ext. intros _ j _. simpl. lia.
Qed.

Lemma pages_upto (k n : nat) :
  Z.of_nat k <= totalPages n ->
  concat (map (fun p => page_indices (Z.of_nat p) n) (seq 0 k))
  = map Z.of_nat (seq 0 (Nat.min (20 * k) n)).
Proof.
  rewrite totalPages_eq. induction k as [|k IH]; intros H; [done|].
  assert (20 * k < n)%nat as Hk by (Z.to_euclidean_division_equations; lia).
  rewrite seq_S, map_app, concat_app, IH by lia. cbn [map concat].
  rewrite Nat.add_0_l, app_nil_r, page_indices_seq by lia.
  rewrite <- map_app. f_equal.
  replace (Nat.min (20 * k) n) with (20 * k)%nat by lia.
  set (c := (Nat.min (20 * k + 20) n - 20 * k)%nat).
  transitivity (seq 0 (20 * k + c)); [symmetry; apply seq_app|f_equal; lia].
Qed.

(** X17: the pages of the queue display, 20 lines each, taken in order
    from page 0 to the last one, list every index of the array exactly
    once and in order: no track is left out or shown on two pages. *)
Theorem queue_pages_partition (n : nat) :
  concat (map (fun p => page_indices (Z.of_nat p) n)
              (seq 0 (Z.to_nat (totalPages n))))
  = map Z.of_nat (seq 0 n).
Proof.
  assert (0 <= totalPages n) as H0
    by (rewrite totalPages_eq; Z.to_euclidean_division_equations; lia).
  rewrite pages_upto by lia. f_equal. f_equal.
  rewrite totalPages_eq in *. Z.to_euclidean_division_equations. lia.
Qed.

Lemma page_indices_spec (page : Z) (n : nat) (i : Z) :
  i ∈ page_indices page n <-> page_start page <= i < page_end page n.
Proof.
  unfold page_indices. rewrite list_elem_of_fmap. split.
  - intros (k & -> & Hk). apply elem_of_seq in Hk. lia.
  - intros H. exists (Z.to_nat (i - page_start page)). split; [lia|].
    apply elem_of_seq. lia.
Qed.

(** X18: on a queue that is not empty, the page that the button handler
    shows for any requested page number is an existing page, and the
    requested one when that exists; it has between 1 and 20 lines, all for
    indices of the array.  A page button that is enabled asks for an
    existing page, and when there are several pages at least one of the two
    buttons is enabled. *)
Theorem queue_page_in_range (targetPage : Z) (n : nat) :
  (0 < n)%nat ->
  let page := currentPage targetPage n in
  0 <= page < totalPages n /\
  (0 <= targetPage < totalPages n -> page = targetPage) /\
  (1 <= length (page_indices page n) <= 20)%nat /\
  (forall i, i ∈ page_indices page n -> 0 <= i < Z.of_nat n) /\
  (prev_disabled page = false -> currentPage (prev_target page) n = prev_target page) /\
  (next_disabled page n = false -> currentPage (next_target page) n = next_target page) /\
  (1 < totalPages n -> prev_disabled page = false \/ next_disabled page n = false).
Proof.
  intros Hn page.
  assert (1 <= totalPages n /\ 20 * (totalPages n - 1) < Z.of_nat n) as [HT HT']
    by (rewrite totalPages_eq; Z.to_euclidean_division_equations; lia).
  assert (0 <= page < totalPages n) as Hp by (subst page; unfold currentPage; lia).
  split; [exact Hp|]. split; [subst page; unfold currentPage; lia|].
  split.
  { unfold page_indices. rewrite length_map, length_seq.
    unfold page_end, page_start, itemsPerPage. nia. }
  split.
  { intros i Hi. apply page_indices_spec in Hi.
    unfold page_end, page_start, itemsPerPage in Hi. nia. }
  unfold prev_disabled, next_disabled, prev_target, next_target.
  split; [|split].
  - intros H. apply Z.eqb_neq in H. unfold currentPage at 1. lia.
  - intros H. apply Z.eqb_neq in H. unfold currentPage at 1. lia.
  - intros H. destruct (page =? 0) eqn:E; [right|by left].
    apply Z.eqb_eq in E. apply Z.eqb_neq. lia.
Qed.

(** X19: the number that a line of the queue display shows is the index
    that [remove] accepts for the track of that line, and [remove] then
    takes out exactly that element; the line of index 0, shown as the
    current track, has no number, and [remove] refuses index 0. *)
Theorem line_number_is_remove_index (q : GuildQueue) (page i : Z) :
  0 <= page -> i ∈ page_indices page (length (songs q)) ->
  match line_label i with
  | LNow => i = 0 /\ remove i q = (None, q)
  | LNumber j =>
      j = i /\
      exists r, songs q !! Z.to_nat i = Some r /\
        remove j q = (Some r, set_songs (delete (Z.to_nat i) (songs q)) q)
  end.
Proof.
  intros Hp Hi. apply page_indices_spec in Hi.
  unfold page_end, page_start, itemsPerPage in Hi. unfold line_label.
  destruct (i =? 0) eqn:E.
  - apply Z.eqb_eq in E. subst i. split; [done|]. apply remove_rejects. lia.
  - apply Z.eqb_neq in E. split; [done|]. apply remove_accepts. lia.
Qed.

Lemma length_substring (n : nat) (s : string) :
  String.length (String.substring 0 n s) = Nat.min n (String.length s).
Proof.
  revert n. induction s as [|c s IH]; intros [|n]; simpl; try done.
  by rewrite IH.
Qed.

Lemma prefix_substring (n : nat) (s : string) :
  String.prefix (String.substring 0 n s) s = true.
Proof.
  revert n. induction s as [|c s IH]; intros [|n]; simpl; try done.
  destruct (ascii_dec c c); [apply IH|done].
Qed.

(** X20: the title shown on a line of the queue display is never longer
    than 60 characters: a title of at most 60 characters is shown as it is,
    a longer one as its first 57 characters followed by three dots. *)
Theorem display_title_fits (t : string) :
  (String.length (display_title t) <= 60)%nat /\
  ((String.length t <= 60)%nat -> display_title t = t) /\
  ((60 < String.length t)%nat ->
   exists p, display_title t = p +:+ "..." /\ String.length p = 57%nat /\
             String.prefix p t = true /\ String.length (display_title t) = 60%nat).
Proof.
  unfold display_title. destruct (60 <? String.length t)%nat eqn:E.
  - apply Nat.ltb_lt in E.
    assert (String.length (String.substring 0 57 t +:+ "...") = 60%nat) as Hl
      by (rewrite length_append, length_substring;
          change (String.length "...") with 3%nat; lia).
    split; [lia|]. split; [lia|]. intros _.
    exists (String.substring 0 57 t). split; [done|].
    split; [rewrite length_substring; lia|]. split; [apply prefix_substring|exact Hl].
  - apply Nat.ltb_ge in E. split; [lia|]. split; [done|lia].
Qed.

Lemma findIndex_url_spec (u : option string) (l : list Slot) (i : Z) :
  Forall is_Some l ->
  (exists k s, findIndex_url u l i = Some (i + Z.of_nat k) /\
     l !! k = Some (Some s) /\ url s = u /\
     forall j s', (j < k)%nat -> l !! j = Some (Some s') -> url s' <> u)
  \/ (findIndex_url u l i = Some (-1) /\ forall s, Some s ∈ l -> url s <> u).
Proof.
  intros Hl. revert i. induction Hl as [|x l [s ->] _ IH]; intros i.
  - right. split; [done|]. intros s Hs. by apply elem_of_nil in Hs.
  - simpl. destruct (decide (url s = u)) as [Hs|Hs].
    + left. exists 0%nat, s. split; [f_equal; lia|]. split; [done|]. split; [done|].
      intros; lia.
    + destruct (IH (i + 1)) as [(k & s0 & Hk & Hlook & Hu & Hbefore)|[Hk Hnone]].
      * left. exists (S k), s0. split; [rewrite Hk; f_equal; lia|].
        split; [done|]. split; [done|].
        intros [|j] s' Hj Hl'; simpl in Hl'; [by simplify_eq|].
        apply (Hbefore j); [lia|done].
      * right. split; [done|]. intros s' Hs'.
        apply elem_of_cons in Hs' as [Hs'|Hs']; [by simplify_eq|by apply Hnone].
Qed.

(** ** The now-playing panel *)

Lemma stop_updates_inv (p : Panel) :
  timers p = option_list (nowPlayingInterval p) ->
  timers (_stopNowPlayingUpdates p) = [] /\
  nowPlayingInterval (_stopNowPlayingUpdates p) = None /\
  nowPlayingMessage (_stopNowPlayingUpdates p) = nowPlayingMessage p /\
  editing (_stopNowPlayingUpdates p) = editing p.
Proof.
  intros H. unfold _stopNowPlayingUpdates.
  destruct (nowPlayingInterval p) as [t|] eqn:E; simpl in *; rewrite ?E; [|done].
  rewrite H. rewrite filter_cons_False, filter_nil by (intros Hn; by apply Hn). done.
Qed.

Lemma start_updater_inv (p : Panel) :
  timers p = option_list (nowPlayingInterval p) ->
  let p' := _startNowPlayingUpdater p in
  timers p' = option_list (nowPlayingInterval p') /\
  (nowPlayingInterval p' <> None -> nowPlayingMessage p' <> None) /\
  (nowPlayingMessage p <> None -> nowPlayingInterval p' <> None) /\
  nowPlayingMessage p' = nowPlayingMessage p.
Proof.
  intros H. destruct (stop_updates_inv p H) as (Ht & Hi & Hm & _).
  unfold _startNowPlayingUpdater. rewrite Hm.
  destruct (nowPlayingMessage p) as [m|] eqn:E; simpl; rewrite ?Ht, ?Hi, ?Hm, ?E; done.
Qed.

Lemma clear_message_inv (p : Panel) :
  timers p = option_list (nowPlayingInterval p) ->
  let p' := _clearNowPlayingMessage p in
  timers p' = [] /\ nowPlayingInterval p' = None /\ nowPlayingMessage p' = None.
Proof.
  intros H. destruct (stop_updates_inv p H) as (Ht & Hi & _).
  unfold _clearNowPlayingMessage. simpl. by rewrite Ht, Hi.
Qed.

Lemma panel_step_inv (e : PanelEvent) (p p' : Panel) :
  panel_step e p = Some p' ->
  timers p = option_list (nowPlayingInterval p) ->
  (nowPlayingInterval p <> None -> nowPlayingMessage p <> None) ->
  timers p' = option_list (nowPlayingInterval p') /\
  (nowPlayingInterval p' <> None -> nowPlayingMessage p' <> None).
Proof.
  intros Hs Ht Hm.
  assert (forall p0, timers p0 = option_list (nowPlayingInterval p0) ->
            let p1 := _clearNowPlayingMessage p0 in
            timers p1 = option_list (nowPlayingInterval p1) /\
            (nowPlayingInterval p1 <> None -> nowPlayingMessage p1 <> None)) as Hclear.
  { intros p0 H0. destruct (clear_message_inv p0 H0) as (H1 & H2 & H3).
    cbv zeta. by rewrite H1, H2. }
  assert (forall head, let p1 := _updateNowPlayingMessage_begin head p in
            timers p1 = option_list (nowPlayingInterval p1) /\
            (nowPlayingInterval p1 <> None -> nowPlayingMessage p1 <> None)) as Hupd.
  { intros head. unfold _updateNowPlayingMessage_begin.
    destruct (nowPlayingMessage p) eqn:E; [|by rewrite ?E].
    destruct head; [simpl; by rewrite ?E|by apply Hclear]. }
  destruct e as [current|head|head|i ok|]; simpl in Hs.
  - injection Hs as <-. unfold _sendNowPlayingEmbed_begin.
    destruct current; [|done].
    destruct (stop_updates_inv p Ht) as (H1 & H2 & H3 & _).
    destruct (nowPlayingMessage (_stopNowPlayingUpdates p)); simpl; by rewrite H1, H2.
  - destruct (timers p); [discriminate|]. injection Hs as <-. apply Hupd.
  - injection Hs as <-. apply Hupd.
  - destruct (editing p !! i) as [c|]; [|discriminate]. injection Hs as <-.
    destruct c, ok; simpl; try (by apply Hclear); try done.
    + match goal with |- context [_startNowPlayingUpdater ?p0] =>
        destruct (start_updater_inv p0 Ht) as (H1 & H2 & _) end.
      by split.
    + match goal with |- context [_startNowPlayingUpdater ?p0] =>
        destruct (start_updater_inv p0 Ht) as (H1 & H2 & _) end.
      by split.
  - injection Hs as <-. by apply Hclear.
Qed.

(** X21: however announcements, refreshes, timer ticks, clearings and the
    completions of suspended edits and sends interleave, the panel never
    has more than one interval running: the intervals set and not cleared
    are exactly the one the queue remembers, and an interval runs only
    while there is a message to refresh.  Clearing the panel then leaves no
    interval and no message. *)
Theorem panel_keeps_one_timer (events : list PanelEvent) (p : Panel) :
  panel_run events newPanel = Some p ->
  timers p = option_list (nowPlayingInterval p) /\
  (length (timers p) <= 1)%nat /\
  (timers p <> [] -> nowPlayingMessage p <> None) /\
  timers (_clearNowPlayingMessage p) = [] /\
  nowPlayingMessage (_clearNowPlayingMessage p) = None.
Proof.
  intros Hr.
  assert (timers p = option_list (nowPlayingInterval p) /\
          (nowPlayingInterval p <> None -> nowPlayingMessage p <> None)) as [Ht Hm].
  { assert (timers newPanel = option_list (nowPlayingInterval newPanel) /\
            (nowPlayingInterval newPanel <> None -> nowPlayingMessage newPanel <> None))
      as H0 by done.
    revert Hr H0. generalize newPanel.
    induction events as [|e events IH]; intros p0 Hr [H0 H1]; simpl in Hr.
    - by injection Hr as <-.
    - destruct (panel_step e p0) as [p1|] eqn:E; [|discriminate].
      apply (IH p1 Hr). exact (panel_step_inv e p0 p1 E H0 H1). }
  destruct (clear_message_inv p Ht) as (Hc1 & _ & Hc3).
  split; [exact Ht|]. split; [rewrite Ht; destruct (nowPlayingInterval p); simpl; lia|].
  split; [|by split].
  intros Hne. apply Hm. rewrite Ht in Hne. by destruct (nowPlayingInterval p).
Qed.

(** ** The voice connection *)

Lemma voice_step_inv (e : VoiceEvent) (v v' : Voice) :
  voice_step e v = Some v' ->
  joined v = option_list (connection v) ->
  (entering v <= 1)%nat ->
  (entering v = 1%nat -> connection v <> None) ->
  joined v' = option_list (connection v') /\
  (entering v' <= 1)%nat /\
  (entering v' = 1%nat -> connection v' <> None).
Proof.
  intros Hs Hj He Hc. destruct e as [|ready]; simpl in Hs.
  - injection Hs as <-. unfold connect_begin.
    destruct (connection v) as [c|] eqn:E; [by rewrite ?E|]. simpl.
    rewrite Hj. simpl. split; [done|].
    assert (entering v = 0%nat) as ->
      by (destruct (entering v) as [|[|k]]; [done|by destruct Hc|lia]).
    split; [lia|done].
  - destruct (entering v) as [|k] eqn:Ek; [discriminate|].
    assert (k = 0%nat) as -> by lia. unfold connect_settle in Hs. rewrite Ek in Hs.
    destruct ready.
    + injection Hs as <-. simpl. split; [exact Hj|]. split; [lia|lia].
    + destruct (connection v) as [c|] eqn:E; [|discriminate]. injection Hs as <-.
      simpl. rewrite Hj. simpl.
      rewrite filter_cons_False, filter_nil by (intros Hn; by apply Hn).
      split; [done|]. split; [lia|lia].
Qed.

(** X22: however calls of [connect] and the outcomes of their waits
    interleave, the queue never holds more than one voice connection that
    has been joined and not destroyed, and it is the one in [connection];
    at most one call is ever waiting, so the outcome of a wait always finds
    its connection.  A call made while a connection exists, ready or not,
    changes nothing; a failed wait destroys the connection, sends the
    notice and leaves none, so that a later call joins again. *)
Theorem voice_keeps_one_connection (events : list VoiceEvent) (v : Voice) :
  voice_run events newVoice = Some v ->
  joined v = option_list (connection v) /\
  (entering v <= 1)%nat /\
  (connection v <> None -> voice_step VConnect v = Some v) /\
  (entering v = 1%nat ->
   exists v1 v2,
     voice_step (VEntered true) v = Some v1 /\
     connection v1 = connection v /\ joined v1 = joined v /\
     voice_notices v1 = voice_notices v /\
     voice_step (VEntered false) v = Some v2 /\
     connection v2 = None /\ joined v2 = [] /\
     voice_notices v2 = voice_notices v ++ [msg_join_failed] /\
     subscribed v2 = subscribed v /\
     connection (connect_begin v2) = Some (next_connection v)).
Proof.
  intros Hr.
  assert (joined v = option_list (connection v) /\ (entering v <= 1)%nat /\
          (entering v = 1%nat -> connection v <> None)) as (Hj & He & Hc).
  { assert (joined newVoice = option_list (connection newVoice) /\
            (entering newVoice <= 1)%nat /\
            (entering newVoice = 1%nat -> connection newVoice <> None)) as H0
      by (simpl; repeat split; [lia|discriminate]).
    revert Hr H0. generalize newVoice.
    induction events as [|e events IH]; intros v0 Hr (H0 & H1 & H2); simpl in Hr.
    - by injection Hr as <-.
    - destruct (voice_step e v0) as [v1|] eqn:E; [|discriminate].
      apply (IH v1 Hr). exact (voice_step_inv e v0 v1 E H0 H1 H2). }
  split; [exact Hj|]. split; [exact He|]. split.
  - intros Hn. simpl. unfold connect_begin. by destruct (connection v).
  - intros H1. specialize (Hc H1). simpl. rewrite H1. unfold connect_settle.
    destruct (connection v) as [c|] eqn:E; [|done].
    do 2 eexists. split; [reflexivity|].
    do 3 (split; [reflexivity|]). split; [reflexivity|]. simpl.
    rewrite Hj. simpl.
    rewrite filter_cons_False, filter_nil by (intros Hn; by apply Hn). done.
Qed.

Section Sessions.

Variable hostname : string -> option string.
Variable disablePlaydl : bool.
Variable env_MAX_PLAYLIST_LENGTH : option Z.

Local Abbreviation step' := (step hostname disablePlaydl env_MAX_PLAYLIST_LENGTH).
Local Abbreviation run' := (run hostname disablePlaydl env_MAX_PLAYLIST_LENGTH).
Local Abbreviation add' := (add hostname disablePlaydl env_MAX_PLAYLIST_LENGTH).
Local Abbreviation add_returns' :=
  (add_returns hostname disablePlaydl env_MAX_PLAYLIST_LENGTH).

(** ** Outcomes of a run of _playCurrent *)

Lemma run_app (es1 es2 : list Event) (rt : Runtime) :
  run' (es1 ++ es2) rt
  = match run' es1 rt with Some rt1 => run' es2 rt1 | None => None end.
Proof.
  revert rt. induction es1 as [|e es1 IH]; intros rt; simpl; [done|].
  destruct (step' e rt); [apply IH|done].
Qed.

Lemma settle_success (out : PlayOutcome) (current : Track) (rt : Runtime) :
  all_tried_failed disablePlaydl out = false ->
  let rt' := _playCurrent_settle disablePlaydl out current rt in
  queue rt' = set_player (player_play current (player (queue rt)))
                (set_currentResource (Some current) (queue rt)) /\
  sent rt' = sent rt /\ immediates rt' = immediates rt /\
  awaiting rt' = awaiting rt /\ started rt' = current :: started rt.
Proof.
  unfold all_tried_failed, primary_ok, info_ok, extractor_ok,
    _playCurrent_settle, try_playdl, try_ytdlp.
  destruct disablePlaydl, (playdl_stream out), (video_basic_info_ok out),
    (stream_from_info out), (truthyS (ytdlp_direct out)), (ffmpeg_encode out);
    simpl; done.
Qed.

(** ** The return of add *)

Lemma settle_failure (out : PlayOutcome) (current : Track) (rt : Runtime) :
  all_tried_failed disablePlaydl out = true ->
  let rt' := _playCurrent_settle disablePlaydl out current rt in
  songs (queue rt') = tail (songs (queue rt)) /\
  sent rt' = sent rt ++ [msg_all_failed] /\
  immediates rt' = immediates rt ++ match tail (songs (queue rt)) with
                                    | [] => []
                                    | _ :: _ => [CbPlay]
                                    end /\
  awaiting rt' = awaiting rt /\ started rt' = started rt /\
  player (queue rt') = player (queue rt).
Proof.
  unfold all_tried_failed, primary_ok, info_ok, extractor_ok,
    _playCurrent_settle, try_playdl, try_ytdlp, abandon_head.
  destruct disablePlaydl, (playdl_stream out), (video_basic_info_ok out),
    (stream_from_info out), (truthyS (ytdlp_direct out)), (ffmpeg_encode out);
    simpl; try done; intros _;
    destruct (tail (songs (queue rt))) eqn:E; simpl; rewrite ?E, ?app_nil_r; done.
Qed.

Lemma begin_awaiting (now : Z) (rt : Runtime) :
  awaiting (fst (_playCurrent_begin hostname now rt)) = awaiting rt.
Proof.
  unfold _playCurrent_begin. repeat case_match; simpl; try done.
Qed.

Lemma set_awaiting_back (l : list Track) (rt : Runtime) :
  set_awaiting (awaiting rt) (set_awaiting l rt) = rt.
Proof. by destruct rt. Qed.

Lemma play_if_idle_returns (now : Z) (out : PlayOutcome) (rt0 : Runtime) :
  let rt1 := play_if_idle hostname now rt0 in
  match awaiting rt1 !! length (awaiting rt0) with
  | Some current =>
      _playCurrent_settle disablePlaydl out current
        (set_awaiting (delete (length (awaiting rt0)) (awaiting rt1)) rt1)
  | None => rt1
  end
  = if is_idle (player (queue rt0))
    then _playCurrent hostname disablePlaydl now out rt0 else rt0.
Proof.
  unfold play_if_idle. destruct (is_idle (player (queue rt0))).
  - unfold _playCurrent_async, _playCurrent.
    pose proof (begin_awaiting now rt0) as Ha.
    destruct (_playCurrent_begin hostname now rt0) as [rt1 [c|]]; simpl in *.
    + rewrite <- Ha, lookup_app_r, Nat.sub_diag by lia. simpl.
      replace (delete (length (awaiting rt1)) (awaiting rt1 ++ [c])) with (awaiting rt1).
      * by rewrite set_awaiting_back.
      * rewrite (delete_middle (awaiting rt1) [] c). by rewrite app_nil_r.
    + rewrite <- Ha. by rewrite (lookup_ge_None_2 (awaiting rt1)) by lia.
  - by rewrite lookup_ge_None_2 by lia.
Qed.

Lemma add_returns_track
    (res : Resolver) (query : string) (member : Member) (now : Z) (out : PlayOutcome)
    (rt : Runtime) (ttl : string) (u : option string) (d : option Z)
    (th a : option string) :
  fst (add_returns' res query member now out rt) = AddedTrack ttl u d th a ->
  let track := {| title := ttl; url := u; requestedBy := requester member;
                  duration := d; thumbnail := th; artist := a |} in
  playable hostname track /\
  snd (add_returns' res query member now out rt)
  = if is_idle (player (queue rt))
    then _playCurrent hostname disablePlaydl now out (on_queue (push [track]) rt)
    else on_queue (push [track]) rt.
Proof.
  intros Hadd track. unfold add_returns in *.
  pose proof (add_track_result hostname disablePlaydl env_MAX_PLAYLIST_LENGTH
                res query member now rt ttl u d th a) as Hres.
  destruct (add' res query member now rt) as [r rt1]. simpl in *.
  destruct (Hres Hadd) as [Hp ->]. fold track. split; [exact Hp|].
  exact (play_if_idle_returns now out (on_queue (push [track]) rt)).
Qed.


(** ** The position that /play reports *)

(** X23: the /play command computes the position once [add] has returned,
    so after the [_playCurrent] that [add] awaits.  For a single track
    returned, on a queue without undefined elements: the array is then the
    old one with the track at its end, less its head when the transport
    was idle and every strategy failed on the head.  The position is the
    index of the first track of that array with the added link; it is the
    index of the new last element exactly when no track queued before has
    that link, and it is -1, with the reply showing position #-1, exactly
    when the array was empty, the transport idle and every strategy
    failed.  When the reply says that the track is playing now and a
    stream was found, the head has the added link and is the track that
    this call handed to the transport.  All this is for an [add] during
    which nothing else happens to the queue. *)
Theorem play_position_first_match
    (res : Resolver) (query : string) (member : Member) (now : Z) (out : PlayOutcome)
    (rt : Runtime) (ttl : string) (u : option string) (d : option Z)
    (th a : option string) :
  fst (add_returns' res query member now out rt) = AddedTrack ttl u d th a ->
  Forall (slot_ok hostname) (songs (queue rt)) ->
  Forall is_Some (songs (queue rt)) ->
  let track := {| title := ttl; url := u; requestedBy := requester member;
                  duration := d; thumbnail := th; artist := a |} in
  let rt' := snd (add_returns' res query member now out rt) in
  let shifted := is_idle (player (queue rt)) && all_tried_failed disablePlaydl out in
  songs (queue rt') = (if shifted then tail (songs (queue rt) ++ [Some track])
                       else songs (queue rt) ++ [Some track]) /\
  exists p,
    findIndex_url u (songs (queue rt')) 0 = Some p /\
    (p = -1 <-> shifted = true /\ songs (queue rt) = []) /\
    (0 <= p ->
     exists s, songs (queue rt') !! Z.to_nat p = Some (Some s) /\ url s = u /\
       forall j s', (j < Z.to_nat p)%nat ->
                    songs (queue rt') !! j = Some (Some s') -> url s' <> u) /\
    (shifted = false ->
     (p = Z.of_nat (length (songs (queue rt)))
      <-> forall s, Some s ∈ songs (queue rt) -> url s <> u)) /\
    (isNow p (status (player (queue rt))) = true ->
     all_tried_failed disablePlaydl out = false ->
     exists h, head (songs (queue rt')) = Some (Some h) /\ url h = u /\
               head (started rt') = Some h).
Proof.
  intros Hadd Hok Hsome track rt' shifted. subst rt'.
  destruct (add_returns_track res query member now out rt ttl u d th a Hadd)
    as [Hp Hrt]. fold track in Hp, Hrt.
  set (rt0 := on_queue (push [track]) rt) in *.
  set (after := songs (queue rt) ++ [Some track]).
  assert (exists h l, after = Some h :: l /\ playable hostname h) as (h & l & Hafter & Hph).
  { subst after. destruct (songs (queue rt)) as [|x l0] eqn:E.
    - exists track, nil. by split.
    - inversion Hsome as [|? ? [h0 ->] _]; subst. inversion Hok; subst.
      exists h0, (l0 ++ [Some track]). by split. }
  assert (songs (queue rt0) = Some h :: l) as Hs0 by exact Hafter.
  assert (Forall is_Some after) as Hsome'.
  { apply Forall_app. split; [exact Hsome|]. repeat constructor. by eexists. }
  (* the state at the return *)
  assert (songs (queue (snd (add_returns' res query member now out rt)))
          = (if shifted then tail after else after) /\
          (is_idle (player (queue rt)) = true ->
           all_tried_failed disablePlaydl out = false ->
           started (snd (add_returns' res query member now out rt))
           = h :: started rt)) as [Hsongs Hstarted].
  { rewrite Hrt. subst shifted. destruct (is_idle (player (queue rt))); simpl.
    - rewrite (playCurrent_valid_head hostname disablePlaydl now out rt0 h l Hs0 Hph).
      destruct (all_tried_failed disablePlaydl out) eqn:Ef.
      + match goal with |- context [_playCurrent_settle _ _ _ ?r] =>
          destruct (settle_failure out h r Ef) as (Hs & _) end.
        split; [|discriminate]. rewrite Hs. reflexivity.
      + match goal with |- context [_playCurrent_settle _ _ _ ?r] =>
          destruct (settle_success out h r Ef) as (Hq & _ & _ & _ & Hst) end.
        split; [rewrite Hq; reflexivity|]. intros _ _. by rewrite Hst.
    - split; [reflexivity|discriminate]. }
  split; [exact Hsongs|]. rewrite Hsongs.
  set (final := if shifted then tail after else after).
  assert (Forall is_Some final) as Hfinal.
  { subst final. destruct shifted; [|exact Hsome'].
    rewrite Hafter in Hsome' |- *. simpl. by inversion Hsome'. }
  assert (final = [] <-> shifted = true /\ songs (queue rt) = []) as Hempty.
  { subst final after. destruct shifted, (songs (queue rt)) as [|x [|y l0]]; simpl;
      split; try done; intros [? ?]; done. }
  assert (shifted = false -> final = after) as Hkeep
    by (intros Hsh; subst final; by rewrite Hsh).
  destruct (findIndex_url_spec u final 0 Hfinal)
    as [(k & s & Hk & Hlook & Hu & Hbefore)|[Hk Hnone]].
  - exists (Z.of_nat k). rewrite Z.add_0_l in Hk. split; [exact Hk|]. split.
    { split; [lia|]. intros Hsh. apply Hempty in Hsh. rewrite Hsh in Hlook.
      by rewrite lookup_nil in Hlook. }
    split.
    { intros _. rewrite Nat2Z.id. exists s. by split. }
    split.
    { intros Hsh. rewrite (Hkeep Hsh) in Hlook, Hbefore. subst after. split.
      - intros Heq. apply Nat2Z.inj in Heq. subst k. intros s' Hs'.
        apply list_elem_of_lookup in Hs' as [j Hj].
        apply (Hbefore j s').
        + by apply lookup_lt_Some in Hj.
        + by rewrite lookup_app_l by (by apply lookup_lt_Some in Hj).
      - intros Hno. f_equal.
        destruct (decide (k < length (songs (queue rt)))%nat) as [Hlt|Hge].
        + rewrite lookup_app_l in Hlook by done.
          destruct (Hno s); [|done]. by apply list_elem_of_lookup_2 in Hlook.
        + apply lookup_lt_Some in Hlook. rewrite length_app in Hlook.
          simpl in Hlook. lia. }
    intros Hnow Hsucc. unfold isNow in Hnow.
    apply andb_true_iff in Hnow as [Hz Hidle]. apply Z.eqb_eq in Hz.
    assert (k = 0%nat) as -> by lia.
    assert (is_idle (player (queue rt)) = true) as Hidle'
      by (unfold is_idle; by destruct (status (player (queue rt)))).
    assert (shifted = false) as Hsh by (subst shifted; by rewrite Hsucc, andb_false_r).
    rewrite (Hkeep Hsh), Hafter in Hlook |- *. simpl in Hlook. simplify_eq.
    exists s. split; [done|]. split; [done|].
    by rewrite (Hstarted Hidle' Hsucc).
  - exists (-1). split; [exact Hk|]. split.
    { split; [intros _|done]. apply Hempty.
      destruct final as [|x l0] eqn:Ef; [done|].
      exfalso. subst final.
      assert (Some track ∈ x :: l0) as Hin.
      { rewrite <- Ef. subst after. destruct shifted.
        - destruct (songs (queue rt)) as [|y l1]; simpl in *; [done|].
          apply elem_of_app. right. by left.
        - apply elem_of_app. right. by left. }
      by apply (Hnone track Hin). }
    split; [lia|]. split.
    { intros Hsh. exfalso. rewrite (Hkeep Hsh) in Hnone.
      apply (Hnone track); [|done]. subst after. apply elem_of_app. right. by left. }
    intros Hnow. unfold isNow in Hnow. by apply andb_true_iff in Hnow as [? _].
Qed.


(** ** Playing through the queue *)

Lemma track_cycle (rt : Runtime) (s : Slot) (t : Track) (l : list Slot) (now : Z)
    (out : PlayOutcome) :
  songs (queue rt) = s :: Some t :: l -> playable hostname t ->
  is_idle (player (queue rt)) = false -> isTransitioning (queue rt) = false ->
  immediates rt = [] -> awaiting rt = [] ->
  all_tried_failed disablePlaydl out = false ->
  exists rt',
    run' [EvIdle; EvImmediate now; EvSettle 0 out] rt = Some rt' /\
    songs (queue rt') = Some t :: l /\
    is_idle (player (queue rt')) = false /\ isTransitioning (queue rt') = false /\
    immediates rt' = [] /\ awaiting rt' = [] /\
    started rt' = t :: started rt /\ sent rt' = sent rt /\
    currentStartMs (queue rt') = now.
Proof.
  intros Hs Hp Hi Ht Him Haw Hok.
  set (advance := fun q : GuildQueue =>
         set_currentResource None
           (set_accumulatedPauseMs 0
              (set_pausedAtMs None
                 (set_currentStartMs 0 (shift (set_isTransitioning true q)))))).
  set (rt1 := on_queue (fun q => set_player (player_to_idle (player q)) q) rt).
  assert (onIdle rt1 = setImmediate CbAdvance (on_queue advance rt1)) as Hidle.
  { unfold onIdle. subst rt1. simpl. rewrite Ht, Hs. simpl. rewrite ?Hs. reflexivity. }
  set (rt3 := on_queue (set_isTransitioning false)
                (set_immediates [] (setImmediate CbAdvance (on_queue advance rt1)))).
  assert (songs (queue rt3) = Some t :: l) as Hs3 by (simpl; rewrite ?Hs; reflexivity).
  pose proof (async_valid_head hostname now rt3 t l Hs3 Hp) as Hasync.
  set (rt4 := _playCurrent_async hostname now rt3) in *.
  assert (awaiting rt4 = [t]) as Haw4 by (rewrite Hasync; simpl; by rewrite Haw).
  set (rt5 := set_awaiting (delete 0%nat (awaiting rt4)) rt4).
  destruct (settle_success out t rt5 Hok) as (Hq & Hsent & Himm & Hawt & Hst).
  exists (_playCurrent_settle disablePlaydl out t rt5). split.
  - assert (step' EvIdle rt = Some (setImmediate CbAdvance (on_queue advance rt1)))
      as S1 by (cbn [step]; rewrite Hi; fold rt1; by rewrite Hidle).
    assert (step' (EvImmediate now) (setImmediate CbAdvance (on_queue advance rt1))
            = Some rt4) as S2.
    { cbn [step immediates setImmediate on_queue]. subst rt1.
      cbn [immediates on_queue]. rewrite Him. reflexivity. }
    assert (step' (EvSettle 0 out) rt4
            = Some (_playCurrent_settle disablePlaydl out t rt5)) as S3
      by (cbn [step]; unfold rt5; rewrite Haw4; reflexivity).
    cbn [run]. rewrite S1, S2, S3. reflexivity.
  - rewrite Hq, Hsent, Himm, Hawt, Hst. subst rt5. simpl. rewrite Haw4, Hasync.
    simpl. rewrite ?Hs. simpl. by rewrite ?Him.
Qed.

(** X24: a queue that is playing its head track, with every further track
    of a valid link and a stream found for each, plays the tracks in the
    order of the array, each one once: every track end removes the head and
    starts the next track, and the end of the last track leaves the array
    empty and sends the end notice, once. *)
Theorem queue_plays_in_order
    (ts : list Track) (rt : Runtime) (t : Track) (nows : list Z) (out : PlayOutcome) :
  songs (queue rt) = Some t :: map Some ts ->
  Forall (playable hostname) ts ->
  length nows = length ts ->
  is_idle (player (queue rt)) = false -> isTransitioning (queue rt) = false ->
  immediates rt = [] -> awaiting rt = [] ->
  all_tried_failed disablePlaydl out = false ->
  exists rt',
    run' (concat (map (fun now => [EvIdle; EvImmediate now; EvSettle 0 out]) nows)
          ++ [EvIdle]) rt = Some rt' /\
    songs (queue rt') = [] /\
    started rt' = rev ts ++ started rt /\
    sent rt' = sent rt ++ [msg_queue_ended] /\
    is_idle (player (queue rt')) = true /\
    immediates rt' = [] /\ awaiting rt' = [].
Proof.
  revert rt t nows. induction ts as [|t2 ts IH]; intros rt t nows Hs Hp Hlen Hi Ht Him Haw Hok.
  - destruct nows; [|discriminate]. simpl in Hs. cbn [map concat app run step].
    rewrite Hi. eexists. split; [reflexivity|].
    unfold onIdle. simpl. rewrite Ht, Hs. simpl. rewrite ?Hs. simpl.
    by rewrite ?Him, ?Haw.
  - destruct nows as [|now nows]; [discriminate|]. simpl in Hs, Hlen.
    inversion Hp as [|? ? Hp2 Hps]; subst.
    destruct (track_cycle rt (Some t) t2 (map Some ts) now out Hs Hp2 Hi Ht Him Haw Hok)
      as (rt1 & Hrun & Hs1 & Hi1 & Ht1 & Him1 & Haw1 & Hst1 & Hsent1 & _).
    destruct (IH rt1 t2 nows Hs1 Hps ltac:(lia) Hi1 Ht1 Him1 Haw1 Hok)
      as (rt' & Hrun' & Hs' & Hst' & Hsent' & Hidle' & Him' & Haw').
    exists rt'. split.
    + cbn [map concat]. rewrite <- app_assoc, run_app, Hrun. exact Hrun'.
    + rewrite Hst', Hst1, Hsent', Hsent1. simpl. rewrite <- app_assoc. done.
Qed.

(** ** Metadata of an added track *)

(** X25: the metadata that [add] gathers keeps what an earlier source has
    given: an artist known from the search or from Spotify is never
    replaced, and when both lookups answer, artist and duration are the
    first non-empty value in the order search result, play-dl, yt-dlp.
    When play-dl is enabled and its lookup fails, yt-dlp is not consulted
    and the track is queued without duration and thumbnail. *)
Theorem enrich_keeps_first_source (res : Resolver) (u : string) (artist0 : option string) :
  (truthyS artist0 = true -> m_artist (enrich disablePlaydl res u artist0) = artist0) /\
  (forall vd json,
     disablePlaydl = false ->
     video_basic_info res u = Resolves vd -> ytdlp_json res u = Resolves json ->
     m_artist (enrich disablePlaydl res u artist0)
     = orS artist0 (orS (vd_artist vd) (orS (yj_artist json) None)) /\
     m_duration (enrich disablePlaydl res u artist0)
     = orZ (vd_durationInSec vd) (orZ (yj_duration json) None)) /\
  (forall message,
     disablePlaydl = false -> video_basic_info res u = Rejects message ->
     enrich disablePlaydl res u artist0
     = {| m_duration := None; m_thumbnail := None; m_artist := artist0 |}).
Proof.
  split; [|split].
  - intros Ha. unfold enrich, orS, orZ. simpl. rewrite ?Ha.
    repeat (case_match; simpl in *; rewrite ?Ha in *; simplify_eq; try done).
  - intros vd json Hd Hv Hj. unfold enrich. rewrite Hd, Hv, Hj. simpl.
    unfold orS, orZ.
    destruct (truthyS artist0) eqn:Ea, (truthyS (vd_artist vd)) eqn:Ev,
      (truthyZ (vd_durationInSec vd)) eqn:Ed, (truthyS (vd_thumbnail vd)) eqn:Et;
      simpl; rewrite ?Ea, ?Ev, ?Ed, ?Et; simpl; rewrite ?Ea, ?Ev, ?Ed, ?Et; simpl;
      try done;
      destruct (yj_thumbnail json); simpl; rewrite ?Ea, ?Ev, ?Ed; try done.
  - intros message Hd Hv. unfold enrich. by rewrite Hd, Hv.
Qed.

End Sessions.

(** * Closed instances of the further properties *)

Lemma formatDuration_versions_agree_witness :
  (0 < 75)%Q /\ Index.formatDuration (Some 75%Q) = formatDuration (Some 75%Q).
Proof.
  assert (0 < 75)%Q as H by reflexivity.
  split; [exact H|]. exact (proj1 (formatDuration_versions_agree 75 H)).
Defined.

Lemma buildProgressBar_cells_witness :
  exists bar,
    buildProgressBar (Some 30%Q) (Some 120) = Some bar /\
    length (cells bar) = 20%nat /\ 0 <= percent bar <= 100.
Proof.
  destruct (buildProgressBar_cells (Some 30%Q) (Some 120)) as (_ & H & _).
  destruct (buildProgressBar (Some 30%Q) (Some 120)) as [bar|] eqn:E.
  - exists bar. split; [reflexivity|].
    destruct (H bar eq_refl) as (Hl & _ & Hp & _). split; [exact Hl|exact Hp].
  - exfalso. vm_compute in E. discriminate E.
Defined.

Lemma buildProgressBar_versions_agree_witness :
  (0 < 30)%Q /\ 0 < 120 /\
  Index.buildProgressBar (Some 30%Q) (Some 120) = buildProgressBar (Some 30%Q) (Some 120).
Proof.
  assert (0 < 30)%Q as He by reflexivity. assert (0 < 120) as Ht by lia.
  split; [exact He|]. split; [exact Ht|].
  exact (proj1 (buildProgressBar_versions_agree 30 120 He Ht)).
Defined.

Lemma extractThumbnail_picks_last_witness :
  "a" <> "" /\ extractThumbnail (CObject (Some "a") (CString "b")) = Some "a".
Proof.
  assert ("a" <> "") as H by discriminate. split; [exact H|].
  destruct extractThumbnail_picks_last as (_ & _ & Ho & _).
  exact (Ho "a" (CString "b") H).
Defined.

Lemma isYouTubeUrl_hosts_witness :
  (link_a <> "" /\
   exists h, sample_hostname link_a = Some h /\
     (h = "youtube.com" \/ h = "youtu.be" \/ exists p, h = p +:+ ".youtube.com")) /\
  isYouTubeUrl sample_hostname (Some link_a) = true.
Proof.
  assert (link_a <> "" /\
          exists h, sample_hostname link_a = Some h /\
            (h = "youtube.com" \/ h = "youtu.be" \/ exists p, h = p +:+ ".youtube.com"))
    as H.
  { split; [discriminate|]. exists "www.youtube.com". split; [reflexivity|].
    right. right. exists "www". reflexivity. }
  split; [exact H|].
  exact (proj2 (proj1 (isYouTubeUrl_hosts sample_hostname link_a)) H).
Defined.

Lemma stop_settles_queue_witness :
  timers panel_showing = option_list (nowPlayingInterval panel_showing) /\
  immediates (setImmediate CbPlay playing_a) <> [] /\
  timers (snd (stop_with_panel (setImmediate CbPlay playing_a) panel_showing)) = [] /\
  exists rt',
    step sample_hostname false None (EvImmediate 2000)
      (fst (stop_with_panel (setImmediate CbPlay playing_a) panel_showing)) = Some rt' /\
    songs (queue rt') = [] /\ started rt' = started playing_a.
Proof.
  assert (timers panel_showing = option_list (nowPlayingInterval panel_showing)) as Ht
    by reflexivity.
  assert (immediates (setImmediate CbPlay playing_a) <> []) as H by discriminate.
  split; [exact Ht|]. split; [exact H|].
  destruct (stop_settles_queue sample_hostname false None
              (setImmediate CbPlay playing_a) panel_showing 2000)
    as (_ & _ & _ & _ & _ & _ & _ & _ & _ & Hp & _ & _ & Hi).
  split; [exact (Hp Ht)|].
  destruct (Hi H) as (rt' & Hstep & Hs & _ & Hst & _).
  exists rt'. split; [exact Hstep|]. split; [exact Hs|exact Hst].
Defined.

Lemma skip_advances_to_next_witness :
  songs (queue playing_a_then_b) = Some (track_of link_a) :: Some (track_of link_b) :: [] /\
  playable sample_hostname (track_of link_b) /\
  exists rt',
    run sample_hostname false None [EvSkip; EvIdle; EvImmediate 9000] playing_a_then_b
      = Some rt' /\
    songs (queue rt') = [Some (track_of link_b)] /\
    awaiting rt' = [track_of link_b] /\
    currentStartMs (queue rt') = 9000.
Proof.
  assert (playable sample_hostname (track_of link_b)) as Hp by reflexivity.
  split; [reflexivity|]. split; [exact Hp|].
  destruct (skip_advances_to_next sample_hostname false None playing_a_then_b
              (Some (track_of link_a)) (track_of link_b) [] 9000
              eq_refl Hp eq_refl eq_refl eq_refl)
    as (_ & rt' & Hrun & Hs & Haw & _ & _ & _ & Hc & _).
  exists rt'. split; [exact Hrun|]. split; [exact Hs|]. split; [exact Haw|exact Hc].
Defined.

Lemma reachable_notices_witness :
  exists rt,
    run sample_hostname false None overlapping_adds (newRuntime "g" "c") = Some rt /\
    sent rt <> [] /\ msg_invalid_url ∉ sent rt.
Proof.
  destruct (run sample_hostname false None overlapping_adds (newRuntime "g" "c"))
    as [rt|] eqn:E.
  - exists rt. split; [reflexivity|]. split.
    + vm_compute in E. injection E as <-. discriminate.
    + assert (reachable sample_hostname false None rt) as Hr
        by (exists "g", "c", overlapping_adds; exact E).
      destruct (reachable_notices sample_hostname false None rt 0 Hr) as (_ & _ & Hn).
      exact Hn.
  - exfalso. vm_compute in E. discriminate E.
Defined.

Lemma guilds_have_own_queues_witness :
  exists w,
    world_run sample_hostname false None [WGet "g" "music"; WGet "h" "lounge"]
      newPlayerManager = Some w /\
    forall g1 g2 q, queues w !! g1 = Some q -> queues w !! g2 = Some q -> g1 = g2.
Proof.
  destruct (world_run sample_hostname false None [WGet "g" "music"; WGet "h" "lounge"]
              newPlayerManager) as [w|] eqn:E.
  - exists w. split; [reflexivity|].
    exact (proj1 (proj2 (guilds_have_own_queues sample_hostname false None _ w E))).
  - exfalso. vm_compute in E. discriminate E.
Defined.

Lemma playCurrent_restarts_clock_witness :
  songs (queue queued_a) = [Some (track_of link_a)] /\
  playable sample_hostname (track_of link_a) /\ 1000 <> 0 /\ 1000 <= 4000 /\
  getElapsedSeconds 4000
    (queue (_playCurrent sample_hostname false 1000 everything_fails queued_a))
  = ((4000 - 1000) # 1000)%Q.
Proof.
  assert (playable sample_hostname (track_of link_a)) as Hp by reflexivity.
  assert (1000 <> 0) as Hn by lia. assert (1000 <= 4000) as Hle by lia.
  split; [reflexivity|]. split; [exact Hp|]. split; [exact Hn|]. split; [exact Hle|].
  exact (proj1 (playCurrent_restarts_clock sample_hostname false queued_a
                  (track_of link_a) [] 1000 4000 everything_fails eq_refl Hp Hn Hle)).
Defined.

Lemma resume_discounts_pause_witness :
  status (player (queue playing_a)) = Playing /\
  paused (queue playing_a) = false /\ 2000 <> 0 /\
  exists q2,
    resume 5000 (snd (pause 2000 (queue playing_a))) = (true, q2) /\
    getElapsedSeconds 9000 q2 = getElapsedSeconds (9000 - (5000 - 2000)) (queue playing_a).
Proof.
  assert (2000 <> 0) as Hn by lia.
  split; [reflexivity|]. split; [reflexivity|]. split; [exact Hn|].
  destruct (resume_discounts_pause (queue playing_a) 2000 5000 9000 eq_refl eq_refl Hn)
    as (q2 & Hr & _ & He & _).
  exists q2. split; [exact Hr|exact He].
Defined.

Lemma elapsed_follows_clock_witness :
  2000 <= 5000 /\ paused (queue playing_a) = false /\
  currentStartMs (queue playing_a) <> 0 /\
  (getElapsedSeconds 2000 (queue playing_a) <= getElapsedSeconds 5000 (queue playing_a))%Q /\
  ~ (getElapsedSeconds 2000 (queue playing_a) == 0)%Q.
Proof.
  assert (2000 <= 5000) as H by lia.
  assert (currentStartMs (queue playing_a) <> 0) as Hc by discriminate.
  split; [exact H|]. split; [reflexivity|]. split; [exact Hc|].
  destruct (elapsed_follows_clock (queue playing_a) 2000 5000 H) as [Hm Hz].
  split; [exact Hm|]. intros H0. apply (Hz eq_refl Hc) in H0. simpl in H0. lia.
Defined.

Lemma queue_page_in_range_witness :
  (0 < 45)%nat /\ 0 <= currentPage 7 45 < totalPages 45.
Proof.
  assert (0 < 45)%nat as H by lia. split; [exact H|].
  exact (proj1 (queue_page_in_range 7 45 H)).
Defined.

Lemma line_number_is_remove_index_witness :
  0 <= 0 /\ 1 ∈ page_indices 0 (length (songs three_songs)) /\
  exists r, songs three_songs !! Z.to_nat 1 = Some r /\
            remove 1 three_songs
            = (Some r, set_songs (delete (Z.to_nat 1) (songs three_songs)) three_songs).
Proof.
  assert (0 <= 0) as H0 by lia.
  assert (1 ∈ page_indices 0 (length (songs three_songs))) as Hin
    by (apply page_indices_spec; vm_compute; split; [discriminate|reflexivity]).
  split; [exact H0|]. split; [exact Hin|].
  exact (proj2 (line_number_is_remove_index three_songs 0 1 H0 Hin)).
Defined.

Lemma display_title_fits_witness :
  (String.length "Sena's theme" <= 60)%nat /\ display_title "Sena's theme" = "Sena's theme".
Proof.
  assert (String.length "Sena's theme" <= 60)%nat as H by (simpl; lia).
  split; [exact H|]. exact (proj1 (proj2 (display_title_fits "Sena's theme")) H).
Defined.

Lemma panel_keeps_one_timer_witness :
  exists p,
    panel_run panel_traffic newPanel = Some p /\
    (length (timers p) <= 1)%nat /\
    timers (_clearNowPlayingMessage p) = [].
Proof.
  destruct (panel_run panel_traffic newPanel) as [p|] eqn:E.
  - exists p. split; [reflexivity|].
    destruct (panel_keeps_one_timer panel_traffic p E) as (_ & Hl & _ & Hc & _).
    split; [exact Hl|exact Hc].
  - exfalso. vm_compute in E. discriminate E.
Defined.

Lemma voice_keeps_one_connection_witness :
  exists v,
    voice_run voice_traffic newVoice = Some v /\
    joined v = option_list (connection v) /\ (entering v <= 1)%nat.
Proof.
  destruct (voice_run voice_traffic newVoice) as [v|] eqn:E.
  - exists v. split; [reflexivity|].
    destruct (voice_keeps_one_connection voice_traffic v E) as (Hj & He & _).
    split; [exact Hj|exact He].
  - exfalso. vm_compute in E. discriminate E.
Defined.

Lemma queue_plays_in_order_witness :
  songs (queue playing_a_then_b) = Some (track_of link_a) :: map Some [track_of link_b] /\
  Forall (playable sample_hostname) [track_of link_b] /\
  all_tried_failed false primary_succeeds = false /\
  exists rt',
    run sample_hostname false None
      ([EvIdle; EvImmediate 9000; EvSettle 0 primary_succeeds] ++ [EvIdle])
      playing_a_then_b = Some rt' /\
    songs (queue rt') = [] /\
    started rt' = [track_of link_b; track_of link_a] /\
    sent rt' = [msg_queue_ended].
Proof.
  assert (Forall (playable sample_hostname) [track_of link_b]) as Hp
    by (repeat constructor).
  split; [reflexivity|]. split; [exact Hp|]. split; [reflexivity|].
  destruct (queue_plays_in_order sample_hostname false None [track_of link_b]
              playing_a_then_b (track_of link_a) [9000] primary_succeeds
              eq_refl Hp eq_refl eq_refl eq_refl eq_refl eq_refl eq_refl)
    as (rt' & Hrun & Hs & Hst & Hsent & _).
  exists rt'. split; [exact Hrun|]. split; [exact Hs|]. split; [exact Hst|exact Hsent].
Defined.

Lemma enrich_keeps_first_source_witness :
  truthyS (Some "Sena") = true /\
  m_artist (enrich false sample_resolver link_a (Some "Sena")) = Some "Sena".
Proof.
  assert (truthyS (Some "Sena") = true) as H by reflexivity.
  split; [exact H|].
  exact (proj1 (enrich_keeps_first_source false sample_resolver link_a (Some "Sena")) H).
Defined.


Lemma play_position_first_match_witness :
  fst (add_returns sample_hostname false None sample_resolver link_a sample_member 1000
         everything_fails (newRuntime "g" "c"))
  = AddedTrack ("title of " +:+ link_a) (Some link_a) (Some 100) (Some "thumb")
      (Some "channel") /\
  Forall (slot_ok sample_hostname) (songs (queue (newRuntime "g" "c"))) /\
  Forall is_Some (songs (queue (newRuntime "g" "c"))) /\
  findIndex_url (Some link_a)
    (songs (queue (snd (add_returns sample_hostname false None sample_resolver link_a
                          sample_member 1000 everything_fails (newRuntime "g" "c"))))) 0
  = Some (-1).
Proof.
  assert (fst (add_returns sample_hostname false None sample_resolver link_a
                 sample_member 1000 everything_fails (newRuntime "g" "c"))
          = AddedTrack ("title of " +:+ link_a) (Some link_a) (Some 100) (Some "thumb")
              (Some "channel")) as Hadd by reflexivity.
  assert (Forall (slot_ok sample_hostname) (songs (queue (newRuntime "g" "c")))) as Hok
    by constructor.
  assert (Forall is_Some (songs (queue (newRuntime "g" "c")))) as Hsome by constructor.
  split; [exact Hadd|]. split; [exact Hok|]. split; [exact Hsome|].
  destruct (play_position_first_match sample_hostname false None sample_resolver link_a
              sample_member 1000 everything_fails (newRuntime "g" "c") _ _ _ _ _
              Hadd Hok Hsome)
    as (_ & p & Hp & Hminus & _).
  rewrite Hp. f_equal. apply Hminus. split; reflexivity.
Defined.
